(** * Tandem: signaling relay, perfect negotiation and transcription sessions

    A shallow embedding of the signaling server ([server.js]), of the
    browser-side negotiation handlers ([public/script.js]) and of the
    speech-to-text session manager ([speech-to-text.js]), followed by the
    properties of the system specification checked against them. *)

From Stdlib Require Import ZArith List String Bool Lia.
From stdpp Require Import gmap strings list.
From coqutil Require Import Byte.

Open Scope string_scope.
Open Scope nat_scope.
Open Scope list_scope.

(** ** Wire payloads shared by the server and the clients *)

Inductive SdpType := offer | answer.

(** [RTCSessionDescription]: a type tag and the opaque SDP text. *)
Record SessionDescription := mkDesc { sd_type : SdpType; sd_sdp : string }.

(** The payload object of a [signal:*] message.  A field that is absent
    (or falsy) in the JavaScript object is [None]. *)
Record Payload := mkPayload {
  sdp : option SessionDescription;
  candidate : option string
}.

Inductive SignalKind := Offer | Answer | IceCandidate.

#[global] Instance SdpType_eq_dec : EqDecision SdpType.
Proof. solve_decision. Defined.
#[global] Instance SessionDescription_eq_dec : EqDecision SessionDescription.
Proof. solve_decision. Defined.
#[global] Instance Payload_eq_dec : EqDecision Payload.
Proof. solve_decision. Defined.
#[global] Instance SignalKind_eq_dec : EqDecision SignalKind.
Proof. solve_decision. Defined.

(** The field a message of each kind is expected to carry. *)
Definition required_field (k : SignalKind) (p : Payload) : bool :=
  match k with
  | Offer | Answer => bool_decide (is_Some (sdp p))
  | IceCandidate => bool_decide (is_Some (candidate p))
  end.

(** ** The signaling server ([server.js]) *)

Module Server.

Definition SocketId := string.

(** Events a client sends to the server. *)
Inductive Request :=
| join
| signal (k : SignalKind) (payload : Payload)
| disconnect.

(** Events the server sends to a client. *)
Inductive Message :=
| joined (room : string) (peers : nat)
| room_full
| ready
| initiate
| relayed (k : SignalKind) (payload : Payload)
| peer_disconnected.

#[global] Instance Message_eq_dec : EqDecision Message.
Proof. solve_decision. Defined.

(** One delivery: the receiving socket and the event. *)
Definition Emit : Type := SocketId * Message.

(** [io.sockets.adapter.rooms]: a [Map] from room name to the [Set] of
    socket ids in it.  A JavaScript [Set] iterates in insertion order,
    so a room is the list of its members, oldest first. *)
Abbreviation Rooms := (gmap string (list SocketId)).

Definition DEFAULT_ROOM : string := "main-room".

Definition getRoomSize (rooms : Rooms) (roomName : string) : nat :=
  match rooms !! roomName with
  | Some room => length room
  | None => 0
  end.

Definition members (rooms : Rooms) (roomName : string) : list SocketId :=
  default [] (rooms !! roomName).

(** [Set.prototype.add]. *)
Definition set_add (id : SocketId) (room : list SocketId) : list SocketId :=
  if decide (id ∈ room) then room else room ++ [id].

(** [socket.join(room)]. *)
Definition socket_join (id : SocketId) (roomName : string) (rooms : Rooms) : Rooms :=
  <[roomName := set_add id (members rooms roomName)]> rooms.

(** What socket.io does to a room when a socket closes: the id is removed
    and a room left empty is deleted from the map. *)
Definition socket_leave (id : SocketId) (roomName : string) (rooms : Rooms) : Rooms :=
  match rooms !! roomName with
  | None => rooms
  | Some room =>
      match filter (λ x, x ≠ id) room with
      | [] => delete roomName rooms
      | room' => <[roomName := room']> rooms
      end
  end.

(** [socket.emit(m)]. *)
Definition socket_emit (id : SocketId) (m : Message) : list Emit := [(id, m)].

(** [io.to(room).emit(m)]: every member of the room. *)
Definition io_to_emit (rooms : Rooms) (roomName : string) (m : Message) : list Emit :=
  map (λ r, (r, m)) (members rooms roomName).

(** [socket.to(room).emit(m)]: every member of the room but the sender. *)
Definition socket_to_emit (id : SocketId) (rooms : Rooms) (roomName : string)
    (m : Message) : list Emit :=
  map (λ r, (r, m)) (filter (λ x, x ≠ id) (members rooms roomName)).

(** [socket.on('join', ...)]. *)
Definition on_join (id : SocketId) (rooms : Rooms) : Rooms * list Emit :=
  let size := getRoomSize rooms DEFAULT_ROOM in
  if decide (2 ≤ size) then
    (rooms, socket_emit id room_full)
  else
    let rooms' := socket_join id DEFAULT_ROOM rooms in
    let newSize := getRoomSize rooms' DEFAULT_ROOM in
    let out := socket_emit id (joined DEFAULT_ROOM newSize) in
    if decide (newSize = 2) then
      (rooms', out ++ io_to_emit rooms' DEFAULT_ROOM ready ++ socket_emit id initiate)
    else
      (rooms', out).

(** [socket.on('signal:offer' | 'signal:answer' | 'signal:ice-candidate', ...)]:
    the three handlers have the same body. *)
Definition on_signal (id : SocketId) (k : SignalKind) (payload : Payload)
    (rooms : Rooms) : Rooms * list Emit :=
  (rooms, socket_to_emit id rooms DEFAULT_ROOM (relayed k payload)).

(** [socket.on('disconnect', ...)]: the socket has left its rooms by the
    time the handler runs. *)
Definition on_disconnect (id : SocketId) (rooms : Rooms) : Rooms * list Emit :=
  let rooms' := socket_leave id DEFAULT_ROOM rooms in
  (rooms', socket_to_emit id rooms' DEFAULT_ROOM peer_disconnected).

Definition handle (id : SocketId) (req : Request) (rooms : Rooms) : Rooms * list Emit :=
  match req with
  | join => on_join id rooms
  | signal k payload => on_signal id k payload rooms
  | disconnect => on_disconnect id rooms
  end.

(** The event loop: requests are handled one at a time, in arrival order. *)
Fixpoint run (reqs : list (SocketId * Request)) (rooms : Rooms) : Rooms * list Emit :=
  match reqs with
  | [] => (rooms, [])
  | (id, req) :: rest =>
      let '(rooms', out) := handle id req rooms in
      let '(rooms'', out') := run rest rooms' in
      (rooms'', out ++ out')
  end.

End Server.

(** ** The browser's [RTCPeerConnection]

    The client code drives the WebRTC API of the browser.  What the handlers
    below rely on is its signaling state machine (W3C WebRTC, section 4.4):
    which description is accepted in which state, and that a candidate is
    refused while no remote description is set.  Whether a given SDP text or
    candidate line parses, and the text of a generated offer or answer, are
    the browser's business and are left as parameters. *)

Class UserAgent := {
  sdp_parses : SessionDescription → bool;
  candidate_parses : string → bool;
  generate_sdp : SdpType → string
}.

Inductive DOMException :=
| InvalidStateError
| OperationError
| TypeError.

Module RTCPeerConnection.

Inductive SignalingState := stable | have_local_offer | have_remote_offer.

#[global] Instance SignalingState_eq_dec : EqDecision SignalingState.
Proof. solve_decision. Defined.

Record t := mk {
  signalingState : SignalingState;
  localDescription : option SessionDescription;
  remoteDescription : option SessionDescription;
  (** remote candidates handed to the ICE agent, oldest first *)
  remoteCandidates : list string
}.

(** [new RTCPeerConnection(config)]. *)
Definition create : t := mk stable None None [].

Section api.
Context `{UserAgent}.

Definition createOffer (pc : t) : DOMException + SessionDescription :=
  inr (mkDesc offer (generate_sdp offer)).

Definition createAnswer (pc : t) : DOMException + SessionDescription :=
  match signalingState pc with
  | have_remote_offer => inr (mkDesc answer (generate_sdp answer))
  | _ => inl InvalidStateError
  end.

Definition setLocalDescription (d : SessionDescription) (pc : t) : DOMException + t :=
  match sd_type d, signalingState pc with
  | offer, (stable | have_local_offer) =>
      inr (mk have_local_offer (Some d) (remoteDescription pc) (remoteCandidates pc))
  | answer, have_remote_offer =>
      inr (mk stable (Some d) (remoteDescription pc) (remoteCandidates pc))
  | _, _ => inl InvalidStateError
  end.

(** A remote offer met in [have_local_offer] rolls the local offer back
    before it is applied. *)
Definition setRemoteDescription (d : SessionDescription) (pc : t) : DOMException + t :=
  match sd_type d, signalingState pc with
  | offer, (stable | have_remote_offer) =>
      if sdp_parses d
      then inr (mk have_remote_offer (localDescription pc) (Some d) (remoteCandidates pc))
      else inl OperationError
  | offer, have_local_offer =>
      if sdp_parses d
      then inr (mk have_remote_offer None (Some d) (remoteCandidates pc))
      else inl OperationError
  | answer, have_local_offer =>
      if sdp_parses d
      then inr (mk stable (localDescription pc) (Some d) (remoteCandidates pc))
      else inl OperationError
  | answer, _ => inl InvalidStateError
  end.

Definition addIceCandidate (c : string) (pc : t) : DOMException + t :=
  match remoteDescription pc with
  | None => inl InvalidStateError
  | Some _ =>
      if candidate_parses c
      then inr (mk (signalingState pc) (localDescription pc) (remoteDescription pc)
                   (remoteCandidates pc ++ [c]))
      else inl OperationError
  end.
End api.

End RTCPeerConnection.

(** ** The browser client ([public/script.js]) *)

Module Client.

Import RTCPeerConnection.

Inductive Level := log | warn | error.

(** One console line: its level and its fixed message text. *)
Definition LogLine : Type := Level * string.

(** The module-level variables of [script.js] that negotiation touches,
    with the console and the events handed to [socket.emit]. *)
Record State := mkState {
  pc : option RTCPeerConnection.t;
  makingOffer : bool;
  ignoreOffer : bool;
  isSettingRemoteAnswerPending : bool;
  console : list LogLine;
  emitted : list (SignalKind * Payload)
}.

Definition initial : State := mkState None false false false [] [].

(** The role of a peer in a pairing: the server sends [initiate] to the
    socket whose join filled the room, and that peer makes the first
    offer.  The initiator is the impolite peer, the other one the polite
    peer.  [script.js] has no variable that records the role. *)
Inductive Role := initiator | responder.

Definition polite (r : Role) : bool :=
  match r with
  | responder => true
  | initiator => false
  end.

(** Statements of a handler: they update the state and either complete
    or throw.  An assignment made before a throw stays made. *)
Definition Js (A : Type) : Type := State → State * (DOMException + A).

#[global] Instance Js_ret : MRet Js := λ A a st, (st, inr a).
#[global] Instance Js_bind : MBind Js := λ A B f m st,
  match m st with
  | (st', inr a) => f a st'
  | (st', inl e) => (st', inl e)
  end.

Definition throw {A} (e : DOMException) : Js A := λ st, (st, inl e).

(** [try { body } catch (err) { handler }]. *)
Definition try_catch {A} (body : Js A) (handler : DOMException → Js A) : Js A :=
  λ st, match body st with
        | (st', inl e) => handler e st'
        | r => r
        end.

(** [try { body } finally { fin }]. *)
Definition try_finally {A} (body : Js A) (fin : Js unit) : Js A :=
  λ st, match body st with
        | (st', r) =>
            match fin st' with
            | (st'', inr _) => (st'', r)
            | (st'', inl e) => (st'', inl e)
            end
        end.

Definition console_write (l : Level) (msg : string) : Js unit :=
  λ st, (mkState (pc st) (makingOffer st) (ignoreOffer st)
           (isSettingRemoteAnswerPending st) (console st ++ [(l, msg)]) (emitted st), inr ()).

Definition socket_emit (k : SignalKind) (p : Payload) : Js unit :=
  λ st, (mkState (pc st) (makingOffer st) (ignoreOffer st)
           (isSettingRemoteAnswerPending st) (console st) (emitted st ++ [(k, p)]), inr ()).

Definition set_makingOffer (b : bool) : Js unit :=
  λ st, (mkState (pc st) b (ignoreOffer st)
           (isSettingRemoteAnswerPending st) (console st) (emitted st), inr ()).

Definition set_ignoreOffer (b : bool) : Js unit :=
  λ st, (mkState (pc st) (makingOffer st) b
           (isSettingRemoteAnswerPending st) (console st) (emitted st), inr ()).

Definition set_isSettingRemoteAnswerPending (b : bool) : Js unit :=
  λ st, (mkState (pc st) (makingOffer st) (ignoreOffer st) b (console st) (emitted st), inr ()).

Definition get {A} (f : State → A) : Js A := λ st, (st, inr (f st)).

(** [return;] and the empty branch of a conditional. *)
Definition skip : Js unit := mret ().

(** Dereferencing [pc]: a [TypeError] while it is still [undefined]. *)
Definition the_pc : Js RTCPeerConnection.t :=
  λ st, match pc st with
        | Some p => (st, inr p)
        | None => (st, inl TypeError)
        end.

(** A call [await pc.method(...)]: the connection object is updated in
    place when the call succeeds and left alone when it rejects. *)
Definition pc_update (op : RTCPeerConnection.t → DOMException + RTCPeerConnection.t) : Js unit :=
  λ st, match pc st with
        | None => (st, inl TypeError)
        | Some p =>
            match op p with
            | inl e => (st, inl e)
            | inr p' =>
                (mkState (Some p') (makingOffer st) (ignoreOffer st)
                   (isSettingRemoteAnswerPending st) (console st) (emitted st), inr ())
            end
        end.

Definition pc_query {A} (op : RTCPeerConnection.t → DOMException + A) : Js A :=
  λ st, match pc st with
        | None => (st, inl TypeError)
        | Some p => (st, op p)
        end.

(** An [async] handler run to completion: the state it leaves behind
    (a rejection of its promise is not observed by anybody). *)
Definition settle (body : Js unit) (st : State) : State := (body st).1.

Section handlers.
Context `{UserAgent}.

Definition offerCollision_of (st : State) (p : RTCPeerConnection.t) : bool :=
  makingOffer st || negb (bool_decide (signalingState p = stable)).

(** [socket.on('signal:offer', async (payload) => ...)]. *)
Definition on_signal_offer (payload : Payload) : Js unit :=
  console_write log "[client] received offer";;
  match sdp payload with
  | None => skip
  | Some offer_ =>
      try_catch
        (mo ← get makingOffer;
         (* [makingOffer || pc.signalingState !== 'stable']: [pc] is read
            only when the flag is down *)
         offerCollision ← (if (mo : bool) then mret true
                           else p ← the_pc;
                                mret (negb (bool_decide (signalingState p = stable))));
         set_ignoreOffer (if negb offerCollision then false else true);;
         (* the arguments of the log call read [pc.signalingState] *)
         the_pc;;
         console_write log "[client] handling offer";;
         ign ← get ignoreOffer;
         if (ign : bool) then skip
         else
           pc_update (setRemoteDescription offer_);;
           answer_ ← pc_query createAnswer;
           pc_update (setLocalDescription answer_);;
           p' ← the_pc;
           socket_emit Answer (mkPayload (localDescription p') None);;
           console_write log "[client] sent answer")
        (λ err, console_write error "Error handling remote offer")
  end.

(** [socket.on('signal:answer', async (payload) => ...)]. *)
Definition on_signal_answer (payload : Payload) : Js unit :=
  console_write log "[client] received answer";;
  match sdp payload with
  | None => skip
  | Some answer_ =>
      try_finally
        (try_catch
           (set_isSettingRemoteAnswerPending true;;
            pc_update (setRemoteDescription answer_);;
            console_write log "[client] applied remote answer")
           (λ err, console_write error "Error applying remote answer"))
        (set_isSettingRemoteAnswerPending false)
  end.

(** [socket.on('signal:ice-candidate', async ({ candidate }) => ...)]. *)
Definition on_signal_ice_candidate (payload : Payload) : Js unit :=
  console_write log "[client] received remote ice-candidate";;
  try_catch
    (match candidate payload with
     | None => skip
     | Some c =>
         p ← get pc;
         (if (p : option RTCPeerConnection.t) is Some _ then pc_update (addIceCandidate c) else skip);;
         console_write log "[client] added remote ice-candidate"
     end)
    (λ err, console_write error "Error adding remote ICE candidate").

(** [async function makeOffer()]. *)
Definition makeOffer : Js unit :=
  try_finally
    (set_makingOffer true;;
     console_write log "[client] creating offer";;
     offer_ ← pc_query createOffer;
     pc_update (setLocalDescription offer_);;
     p' ← the_pc;
     socket_emit Offer (mkPayload (localDescription p') None);;
     console_write log "[client] sent offer")
    (set_makingOffer false).

(** [socket.on('initiate', async () => ...)]. *)
Definition on_initiate : Js unit :=
  console_write log "[client] initiate received; making offer";;
  try_catch makeOffer (λ err, console_write error "Error creating offer").

(** Delivery of one relayed message to the client. *)
Definition deliver (k : SignalKind) (payload : Payload) (st : State) : State :=
  match k with
  | Offer => settle (on_signal_offer payload) st
  | Answer => settle (on_signal_answer payload) st
  | IceCandidate => settle (on_signal_ice_candidate payload) st
  end.
End handlers.

(** Outcomes of a handler.  The handler left the connection, the outgoing events and the
    offer-making flag as they were. *)
Definition untouched (st st' : State) : Prop :=
  pc st' = pc st ∧ emitted st' = emitted st ∧ makingOffer st' = makingOffer st.

(** The handler applied [d] as the remote description, answered, sent the
    answer and is back in [stable]. *)
Definition honored (d : SessionDescription) (st st' : State) : Prop :=
  ∃ p' : RTCPeerConnection.t,
    pc st' = Some p' ∧
    remoteDescription p' = Some d ∧
    signalingState p' = stable ∧
    (∃ a, localDescription p' = Some a ∧ sd_type a = answer) ∧
    emitted st' = emitted st ++ [(Answer, mkPayload (localDescription p') None)].

(** The rule of the specification for a remote offer: an impolite peer
    under collision discards it, in every other case it is accepted. *)
Definition offer_rule_of_spec (role : Role) (collision : bool)
    (d : SessionDescription) (st st' : State) : Prop :=
  if negb (polite role) && collision then untouched st st' else honored d st st'.

End Client.

(** A user agent for worked examples: it accepts any description and any
    candidate whose text is not empty. *)
Definition sample_agent : UserAgent := {|
  sdp_parses d := negb (String.eqb (sd_sdp d) "");
  candidate_parses c := negb (String.eqb c "");
  generate_sdp ty := match ty with offer => "v=0 o=local offer" | answer => "v=0 o=local answer" end
|}.

(** ** Audio buffers ([processAudio], the normalisation part) *)

Module Audio.

(** A Node [Buffer]: a sequence of bytes. *)
Definition Buffer : Type := list byte.

(** The shapes [data.buffer] can take on arrival.  Numbers are the
    integers that JSON carries. *)
Inductive WireBuffer :=
| NumericArray (samples : list Z)      (* [Array.isArray(data.buffer)] *)
| BufferJSON (data : list Z)           (* [{ type: 'Buffer', data: [...] }] *)
| RawBuffer (b : Buffer)               (* [Buffer.isBuffer(data.buffer)] *)
| ArrayBufferLike (b : Buffer)         (* any other value [Buffer.from] accepts *)
| Unsupported                          (* a truthy value [Buffer.from] rejects *)
| Absent.                              (* [undefined], [null], [0], [''] *)

Record AudioData := mkAudioData { buffer : WireBuffer; isFinal : bool }.

(** [ToInt16]: the conversion [Int16Array.from] applies to each number. *)
Definition ToInt16 (x : Z) : Z :=
  let m := (x mod 65536)%Z in
  if (32768 <=? m)%Z then (m - 65536)%Z else m.

(** [Int16Array.from(xs)]. *)
Definition Int16Array_from (xs : list Z) : list Z := map ToInt16 xs.

(** [typedArray.buffer] seen as bytes: each element takes two bytes, low
    byte first (the byte order of the hosts this code runs on). *)
Definition Int16Array_buffer (arr : list Z) : Buffer :=
  flat_map (λ v, [byte.of_Z (Z.land v 255); byte.of_Z (Z.land (Z.shiftr v 8) 255)]) arr.

(** [Buffer.from(array)]: every entry is truncated to a byte. *)
Definition Buffer_from_array (data : list Z) : Buffer :=
  map (λ x, byte.of_Z (Z.land x 255)) data.

(** [buffer.toJSON().data]. *)
Definition Buffer_toJSON_data (b : Buffer) : list Z := map byte.unsigned b.

Inductive Normalized :=
| Converted (audioBuffer : Buffer)
| Threw                                (* [Buffer.from] raised, caught below *)
| InvalidFormat.                       (* 'Invalid audio data format' *)

(** The [if / else if] chain at the head of [processAudio]. *)
Definition normalize (w : WireBuffer) : Normalized :=
  match w with
  | NumericArray samples => Converted (Int16Array_buffer (Int16Array_from samples))
  | BufferJSON data => Converted (Buffer_from_array data)
  | RawBuffer b => Converted b
  | ArrayBufferLike b => Converted b
  | Unsupported => Threw
  | Absent => InvalidFormat
  end.

(** LINEAR16, the encoding the recognizer is configured for: each sample
    is a signed 16-bit integer written as two bytes, least significant
    first, negative samples in two's complement. *)
Definition int16 (s : Z) : Prop := (-32768 ≤ s < 32768)%Z.

Definition linear16_sample (s : Z) : Buffer :=
  let u := if (s <? 0)%Z then (s + 65536)%Z else s in
  [byte.of_Z (u mod 256); byte.of_Z (u / 256)].

Definition linear16 (samples : list Z) : Buffer := flat_map linear16_sample samples.

End Audio.

(** ** The transcription session manager ([speech-to-text.js])

    [recognizeStreams] maps a socket id to a [streamInfo] object.  Objects
    are held by reference: the closures created by one call of
    [createRecognizeStream] keep the object that call allocated, whatever
    the map holds later.  The model therefore has a store of [streamInfo]
    objects, a store of stream objects and a store of timers, all addressed
    by index.  Console output and the never-read [lastRestart] stamp are
    left out. *)

Module SpeechToText.

Import Audio.

Abbreviation Ref := nat (only parsing).
Abbreviation StreamId := nat (only parsing).
Abbreviation TimerId := nat (only parsing).

(** A [streamInfo] object.  A property that is [null] or was never set
    is [None]. *)
Record StreamInfo := mkInfo {
  stream : option StreamId;
  socket : option string;
  restartTimer : option TimerId;
  languageCode : option string
}.

(** The object returned by [client.streamingRecognize(request)], with the
    variables its event handlers close over. *)
Record RecognizeStream := mkStream {
  rs_socketId : string;
  rs_languageCode : string;
  rs_streamInfo : Ref;
  destroyed : bool;
  writable : bool;
  written : list Buffer
}.

Inductive TimerState := pending | cleared | fired.

#[global] Instance TimerState_eq_dec : EqDecision TimerState.
Proof. solve_decision. Defined.

(** A [setTimeout] handle with what its callback closes over. *)
Record Timer := mkTimer {
  tm_socketId : string;
  tm_languageCode : string;
  tm_state : TimerState
}.

(** The first result of a provider response that has an alternative. *)
Record Result := mkResult {
  res_isFinal : bool;
  res_transcript : string;
  res_stability : Z;
  res_confidence : Z
}.

Record Service := mkService {
  recognizeStreams : gmap string Ref;
  infos : list StreamInfo;
  streams : list RecognizeStream;
  timers : list Timer;
  (** [socket.emit('transcript', ...)], oldest first *)
  transcripts : list (string * Result)
}.

Definition initial : Service := mkService ∅ [] [] [] [].

Definition blank : StreamInfo := mkInfo None None None None.

Definition deref (r : Ref) (sv : Service) : StreamInfo := default blank (infos sv !! r).

Definition with_map (f : gmap string Ref → gmap string Ref) (sv : Service) : Service :=
  mkService (f (recognizeStreams sv)) (infos sv) (streams sv) (timers sv) (transcripts sv).
Definition with_infos (f : list StreamInfo → list StreamInfo) (sv : Service) : Service :=
  mkService (recognizeStreams sv) (f (infos sv)) (streams sv) (timers sv) (transcripts sv).
Definition with_streams (f : list RecognizeStream → list RecognizeStream) (sv : Service) : Service :=
  mkService (recognizeStreams sv) (infos sv) (f (streams sv)) (timers sv) (transcripts sv).
Definition with_timers (f : list Timer → list Timer) (sv : Service) : Service :=
  mkService (recognizeStreams sv) (infos sv) (streams sv) (f (timers sv)) (transcripts sv).
Definition with_transcripts (f : list (string * Result) → list (string * Result))
    (sv : Service) : Service :=
  mkService (recognizeStreams sv) (infos sv) (streams sv) (timers sv) (f (transcripts sv)).

Definition set_stream (s : option StreamId) (i : StreamInfo) : StreamInfo :=
  mkInfo s (socket i) (restartTimer i) (languageCode i).
Definition set_socket (k : option string) (i : StreamInfo) : StreamInfo :=
  mkInfo (stream i) k (restartTimer i) (languageCode i).
Definition set_restartTimer (t : option TimerId) (i : StreamInfo) : StreamInfo :=
  mkInfo (stream i) (socket i) t (languageCode i).

(** [clearTimeout(t)]: a timer that has not fired yet never will. *)
Definition clear (tm : Timer) : Timer :=
  match tm_state tm with
  | pending => mkTimer (tm_socketId tm) (tm_languageCode tm) cleared
  | _ => tm
  end.

Definition clearTimeout (t : TimerId) (sv : Service) : Service :=
  with_timers (alter clear t) sv.

(** [stream.destroy()]. *)
Definition destroy (rs : RecognizeStream) : RecognizeStream :=
  mkStream (rs_socketId rs) (rs_languageCode rs) (rs_streamInfo rs) true false (written rs).

(** [stream.write(chunk)]. *)
Definition write (chunk : Buffer) (rs : RecognizeStream) : RecognizeStream :=
  mkStream (rs_socketId rs) (rs_languageCode rs) (rs_streamInfo rs)
    (destroyed rs) (writable rs) (written rs ++ [chunk]).

(** [stream.end()]. *)
Definition end_ (rs : RecognizeStream) : RecognizeStream :=
  mkStream (rs_socketId rs) (rs_languageCode rs) (rs_streamInfo rs)
    (destroyed rs) false (written rs).

(** [cleanup(socketId)]. *)
Definition cleanup (socketId : string) (sv : Service) : Service :=
  match recognizeStreams sv !! socketId with
  | None => sv
  | Some r =>
      let streamInfo := deref r sv in
      let sv1 :=
        match restartTimer streamInfo with
        | Some t => clearTimeout t sv
        | None => sv
        end in
      let sv2 :=
        match stream streamInfo with
        | Some s =>
            match streams sv1 !! s with
            | Some rs => if destroyed rs then sv1 else with_streams (alter destroy s) sv1
            | None => sv1
            end
        | None => sv1
        end in
      with_map (delete socketId) sv2
  end.

(** [createRecognizeStream(socketId, languageCode)]; the result is the
    new stream. *)
Definition createRecognizeStream (socketId : string) (languageCode : string)
    (sv : Service) : Service * StreamId :=
  let sv := cleanup socketId sv in
  (* const streamInfo = { stream: null, socket: null, restartTimer: null, ... } *)
  let streamInfo : Ref := length (infos sv) in
  let sv := with_infos (λ h, h ++ [mkInfo None None None (Some languageCode)]) sv in
  let sv := with_map (insert socketId streamInfo) sv in
  (* const recognizeStream = this.client.streamingRecognize(request) *)
  let recognizeStream : StreamId := length (streams sv) in
  let sv := with_streams
              (λ l, l ++ [mkStream socketId languageCode streamInfo false true []]) sv in
  (* streamInfo.stream = recognizeStream *)
  let sv := with_infos (alter (set_stream (Some recognizeStream)) streamInfo) sv in
  (* this.recognizeStreams.set(socketId, { stream: recognizeStream, socket: null }) *)
  let entry : Ref := length (infos sv) in
  let sv := with_infos (λ h, h ++ [mkInfo (Some recognizeStream) None None None]) sv in
  let sv := with_map (insert socketId entry) sv in
  (sv, recognizeStream).

(** [setupRestartTimer()], the closure of the call that allocated
    [streamInfo]. *)
Definition setupRestartTimer (streamInfo : Ref) (socketId languageCode : string)
    (sv : Service) : Service :=
  let sv :=
    match restartTimer (deref streamInfo sv) with
    | Some t => clearTimeout t sv
    | None => sv
    end in
  let t : TimerId := length (timers sv) in
  let sv := with_timers (λ l, l ++ [mkTimer socketId languageCode pending]) sv in
  with_infos (alter (set_restartTimer (Some t)) streamInfo) sv.

(** The ['data'] handler of a stream. *)
Definition on_data (rs : RecognizeStream) (data : option Result) (sv : Service) : Service :=
  let sv := setupRestartTimer (rs_streamInfo rs) (rs_socketId rs) (rs_languageCode rs) sv in
  match data with
  | None => sv
  | Some result =>
      match recognizeStreams sv !! rs_socketId rs with
      | Some r =>
          match socket (deref r sv) with
          | Some sock => with_transcripts (λ l, l ++ [(sock, result)]) sv
          | None => sv
          end
      | None => sv
      end
  end.

(** The ['error'] handler of a stream. *)
Definition on_error (rs : RecognizeStream) (sv : Service) : Service :=
  (createRecognizeStream (rs_socketId rs) (rs_languageCode rs) sv).1.

(** The callback of a restart timer. *)
Definition on_timeout (tm : Timer) (sv : Service) : Service :=
  (createRecognizeStream (tm_socketId tm) (tm_languageCode tm) sv).1.

(** [bindSocketToStream(socketId, socket)]; the sockets are named by
    their ids. *)
Definition bindSocketToStream (socketId : string) (sock : string) (sv : Service) : Service :=
  match recognizeStreams sv !! socketId with
  | Some r => with_infos (alter (set_socket (Some sock)) r) sv
  | None =>
      let sv := (createRecognizeStream socketId "en-US" sv).1 in
      match recognizeStreams sv !! socketId with
      | Some r => with_infos (alter (set_socket (Some sock)) r) sv
      | None => sv
      end
  end.

(** [processAudio(socketId, data)]. *)
Definition processAudio (socketId : string) (data : AudioData) (sv : Service) : Service :=
  match recognizeStreams sv !! socketId with
  | None => sv
  | Some r =>
      match stream (deref r sv) with
      | None => sv
      | Some s =>
          match streams sv !! s with
          | None => sv
          | Some rs =>
              if negb (writable rs) then sv
              else
                match normalize (buffer data) with
                | Threw => sv
                | InvalidFormat => sv
                | Converted audioBuffer =>
                    let sv :=
                      if decide (0 < length audioBuffer)
                      then with_streams (alter (write audioBuffer) s) sv
                      else sv in
                    if isFinal data
                    then with_streams (alter end_ s) sv
                    else sv
                end
          end
      end
  end.

(** What can happen to the service: the calls the server makes and the
    callbacks the runtime delivers. *)
Inductive Event :=
| Create (socketId languageCode : string)
| Bind (socketId sock : string)
| AudioIn (socketId : string) (data : AudioData)
| Cleanup (socketId : string)
| StreamData (s : StreamId) (data : option Result)
| StreamError (s : StreamId)
| TimerFires (t : TimerId).

(** A destroyed stream emits nothing; a timer fires once, and only
    while pending. *)
Definition step (ev : Event) (sv : Service) : Service :=
  match ev with
  | Create socketId languageCode => (createRecognizeStream socketId languageCode sv).1
  | Bind socketId sock => bindSocketToStream socketId sock sv
  | AudioIn socketId data => processAudio socketId data sv
  | Cleanup socketId => cleanup socketId sv
  | StreamData s data =>
      match streams sv !! s with
      | Some rs => if destroyed rs then sv else on_data rs data sv
      | None => sv
      end
  | StreamError s =>
      match streams sv !! s with
      | Some rs => if destroyed rs then sv else on_error rs sv
      | None => sv
      end
  | TimerFires t =>
      match timers sv !! t with
      | Some tm =>
          match tm_state tm with
          | pending =>
              on_timeout tm
                (with_timers (alter (λ tm, mkTimer (tm_socketId tm) (tm_languageCode tm) fired) t) sv)
          | _ => sv
          end
      | None => sv
      end
  end.

Definition run (evs : list Event) (sv : Service) : Service :=
  fold_left (λ sv ev, step ev sv) evs sv.

(** Stream [s] belongs to [socketId] and has not been destroyed. *)
Definition is_live (sv : Service) (socketId : string) (s : StreamId) : bool :=
  match streams sv !! s with
  | Some rs => bool_decide (rs_socketId rs = socketId) && negb (destroyed rs)
  | None => false
  end.

Definition live_handles (sv : Service) (socketId : string) : list StreamId :=
  filter (λ s, is_live sv socketId s = true) (seq 0 (length (streams sv))).

(** Timer [t] was armed for [socketId] and can still fire. *)
Definition is_pending (sv : Service) (socketId : string) (t : TimerId) : bool :=
  match timers sv !! t with
  | Some tm => bool_decide (tm_socketId tm = socketId) && bool_decide (tm_state tm = pending)
  | None => false
  end.

Definition pending_timers (sv : Service) (socketId : string) : list TimerId :=
  filter (λ t, is_pending sv socketId t = true) (seq 0 (length (timers sv))).


(** Every stream that has not been destroyed is the one the registry
    entry of its socket points to. *)
Definition tracked (sv : Service) : Prop :=
  ∀ (s : StreamId) (rs : RecognizeStream),
    streams sv !! s = Some rs → destroyed rs = false →
    ∃ r : Ref, recognizeStreams sv !! rs_socketId rs = Some r ∧
               stream (deref r sv) = Some s.

(** The objects the registry points to carry no timer handle, and no
    stream closes over one of them. *)
Definition registry_bare (sv : Service) : Prop :=
  (∀ (k : string) (r : Ref),
      recognizeStreams sv !! k = Some r →
      r < length (infos sv) ∧ restartTimer (deref r sv) = None) ∧
  (∀ (s : StreamId) (rs : RecognizeStream),
      streams sv !! s = Some rs →
      rs_streamInfo rs < length (infos sv) ∧
      ∀ k : string, recognizeStreams sv !! k ≠ Some (rs_streamInfo rs)).

End SpeechToText.

(** ** Further invariants of the session manager *)

Module SpeechToTextInv.
Import SpeechToText.

(** The stream a registry entry points to exists and was created for the
    socket the entry is filed under. *)
Definition entries_own (sv : Service) : Prop :=
  ∀ (k : string) (r : nat) (s : nat),
    recognizeStreams sv !! k = Some r → stream (deref r sv) = Some s →
    ∃ rs, streams sv !! s = Some rs ∧ rs_socketId rs = k.

(** The three invariants every reachable state of the service has. *)
Definition consistent (sv : Service) : Prop :=
  tracked sv ∧ registry_bare sv ∧ entries_own sv.

(** Stream object [rs'] is a later state of stream object [rs]: same
    closure, what was written is still there, and a stream that was
    destroyed or no longer writable has not changed at all. *)
Definition evolves (rs rs' : RecognizeStream) : Prop :=
  rs_socketId rs' = rs_socketId rs ∧
  rs_languageCode rs' = rs_languageCode rs ∧
  rs_streamInfo rs' = rs_streamInfo rs ∧
  written rs `prefix_of` written rs' ∧
  (destroyed rs = true → destroyed rs' = true) ∧
  (writable rs = false → writable rs' = false ∧ written rs' = written rs).

(** The results the provider delivers in the ['data'] events of a run,
    in order. *)
Definition results_of (evs : list Event) : list Result :=
  flat_map (λ ev, match ev with StreamData _ (Some result) => [result] | _ => [] end) evs.

End SpeechToTextInv.

(** ** Well-formed rooms *)

Module ServerInv.
Import Server.

(** The default room, when it exists, lists each member once and is not
    empty (socket.io deletes a room with its last member). *)
Definition room_wf (rooms : Rooms) : Prop :=
  ∀ room, rooms !! DEFAULT_ROOM = Some room → NoDup room ∧ room ≠ [].

(** No request of the list is a disconnect of socket [id]. *)
Definition stays (id : SocketId) (reqs : list (SocketId * Request)) : Prop :=
  ∀ req, (id, req) ∈ reqs → req ≠ disconnect.

End ServerInv.

(** ** The listeners as the socket calls them

    A listener gets whatever the other side sent as its argument, and
    the relay forwards it unexamined; it need not be an object.  The
    offer and answer listeners read [payload?.sdp], which is [undefined]
    on [null] and [undefined]; the candidate listener destructures its
    parameter, [async ({ candidate }) => ...], which throws on [null]
    and [undefined] before the body, and so before its [try], is
    entered. *)

Module Listener.
Import Client.

(** The argument of a listener: [null] or [undefined], or a value with
    the properties of a payload (a property it lacks is [None]; a number
    or a string has neither property). *)
Inductive Arg :=
| nullish
| object (payload : Payload).

Section listeners.
Context `{UserAgent}.

(** [payload?.sdp] and [payload?.candidate]. *)
Definition optional (arg : Arg) : Payload :=
  match arg with
  | nullish => mkPayload None None
  | object payload => payload
  end.

Definition signal_offer (arg : Arg) : Js unit := on_signal_offer (optional arg).

Definition signal_answer (arg : Arg) : Js unit := on_signal_answer (optional arg).

Definition signal_ice_candidate (arg : Arg) : Js unit :=
  match arg with
  | nullish => throw TypeError
  | object payload => on_signal_ice_candidate payload
  end.

End listeners.

End Listener.

(** ** Two browsers and the relay between them

    The remaining [socket.on] handlers of [script.js] (they log one line;
    the status text they also set is page markup and is not modelled), and
    the transport that carries events between the browsers and the
    server: what a browser hands to [socket.emit] reaches the server as a
    request, what the server emits reaches the browser it is addressed
    to, each in the order it was sent. *)

Module Session.
Import Server.

Section session.
Context `{UserAgent}.

(** The handler a browser runs for one event from the server. *)
Definition on_message (m : Message) : Client.Js unit :=
  match m with
  | joined _ _ => Client.console_write Client.log "[client] joined"
  | room_full => Client.console_write Client.warn "[client] room_full"
  | ready => Client.console_write Client.log "[client] ready"
  | initiate => Client.on_initiate
  | relayed Offer payload => Client.on_signal_offer payload
  | relayed Answer payload => Client.on_signal_answer payload
  | relayed IceCandidate payload => Client.on_signal_ice_candidate payload
  | peer_disconnected => Client.console_write Client.warn "[client] peer_disconnected"
  end.

(** The server and the browsers connected to it, by socket id. *)
Record System := mkSystem {
  rooms : Rooms;
  browsers : gmap string Client.State
}.

(** One event from the server is handled by the browser it is addressed
    to; what that browser emits while handling it becomes requests of its
    own socket.  An event for a socket with no browser is lost. *)
Definition deliver_one (e : Emit) (sys : System) : System * list (SocketId * Request) :=
  let '(r, m) := e in
  match browsers sys !! r with
  | None => (sys, [])
  | Some st =>
      let st' := Client.settle (on_message m) st in
      let sent := drop (length (Client.emitted st)) (Client.emitted st') in
      (mkSystem (rooms sys) (<[r := st']> (browsers sys)),
       map (λ kp, (r, signal kp.1 kp.2)) sent)
  end.

Fixpoint deliver_all (out : list Emit) (sys : System) : System * list (SocketId * Request) :=
  match out with
  | [] => (sys, [])
  | e :: rest =>
      let '(sys', reqs) := deliver_one e sys in
      let '(sys'', reqs') := deliver_all rest sys' in
      (sys'', reqs ++ reqs')
  end.

(** The requests in flight are served first come, first served, until
    none is left or the fuel is spent; the result holds the requests
    still in flight. *)
Fixpoint pump (fuel : nat) (queue : list (SocketId * Request)) (sys : System)
    : System * list (SocketId * Request) :=
  match fuel, queue with
  | 0, _ => (sys, queue)
  | _, [] => (sys, [])
  | S fuel', (id, req) :: rest =>
      let '(rooms', out) := handle id req (rooms sys) in
      let '(sys', reqs) := deliver_all out (mkSystem rooms' (browsers sys)) in
      pump fuel' (rest ++ reqs) sys'
  end.

End session.

(** [initSocket]: the page emits [join] when it sets the socket up and
    again in its [connect] handler. *)
Definition page_load (id : SocketId) : list (SocketId * Request) :=
  [(id, join); (id, join)].

(** A page that has created its peer connection and nothing else. *)
Definition fresh_page : Client.State :=
  Client.mkState (Some RTCPeerConnection.create) false false false [] [].

(** Two pages ["a"] and ["b"] paired through offer [off] of ["b"] and
    answer [ans] of ["a"], and a third page ["c"] that has not joined. *)
Definition mkState_of_pair (off ans : SessionDescription) : System :=
  mkSystem (<[DEFAULT_ROOM := ["a"; "b"]]> ∅)
    (<["a" := Client.mkState
                (Some (RTCPeerConnection.mk RTCPeerConnection.stable (Some ans) (Some off) []))
                false false false [] []]>
       (<["b" := Client.mkState
                  (Some (RTCPeerConnection.mk RTCPeerConnection.stable (Some off) (Some ans) []))
                  false false false [] []]>
          (<["c" := fresh_page]> ∅))).

End Session.

(** ** The server with transcription ([server.js] of chat-vid)

    The connection handler ties the registry and the session manager
    together: a session is created and bound when a socket connects, fed
    by its [audioData] events and torn down when it disconnects.

    Left out: the keepalive interval, which sends [ping] to the socket
    every 30 s while it is connected, and the listeners that only log.
    The messages [step] returns are therefore the signalling messages
    only, and nothing below is a statement about everything the server
    sends. *)

Module App.
Import Server Audio SpeechToText.

Record State := mkApp { rooms : Rooms; stt : Service }.

Definition initial : State := mkApp ∅ SpeechToText.initial.

(** What the recognition provider and the timers deliver. *)
Inductive Callback :=
| data (s : nat) (result : option Result)
| error (s : nat)
| timeout (t : nat).

Inductive Event :=
| connection (id : SocketId)
| request (id : SocketId) (req : Request)
| audioData (id : SocketId) (chunk : AudioData)
| callback (c : Callback).

(** The calls into the session manager an event amounts to.  A
    disconnect runs [cleanup] twice: once from the listener
    [bindSocketToStream] registered, once from the server's own. *)
Definition service_events (ev : Event) : list SpeechToText.Event :=
  match ev with
  | connection id => [Create id "en-US"; Bind id id]
  | request id disconnect => [Cleanup id; Cleanup id]
  | request _ _ => []
  | audioData id chunk => [AudioIn id chunk]
  | callback (data s result) => [StreamData s result]
  | callback (error s) => [StreamError s]
  | callback (timeout t) => [TimerFires t]
  end.

Definition step (ev : Event) (st : State) : State * list Emit :=
  match ev with
  | connection id =>
      (mkApp (rooms st)
         (bindSocketToStream id id (createRecognizeStream id "en-US" (stt st)).1), [])
  | request id disconnect =>
      let sv := cleanup id (cleanup id (stt st)) in
      let '(rooms', out) := on_disconnect id (rooms st) in
      (mkApp rooms' sv, out)
  | request id req =>
      let '(rooms', out) := handle id req (rooms st) in
      (mkApp rooms' (stt st), out)
  | audioData id chunk => (mkApp (rooms st) (processAudio id chunk (stt st)), [])
  | callback (data s result) => (mkApp (rooms st) (SpeechToText.step (StreamData s result) (stt st)), [])
  | callback (error s) => (mkApp (rooms st) (SpeechToText.step (StreamError s) (stt st)), [])
  | callback (timeout t) => (mkApp (rooms st) (SpeechToText.step (TimerFires t) (stt st)), [])
  end.

Fixpoint run (evs : list Event) (st : State) : State * list Emit :=
  match evs with
  | [] => (st, [])
  | ev :: rest =>
      let '(st', out) := step ev st in
      let '(st'', out') := run rest st' in
      (st'', out ++ out')
  end.

(** Every socket an entry is bound to is the socket the entry is filed
    under. *)
Definition bound_to_self (sv : Service) : Prop :=
  ∀ (k : string) (r : nat) (sock : string),
    recognizeStreams sv !! k = Some r → socket (deref r sv) = Some sock → sock = k.

(** No two sockets share a registry entry. *)
Definition one_entry_per_object (sv : Service) : Prop :=
  ∀ (k1 k2 : string) (r : nat),
    recognizeStreams sv !! k1 = Some r → recognizeStreams sv !! k2 = Some r → k1 = k2.

Definition wired (sv : Service) : Prop := one_entry_per_object sv ∧ bound_to_self sv.

(** The server binds a session to the socket it is filed under. *)
Definition self_bound (ev : SpeechToText.Event) : Prop :=
  match ev with
  | Bind k sock => sock = k
  | _ => True
  end.

(** The entry of socket [id], if there is one, has no socket to send to. *)
Definition unbound (id : string) (sv : Service) : Prop :=
  ∀ r : nat, recognizeStreams sv !! id = Some r → socket (deref r sv) = None.

(** The transcripts addressed to socket [id]. *)
Definition transcripts_for (id : string) (sv : Service) : list Result :=
  map snd (filter (λ x, x.1 = id) (transcripts sv)).

End App.

(** ** Sign predictions on the hearing page ([hearing.js]) *)

Module Hearing.

Record Prediction := mkPrediction { text : string; time : Z }.

(** The list kept by the page, the contents of the [aslPredictionsList]
    element ([None] when the page has no such element) and the texts
    handed to [window.avatar.setText] ([None] when there is no avatar). *)
Record State := mkState {
  aslPredictions : list Prediction;
  listEl : option (list string);
  avatar : option (list string)
}.

(** [array.slice(-n)]. *)
Definition slice_last {A} (n : nat) (l : list A) : list A := drop (length l - n) l.

(** [updateASLDisplay()]: one paragraph for each of the last eight. *)
Definition updateASLDisplay (st : State) : State :=
  match listEl st with
  | None => st
  | Some _ =>
      mkState (aslPredictions st) (Some (map text (slice_last 8 (aslPredictions st))))
        (avatar st)
  end.

(** [window.handleASLPrediction(prediction)] at time [currentTime]
    ([Date.now()]); a falsy prediction is the empty string. *)
Definition handleASLPrediction (prediction : string) (currentTime : Z) (st : State) : State :=
  if decide (prediction = "") then st
  else
    let duplicate :=
      match last (aslPredictions st) with
      | Some lastPrediction =>
          bool_decide (currentTime - time lastPrediction < 1000)%Z
          && bool_decide (text lastPrediction = prediction)
      | None => false
      end in
    if duplicate then st
    else
      let pushed := aslPredictions st ++ [mkPrediction prediction currentTime] in
      let kept := if decide (15 < length pushed) then tail pushed else pushed in
      let st := updateASLDisplay (mkState kept (listEl st) (avatar st)) in
      match avatar st with
      | None => st
      | Some calls =>
          mkState (aslPredictions st) (listEl st)
            (Some (calls ++ [String.concat " " (map text (aslPredictions st))]))
      end.

Definition run (inputs : list (string * Z)) (st : State) : State :=
  fold_left (λ st i, handleASLPrediction i.1 i.2 st) inputs st.

(** No two neighbours of the list carry the same text less than a second
    apart. *)
Definition spaced (l : list Prediction) : Prop :=
  ∀ (i : nat) (a b : Prediction),
    l !! i = Some a → l !! S i = Some b →
    ¬ (text a = text b ∧ (time b - time a < 1000)%Z).

End Hearing.

(** ** Sign recognition on the deaf page ([deaf.js]) *)

Module Deaf.

Record Entry := mkEntry { prediction : string; time : Z }.

(** The variables of the page, the text of the [aslPrediction] element,
    the paragraphs of the [aslHistory] element (each [None] when the page
    lacks it) and the predictions sent to the server. *)
Record State := mkState {
  lastASLPrediction : string;
  aslHistory : list Entry;
  predictionEl : option string;
  historyEl : option (list string);
  emitted : list string
}.

Definition initial : State := mkState "" [] None None [].

Definition ASL_DEBOUNCE : Z := 800.

(** [updateASLHistory()]: the last five, newest first. *)
Definition updateASLHistory (st : State) : State :=
  match historyEl st with
  | None => st
  | Some _ =>
      mkState (lastASLPrediction st) (aslHistory st) (predictionEl st)
        (Some (map prediction (rev (Hearing.slice_last 5 (aslHistory st))))) (emitted st)
  end.

(** [handleASLPrediction(prediction)] at time [currentTime]; [connected]
    tells whether [window.socket] exists and is connected. *)
Definition handleASLPrediction (p : string) (currentTime : Z) (connected : bool)
    (st : State) : State :=
  if decide (p = "" ∨ p = lastASLPrediction st) then st
  else
    let tooSoon :=
      match last (aslHistory st) with
      | Some e => bool_decide (currentTime - time e < ASL_DEBOUNCE)%Z
      | None => false
      end in
    if tooSoon then st
    else
      let shown := match predictionEl st with Some _ => Some p | None => None end in
      let pushed := aslHistory st ++ [mkEntry p currentTime] in
      let kept := if decide (20 < length pushed) then tail pushed else pushed in
      let st := updateASLHistory (mkState p kept shown (historyEl st) (emitted st)) in
      if connected
      then mkState (lastASLPrediction st) (aslHistory st) (predictionEl st) (historyEl st)
             (emitted st ++ [p])
      else st.

Definition run (inputs : list (string * Z * bool)) (st : State) : State :=
  fold_left (λ st i, handleASLPrediction i.1.1 i.1.2 i.2 st) inputs st.

(** Neighbours of the history differ in sign and are at least the
    debounce time apart, and the last entry is the sign last accepted. *)
Definition tidy (st : State) : Prop :=
  (∀ (i : nat) (a b : Entry),
      aslHistory st !! i = Some a → aslHistory st !! S i = Some b →
      prediction a ≠ prediction b ∧ (ASL_DEBOUNCE ≤ time b - time a)%Z) ∧
  (∀ e, last (aslHistory st) = Some e → prediction e = lastASLPrediction st) ∧
  (∀ e, e ∈ aslHistory st → prediction e ≠ "").

Section classifier.
(** The landmark coordinates are JavaScript numbers.  The rule table
    only compares them; the comparison, and the two tests on the spread of
    the first 42 features, are parameters. *)
Context {num : Type}.
Variable lt : num → num → bool.
Variable spread_below_tenth : list num → bool.    (* [spread < 0.1] *)
Variable spread_above_three_tenths : list num → bool.    (* [spread > 0.3] *)

(** [features[i] < features[j]]: false when either is [undefined]. *)
Definition lt_at (features : list num) (i j : nat) : bool :=
  match features !! i, features !! j with
  | Some a, Some b => lt a b
  | _, _ => false
  end.

Definition fingerTips : list nat := [4; 8; 12; 16; 20].
Definition fingerBases : list nat := [2; 5; 9; 13; 17].

(** [fingers[i]]: tip left of base. *)
Definition finger (features : list num) (i : nat) : bool :=
  match fingerTips !! i, fingerBases !! i with
  | Some tip, Some base => lt_at features (tip * 2) (base * 2)
  | _, _ => false
  end.

(** [getHeuristicPrediction(features)]. *)
Definition getHeuristicPrediction (features : list num) : option string :=
  let thumb := finger features 0 in
  let index := finger features 1 in
  let middle := finger features 2 in
  let ring := finger features 3 in
  let pinky := finger features 4 in
  if negb index && negb middle && negb ring && negb pinky && thumb then Some "A"
  else if index && middle && negb ring && negb pinky && negb thumb then Some "V"
  else if index && negb middle && negb ring && negb pinky && negb thumb then Some "I"
  else if index && middle && ring && negb pinky && negb thumb then Some "Y"
  else if negb index && negb middle && negb ring && negb pinky && negb thumb then Some "O"
  else if index && middle && ring && pinky && negb thumb then Some "B"
  else if index && middle && ring && pinky && thumb then Some "E"
  else if negb index && middle && ring && pinky && negb thumb then Some "3"
  else if negb thumb && index && negb middle && negb ring && negb pinky then Some "L"
  else if negb thumb && index && negb middle && negb ring && pinky then Some "Y"
  else if negb index && negb middle && negb ring && pinky then Some "F"
  else if spread_below_tenth (take 42 features) then Some "O"
  else if spread_above_three_tenths (take 42 features) && thumb then Some "K"
  else None.

End classifier.

End Deaf.

(** ** ICE configuration ([buildIceServers] of [server.js]) *)

Module IceConfig.
Import Stdlib.Strings.Ascii.

(** An entry of the list; a property the object lacks is [None]. *)
Record IceServer := mkIceServer {
  urls : string;
  username : option string;
  credential : option string
}.

(** [s.split(',')]. *)
Fixpoint split_comma (s : string) : list string :=
  match s with
  | EmptyString => [EmptyString]
  | String c rest =>
      if Ascii.eqb c ","%char then EmptyString :: split_comma rest
      else
        match split_comma rest with
        | [] => [String c EmptyString]
        | w :: ws => String c w :: ws
        end
  end.

Section build.
(** [String.prototype.trim]. *)
Variable trim : string → string.

(** [buildIceServers()]; the arguments are the three environment
    variables, [None] when unset. *)
Definition buildIceServers (TURN_URLS TURN_USERNAME TURN_CREDENTIAL : option string)
    : list IceServer :=
  let servers := [mkIceServer "stun:stun.l.google.com:19302" None None] in
  let turnUrls := default "" TURN_URLS in
  let turnUsername := default "" TURN_USERNAME in
  let turnCredential := default "" TURN_CREDENTIAL in
  if bool_decide (turnUrls ≠ "") && bool_decide (turnUsername ≠ "")
     && bool_decide (turnCredential ≠ "")
  then
    servers ++
      map (λ u, mkIceServer u (Some turnUsername) (Some turnCredential))
        (filter (λ u, u ≠ "") (map trim (split_comma turnUrls)))
  else servers.

End build.

End IceConfig.

(** ** Captions ([updateTranscript] of [script.js]) *)

Module Captions.

(** A captions element: its text and the [style.display] of the closest
    [.captions-container] ([None] when it has none). *)
Record Element := mkElement { textContent : string; container : option string }.

(** The two elements ([None] when the page lacks one), the time of the
    last update, the pending timer of [window.transcriptTimeout] with the
    side its callback closes over ([true] for the local element), and the
    captions sent on the data channel. *)
Record State := mkState {
  localCaptions : option Element;
  remoteCaptions : option Element;
  lastTranscriptUpdate : Z;
  transcriptTimeout : option bool;
  sent : list (string * bool)
}.

Definition TRANSCRIPT_TIMEOUT : Z := 3000.

Definition captionsEl (isLocal : bool) (st : State) : option Element :=
  if isLocal then localCaptions st else remoteCaptions st.

Definition set_captionsEl (isLocal : bool) (el : Element) (st : State) : State :=
  if isLocal
  then mkState (Some el) (remoteCaptions st) (lastTranscriptUpdate st)
         (transcriptTimeout st) (sent st)
  else mkState (localCaptions st) (Some el) (lastTranscriptUpdate st)
         (transcriptTimeout st) (sent st).

Definition show (transcript : string) (el : Element) : Element :=
  mkElement transcript (match container el with Some _ => Some "block" | None => None end).

Definition hide (el : Element) : Element :=
  mkElement "" (match container el with Some _ => Some "none" | None => None end).

(** [updateTranscript(transcript, isFinal, isLocal)] at time [now];
    [channelOpen] tells whether the data channel exists and is open. *)
Definition updateTranscript (transcript : string) (isFinal isLocal : bool) (now : Z)
    (channelOpen : bool) (st : State) : State :=
  match captionsEl isLocal st with
  | None => st
  | Some el =>
      let st := set_captionsEl isLocal (show transcript el) st in
      let sent' :=
        if isLocal && channelOpen then sent st ++ [(transcript, isFinal)] else sent st in
      (* clearTimeout(window.transcriptTimeout); window.transcriptTimeout = setTimeout(...) *)
      mkState (localCaptions st) (remoteCaptions st) now (Some isLocal) sent'
  end.

(** The timer callback, run at time [now]. *)
Definition on_timeout (now : Z) (st : State) : State :=
  match transcriptTimeout st with
  | None => st
  | Some isLocal =>
      let st := mkState (localCaptions st) (remoteCaptions st) (lastTranscriptUpdate st)
                  None (sent st) in
      if bool_decide (TRANSCRIPT_TIMEOUT ≤ now - lastTranscriptUpdate st)%Z
      then
        match captionsEl isLocal st with
        | Some el => set_captionsEl isLocal (hide el) st
        | None => st
        end
      else st
  end.

Inductive Event :=
| Update (transcript : string) (isFinal isLocal : bool) (now : Z) (channelOpen : bool)
| Timeout (now : Z).

Definition step (ev : Event) (st : State) : State :=
  match ev with
  | Update transcript isFinal isLocal now channelOpen =>
      updateTranscript transcript isFinal isLocal now channelOpen st
  | Timeout now => on_timeout now st
  end.

Definition run (evs : list Event) (st : State) : State :=
  fold_left (λ st ev, step ev st) evs st.

(** No event of the list is an update of side [isLocal]. *)
Definition no_update_of (isLocal : bool) (evs : list Event) : Prop :=
  ∀ transcript isFinal now channelOpen,
    Update transcript isFinal isLocal now channelOpen ∉ evs.

End Captions.

(** * Properties *)

(** ** Session registry and relay *)

Section server_properties.
Import Server.

Lemma getRoomSize_members rooms name :
  getRoomSize rooms name = length (members rooms name).
Proof. unfold getRoomSize, members. by destruct (rooms !! name). Qed.

Lemma members_insert rooms name room :
  members (<[name := room]> rooms) name = room.
Proof. unfold members. by rewrite lookup_insert_eq. Qed.

Lemma set_add_length id room :
  length (set_add id room) ≤ S (length room).
Proof.
  unfold set_add. case_decide; [lia |]. rewrite length_app. simpl. lia.
Qed.

Lemma socket_leave_size id rooms :
  getRoomSize (socket_leave id DEFAULT_ROOM rooms) DEFAULT_ROOM
  ≤ getRoomSize rooms DEFAULT_ROOM.
Proof.
  unfold socket_leave, getRoomSize.
  destruct (rooms !! DEFAULT_ROOM) as [room|] eqn:Hroom; [| by rewrite Hroom].
  pose proof (length_filter (λ x, x ≠ id) room) as Hlen.
  destruct (filter (λ x, x ≠ id) room) as [|y room'] eqn:Hf.
  - rewrite lookup_delete_eq. lia.
  - rewrite lookup_insert_eq. exact Hlen.
Qed.

Lemma handle_capacity id req rooms :
  getRoomSize rooms DEFAULT_ROOM ≤ 2 →
  getRoomSize (handle id req rooms).1 DEFAULT_ROOM ≤ 2.
Proof.
  intros Hle. destruct req as [|k p|]; simpl.
  - unfold on_join. case_decide as Hfull; [exact Hle |].
    assert (getRoomSize (socket_join id DEFAULT_ROOM rooms) DEFAULT_ROOM ≤ 2) as Hnew.
    { unfold socket_join. rewrite getRoomSize_members, members_insert.
      pose proof (set_add_length id (members rooms DEFAULT_ROOM)) as Hadd.
      rewrite <- getRoomSize_members in Hadd. lia. }
    by case_decide.
  - exact Hle.
  - pose proof (socket_leave_size id rooms). lia.
Qed.

Lemma run_capacity reqs rooms :
  getRoomSize rooms DEFAULT_ROOM ≤ 2 →
  getRoomSize (run reqs rooms).1 DEFAULT_ROOM ≤ 2.
Proof.
  revert rooms. induction reqs as [|[id req] rest IH]; intros rooms Hle; [exact Hle |].
  simpl. pose proof (handle_capacity id req rooms Hle) as Hstep.
  destruct (handle id req rooms) as [rooms' out]. simpl in Hstep.
  specialize (IH rooms' Hstep).
  by destruct (run rest rooms') as [rooms'' out'].
Qed.

(** C4. Whatever requests the server has handled, the default room holds
    at most two sockets; and a join that finds two members or more is
    answered with [room_full] alone and leaves the rooms as they were. *)
Theorem room_never_exceeds_two :
  (∀ reqs : list (SocketId * Request),
      getRoomSize (run reqs ∅).1 DEFAULT_ROOM ≤ 2) ∧
  (∀ (rooms : Rooms) (id : SocketId),
      2 ≤ getRoomSize rooms DEFAULT_ROOM →
      handle id join rooms = (rooms, [(id, room_full)])).
Proof.
  split.
  - intros reqs. apply run_capacity. unfold getRoomSize. rewrite lookup_empty. lia.
  - intros rooms id Hfull. simpl. unfold on_join. by case_decide.
Qed.

Lemma room_never_exceeds_two_witness :
  let rooms := (run [("a", join); ("b", join)] ∅).1 in
  getRoomSize rooms DEFAULT_ROOM = 2 ∧
  handle "c" join rooms = (rooms, [("c", room_full)]).
Proof.
  split; [reflexivity |].
  apply (proj2 room_never_exceeds_two). vm_compute. lia.
Defined.

(** C5. The join that takes the room from one member to two is answered
    with [joined], then [ready] to both members, then [initiate] to the
    joiner; the joiner is the only socket that gets [initiate] (once).
    No request of any kind makes the server send [initiate] to anybody
    but the socket whose join has just filled the room. *)
Theorem initiate_goes_to_second_joiner :
  (∀ (rooms : Rooms) (first id : SocketId),
      rooms !! DEFAULT_ROOM = Some [first] → id ≠ first →
      handle id join rooms =
        (<[DEFAULT_ROOM := [first; id]]> rooms,
         [(id, joined DEFAULT_ROOM 2); (first, ready); (id, ready); (id, initiate)])) ∧
  (∀ (rooms : Rooms) (id : SocketId) (req : Request) (r : SocketId),
      In (r, initiate) (handle id req rooms).2 →
      req = join ∧ r = id ∧
      getRoomSize rooms DEFAULT_ROOM = 1 ∧
      getRoomSize (handle id req rooms).1 DEFAULT_ROOM = 2).
Proof.
  split.
  - intros rooms first id Hroom Hne. simpl. unfold on_join, socket_join.
    assert (members rooms DEFAULT_ROOM = [first]) as Hmem
      by (unfold members; by rewrite Hroom).
    unfold io_to_emit.
    rewrite !getRoomSize_members, !members_insert, !Hmem.
    assert (set_add id [first] = [first; id]) as ->.
    { unfold set_add. case_decide as Hin; [| done].
      apply list_elem_of_singleton in Hin. contradiction. }
    reflexivity.
  - intros rooms id req r Hin. destruct req as [|k p|]; simpl in Hin.
    + simpl. unfold on_join in *. case_decide as Hfull.
      { simpl in Hin. destruct Hin as [Heq | []]. discriminate. }
      case_decide as Hnew; simpl in Hin.
      * destruct Hin as [Heq | Hin]; [discriminate |].
        apply in_app_iff in Hin as [Hin | Hin].
        { unfold io_to_emit in Hin. apply in_map_iff in Hin as (x & Heq & _).
          discriminate. }
        destruct Hin as [Heq | []]. inversion Heq; subst r.
        repeat split; [| exact Hnew].
        unfold socket_join in Hnew.
        rewrite getRoomSize_members, members_insert in Hnew.
        pose proof (set_add_length id (members rooms DEFAULT_ROOM)) as Hadd.
        rewrite <- getRoomSize_members in Hadd. lia.
      * destruct Hin as [Heq | []]. discriminate.
    + unfold socket_to_emit in Hin. apply in_map_iff in Hin as (x & Heq & _).
      discriminate.
    + unfold socket_to_emit in Hin. apply in_map_iff in Hin as (x & Heq & _).
      discriminate.
Qed.

Lemma initiate_goes_to_second_joiner_witness :
  handle "b" join (<[DEFAULT_ROOM := ["a"]]> ∅) =
    (<[DEFAULT_ROOM := ["a"; "b"]]> (<[DEFAULT_ROOM := ["a"]]> ∅),
     [("b", joined DEFAULT_ROOM 2); ("a", ready); ("b", ready); ("b", initiate)]).
Proof.
  apply (proj1 initiate_goes_to_second_joiner); [reflexivity | discriminate].
Defined.

(** C10. A join from a socket that already sits in the full room is
    counted like any other: it gets [room_full] and nothing changes.  A
    second join from the only member of the room gets [joined] with one
    peer again; membership is unchanged and neither [ready] nor
    [initiate] is sent. *)
Theorem repeated_join :
  ∀ (rooms : Rooms) (id : SocketId),
    (getRoomSize rooms DEFAULT_ROOM = 2 → id ∈ members rooms DEFAULT_ROOM →
     handle id join rooms = (rooms, [(id, room_full)])) ∧
    (members rooms DEFAULT_ROOM = [id] →
     handle id join rooms = (rooms, [(id, joined DEFAULT_ROOM 1)])).
Proof.
  intros rooms id. split.
  - intros Hsize _. simpl. unfold on_join. rewrite decide_True by lia. done.
  - intros Hmem. simpl. unfold on_join, socket_join.
    rewrite !getRoomSize_members, members_insert, Hmem. simpl.
    assert (set_add id [id] = [id]) as ->.
    { unfold set_add. case_decide as Hin; [done |].
      exfalso. apply Hin, list_elem_of_singleton. done. }
    simpl.
    f_equal. apply insert_id.
    unfold members in Hmem. by destruct (rooms !! DEFAULT_ROOM); simplify_eq/=.
Qed.

Lemma repeated_join_witness :
  handle "b" join (<[DEFAULT_ROOM := ["a"; "b"]]> ∅)
    = (<[DEFAULT_ROOM := ["a"; "b"]]> ∅, [("b", room_full)]) ∧
  handle "a" join (<[DEFAULT_ROOM := ["a"]]> ∅)
    = (<[DEFAULT_ROOM := ["a"]]> ∅, [("a", joined DEFAULT_ROOM 1)]).
Proof.
  split.
  - apply (proj1 (repeated_join (<[DEFAULT_ROOM := ["a"; "b"]]> ∅) "b"));
      [reflexivity | vm_compute; set_solver].
  - apply (proj2 (repeated_join (<[DEFAULT_ROOM := ["a"]]> ∅) "a")). reflexivity.
Defined.
End server_properties.

(** ** Negotiation on the client *)

Section client_properties.
Import RTCPeerConnection Client.
Context `{UserAgent}.

Lemma offer_under_collision st p d cand :
  pc st = Some p → offerCollision_of st p = true →
  settle (on_signal_offer (mkPayload (Some d) cand)) st =
    mkState (pc st) (makingOffer st) true (isSettingRemoteAnswerPending st)
      (console st ++ [(log, "[client] received offer"); (log, "[client] handling offer")])
      (emitted st).
Proof.
  intros Hpc Hcol. unfold offerCollision_of in Hcol.
  unfold settle, on_signal_offer. cbn -[bool_decide].
  unfold try_catch, mbind, Js_bind, the_pc, console_write, get. cbn -[bool_decide].
  destruct (makingOffer st) eqn:Hmo; cbn -[bool_decide] in *.
  - rewrite Hpc. cbn. by rewrite <- app_assoc.
  - rewrite Hpc. cbn -[bool_decide]. rewrite Hcol. cbn. by rewrite <- app_assoc.
Qed.

Lemma offer_without_collision st p d cand :
  pc st = Some p → offerCollision_of st p = false → sd_type d = offer →
  settle (on_signal_offer (mkPayload (Some d) cand)) st =
    if sdp_parses d then
      let a := mkDesc answer (generate_sdp answer) in
      mkState (Some (mk stable (Some a) (Some d) (remoteCandidates p)))
        (makingOffer st) false (isSettingRemoteAnswerPending st)
        (console st ++ [(log, "[client] received offer"); (log, "[client] handling offer");
                        (log, "[client] sent answer")])
        (emitted st ++ [(Answer, mkPayload (Some a) None)])
    else
      mkState (pc st) (makingOffer st) false (isSettingRemoteAnswerPending st)
        (console st ++ [(log, "[client] received offer"); (log, "[client] handling offer");
                        (error, "Error handling remote offer")])
        (emitted st).
Proof.
  intros Hpc Hcol Hty. unfold offerCollision_of in Hcol.
  apply orb_false_iff in Hcol as [Hmo Hst].
  apply negb_false_iff in Hst. pose proof Hst as Hstable.
  apply bool_decide_eq_true in Hstable.
  unfold settle, on_signal_offer. cbn -[bool_decide].
  unfold try_catch, mbind, Js_bind, the_pc, console_write, get, pc_update, pc_query.
  cbn -[bool_decide]. rewrite Hmo. cbn -[bool_decide]. rewrite Hpc. cbn -[bool_decide].
  rewrite Hst. cbn.
  unfold setRemoteDescription. rewrite Hty, Hstable.
  destruct (sdp_parses d); cbn; by rewrite <- !app_assoc.
Qed.

(** C1, as the code has it.  For a well-formed remote offer and
    [collision = makingOffer || signalingState != stable]: under collision
    the offer is discarded whatever the role of the receiving peer (the
    connection, the flag and the outgoing events stay as they were, only
    [ignoreOffer] is raised); without collision, and when the browser
    accepts the description, it is applied as the remote description, an
    answer is made, set and sent, and the peer is back in [stable]. *)
Theorem remote_offer_handling (role : Role) (st : State) (p : RTCPeerConnection.t)
    (d : SessionDescription) (cand : option string) :
  pc st = Some p → sd_type d = offer →
  let st' := settle (on_signal_offer (mkPayload (Some d) cand)) st in
  (offerCollision_of st p = true → untouched st st' ∧ ignoreOffer st' = true) ∧
  (offerCollision_of st p = false → sdp_parses d = true →
   honored d st st' ∧ ignoreOffer st' = false).
Proof.
  intros Hpc Hty st'. split.
  - intros Hcol. subst st'. rewrite (offer_under_collision st p d cand Hpc Hcol).
    by repeat split.
  - intros Hcol Hok. subst st'.
    rewrite (offer_without_collision st p d cand Hpc Hcol Hty), Hok.
    split; [| done].
    eexists. cbn. repeat split; eauto.
Qed.

(** C7. An answer that arrives while the connection is not in
    [have_local_offer] (or while there is no connection yet) is not
    applied: the handler catches the rejection, writes one error line to
    the console and leaves the connection, the flags and the outgoing
    events as they were. *)
Theorem unsolicited_answer_is_ignored (st : State) (d : SessionDescription)
    (cand : option string) :
  sd_type d = answer →
  (∀ p, pc st = Some p → signalingState p ≠ have_local_offer) →
  settle (on_signal_answer (mkPayload (Some d) cand)) st =
    mkState (pc st) (makingOffer st) (ignoreOffer st) false
      (console st ++ [(log, "[client] received answer");
                      (error, "Error applying remote answer")])
      (emitted st).
Proof.
  intros Hty Hstate.
  unfold settle, on_signal_answer. cbn.
  unfold try_finally, try_catch, mbind, Js_bind, console_write, pc_update,
    set_isSettingRemoteAnswerPending. cbn.
  destruct (pc st) as [p|] eqn:Hpc; cbn.
  - unfold setRemoteDescription. rewrite Hty.
    specialize (Hstate p eq_refl).
    destruct (signalingState p); [| contradiction |]; cbn; by rewrite <- app_assoc.
  - by rewrite <- app_assoc.
Qed.

Lemma ice_candidate_result st p c sd :
  pc st = Some p →
  settle (on_signal_ice_candidate (mkPayload sd (Some c))) st =
    match addIceCandidate c p with
    | inr p' =>
        mkState (Some p') (makingOffer st) (ignoreOffer st) (isSettingRemoteAnswerPending st)
          (console st ++ [(log, "[client] received remote ice-candidate");
                          (log, "[client] added remote ice-candidate")])
          (emitted st)
    | inl _ =>
        mkState (pc st) (makingOffer st) (ignoreOffer st) (isSettingRemoteAnswerPending st)
          (console st ++ [(log, "[client] received remote ice-candidate");
                          (error, "Error adding remote ICE candidate")])
          (emitted st)
    end.
Proof.
  intros Hpc. unfold settle, on_signal_ice_candidate. cbn.
  unfold try_catch, mbind, Js_bind, console_write, get, pc_update. cbn.
  rewrite Hpc. cbn. destruct (addIceCandidate c p); cbn; by rewrite <- app_assoc.
Qed.

(** C6, as the code has it.  A candidate is handed to [addIceCandidate]
    the moment it arrives; the client keeps no buffer.  While the
    connection has no remote description the call is refused, the handler
    catches the error and logs it, and the candidate is dropped: nothing
    but the console changes.  Once a remote description is set, a
    candidate that parses is appended behind those applied before. *)
Theorem ice_candidate_handling (st : State) (p : RTCPeerConnection.t)
    (c : string) (sd : option SessionDescription) :
  pc st = Some p →
  let st' := settle (on_signal_ice_candidate (mkPayload sd (Some c))) st in
  (remoteDescription p = None →
   st' = mkState (pc st) (makingOffer st) (ignoreOffer st) (isSettingRemoteAnswerPending st)
           (console st ++ [(log, "[client] received remote ice-candidate");
                           (error, "Error adding remote ICE candidate")])
           (emitted st)) ∧
  (is_Some (remoteDescription p) → candidate_parses c = true →
   pc st' = Some (mk (signalingState p) (localDescription p) (remoteDescription p)
                     (remoteCandidates p ++ [c])) ∧
   emitted st' = emitted st).
Proof.
  intros Hpc st'. subst st'. rewrite (ice_candidate_result st p c sd Hpc).
  unfold addIceCandidate. split.
  - intros ->. done.
  - intros [rd ->] ->. done.
Qed.

Lemma malformed_dropped_by_client k payload st :
  required_field k payload = false → untouched st (deliver k payload st).
Proof.
  intros Hreq. destruct k; cbn in Hreq;
    apply bool_decide_eq_false in Hreq;
    unfold deliver, settle, on_signal_offer, on_signal_answer, on_signal_ice_candidate.
  - destruct (sdp payload); [exfalso; eauto |]. by cbn.
  - destruct (sdp payload); [exfalso; eauto |]. by cbn.
  - destruct (candidate payload); [exfalso; eauto |]. by cbn.
Qed.
End client_properties.

Section worked_examples.
Import RTCPeerConnection Client.

(** C1 fails as stated: a polite peer whose own offer is outstanding
    drops the remote offer, where the rule of the specification has it
    accepted. *)
Lemma polite_peer_discards_colliding_offer :
  let p := mk have_local_offer (Some (mkDesc offer "v=0 o=local offer")) None [] in
  let st := mkState (Some p) false false false [] [] in
  let d := mkDesc offer "v=0 o=remote offer" in
  let st' := settle (@on_signal_offer sample_agent (mkPayload (Some d) None)) st in
  polite responder = true ∧
  offerCollision_of st p = true ∧
  @sdp_parses sample_agent d = true ∧
  untouched st st' ∧
  ¬ offer_rule_of_spec responder (offerCollision_of st p) d st st'.
Proof.
  cbv zeta. repeat split.
  intros Hrule. vm_compute in Hrule.
  destruct Hrule as (p' & Hpc & Hrd & _). inversion Hpc; subst p'. discriminate.
Qed.

Lemma remote_offer_handling_witness :
  let d := mkDesc offer "v=0 o=remote offer" in
  let calm := mkState (Some create) false false false [] [] in
  let busy := mkState (Some create) true false false [] [] in
  honored d calm (settle (@on_signal_offer sample_agent (mkPayload (Some d) None)) calm) ∧
  untouched busy (settle (@on_signal_offer sample_agent (mkPayload (Some d) None)) busy).
Proof.
  cbv zeta. split.
  - apply (proj2 (@remote_offer_handling sample_agent initiator
                    (mkState (Some create) false false false [] []) create
                    (mkDesc offer "v=0 o=remote offer") None eq_refl eq_refl));
      reflexivity.
  - apply (proj1 (@remote_offer_handling sample_agent responder
                    (mkState (Some create) true false false [] []) create
                    (mkDesc offer "v=0 o=remote offer") None eq_refl eq_refl)).
    reflexivity.
Defined.

Lemma unsolicited_answer_is_ignored_witness :
  let st := mkState (Some create) false false false [] [] in
  let d := mkDesc answer "v=0 o=remote answer" in
  settle (@on_signal_answer sample_agent (mkPayload (Some d) None)) st =
    mkState (Some create) false false false
      [(log, "[client] received answer"); (error, "Error applying remote answer")] [].
Proof.
  cbv zeta.
  apply (@unsolicited_answer_is_ignored sample_agent
           (mkState (Some create) false false false [] [])
           (mkDesc answer "v=0 o=remote answer") None).
  - reflexivity.
  - intros p Hp. inversion Hp; subst p. simpl. discriminate.
Defined.

(** C6 fails as stated: a candidate that arrives before the remote
    description is refused and forgotten; when the offer is applied
    afterwards nothing is flushed, the connection has no remote candidate. *)
Lemma early_candidate_is_never_applied :
  let st0 := mkState (Some create) false false false [] [] in
  let st1 := @deliver sample_agent IceCandidate
               (mkPayload None (Some "candidate:1 1 udp 1 192.0.2.1 9 typ host")) st0 in
  let d := mkDesc offer "v=0 o=remote offer" in
  let st2 := @deliver sample_agent Offer (mkPayload (Some d) None) st1 in
  pc st1 = pc st0 ∧
  pc st2 = Some (mk stable (Some (mkDesc answer "v=0 o=local answer")) (Some d) []).
Proof. cbv zeta. split; reflexivity. Qed.

Lemma ice_candidate_handling_witness :
  let rd := mkDesc offer "v=0 o=remote offer" in
  let p := mk have_remote_offer None (Some rd) ["candidate:1"] in
  let st := mkState (Some p) false false false [] [] in
  let st' := settle (@on_signal_ice_candidate sample_agent
                       (mkPayload None (Some "candidate:2"))) st in
  pc st' = Some (mk have_remote_offer None (Some rd) ["candidate:1"; "candidate:2"]) ∧
  emitted st' = [].
Proof.
  cbv zeta.
  apply (proj2 (@ice_candidate_handling sample_agent
                  (mkState (Some (mk have_remote_offer None
                                    (Some (mkDesc offer "v=0 o=remote offer"))
                                    ["candidate:1"])) false false false [] [])
                  (mk have_remote_offer None (Some (mkDesc offer "v=0 o=remote offer"))
                     ["candidate:1"])
                  "candidate:2" None eq_refl)).
  - simpl. eauto.
  - reflexivity.
Defined.
End worked_examples.

(** ** The relay end to end *)

Section relay_properties.
Import Server.

(** C8 fails as stated: an offer without [sdp] sent by one member of the
    room is forwarded to the other member. *)
Lemma relay_forwards_malformed_offer :
  let rooms : Rooms := <[DEFAULT_ROOM := ["a"; "b"]]> ∅ in
  let payload := mkPayload None None in
  required_field Offer payload = false ∧
  handle "a" (signal Offer payload) rooms = (rooms, [("b", relayed Offer payload)]).
Proof. cbv zeta. split; reflexivity. Qed.

(** C8, as the code has it.  The relay looks at no field: a message of
    any of the three kinds, well-formed or not, leaves the rooms as they
    are and is delivered, payload unchanged, to exactly the members of the
    default room other than the sender.  A message that lacks its field
    is dropped by the client that receives it, which leaves its
    connection alone and sends nothing. *)
Theorem relay_forwards_verbatim :
  (∀ (rooms : Rooms) (id : SocketId) (k : SignalKind) (payload : Payload),
      (handle id (signal k payload) rooms).1 = rooms ∧
      ∀ (r : SocketId) (m : Message),
        In (r, m) (handle id (signal k payload) rooms).2 ↔
        r ∈ members rooms DEFAULT_ROOM ∧ r ≠ id ∧ m = relayed k payload) ∧
  (∀ (ua : UserAgent) (k : SignalKind) (payload : Payload) (st : Client.State),
      required_field k payload = false →
      Client.untouched st (Client.deliver k payload st)).
Proof.
  split.
  - intros rooms id k payload. split; [reflexivity |].
    intros r m. simpl. unfold socket_to_emit. rewrite in_map_iff. split.
    + intros (x & Heq & Hin). inversion Heq; subst.
      apply list_elem_of_In, list_elem_of_filter in Hin as [Hne Hin]. done.
    + intros (Hin & Hne & ->). exists r. split; [done |].
      apply list_elem_of_In, list_elem_of_filter. done.
  - intros ua k payload st. apply malformed_dropped_by_client.
Qed.

Lemma relay_forwards_verbatim_witness :
  Client.untouched Client.initial
    (@Client.deliver sample_agent Answer (mkPayload None (Some "candidate:1")) Client.initial).
Proof.
  apply (proj2 relay_forwards_verbatim sample_agent Answer). reflexivity.
Defined.
End relay_properties.

(** ** Audio normalisation *)

Section audio_properties.
Import Audio.

Lemma byte_of_Z_congr (x y : Z) :
  (x mod 256 = y mod 256)%Z → byte.of_Z x = byte.of_Z y.
Proof.
  intros Hxy.
  rewrite <- (byte.of_Z_unsigned (byte.of_Z x)), <- (byte.of_Z_unsigned (byte.of_Z y)).
  rewrite !byte.unsigned_of_Z. unfold byte.wrap.
  change (2 ^ 8)%Z with 256%Z. by rewrite Hxy.
Qed.

Lemma land_255 (x : Z) : Z.land x 255 = (x mod 256)%Z.
Proof. change 255%Z with (Z.ones 8). by rewrite Z.land_ones. Qed.

Lemma ToInt16_int16 (s : Z) : int16 s → ToInt16 s = s.
Proof.
  unfold int16, ToInt16. intros Hs.
  destruct (Z.ltb_spec s 0) as [Hneg | Hpos].
  - assert (s mod 65536 = s + 65536)%Z as ->.
    { symmetry. apply (Z.mod_unique_pos s 65536 (-1) (s + 65536)); lia. }
    destruct (Z.leb_spec 32768 (s + 65536)); lia.
  - rewrite Z.mod_small by lia.
    destruct (Z.leb_spec 32768 s); lia.
Qed.

Lemma int16_bytes (s : Z) :
  int16 s → Int16Array_buffer [ToInt16 s] = linear16_sample s.
Proof.
  intros Hs. rewrite (ToInt16_int16 s Hs).
  unfold Int16Array_buffer, linear16_sample. simpl.
  rewrite !land_255, Z.shiftr_div_pow2 by lia. change (2 ^ 8)%Z with 256%Z.
  unfold int16 in Hs.
  destruct (Z.ltb_spec s 0) as [Hneg | Hpos].
  - replace (s + 65536)%Z with (s + 256 * 256)%Z by lia.
    f_equal; [| f_equal]; apply byte_of_Z_congr; rewrite !Z.mod_mod by lia.
    + rewrite Z.mod_add by lia. reflexivity.
    + rewrite Z.div_add by lia.
      replace (s / 256 + 256)%Z with (s / 256 + 1 * 256)%Z by lia.
      rewrite Z.mod_add by lia. reflexivity.
  - do 2 f_equal. apply byte_of_Z_congr. rewrite Z.mod_mod by lia. reflexivity.
Qed.

Lemma numeric_array_is_linear16 (samples : list Z) :
  Forall int16 samples →
  Int16Array_buffer (Int16Array_from samples) = linear16 samples.
Proof.
  induction 1 as [|s rest Hs _ IH]; [reflexivity |].
  change (linear16 (s :: rest)) with (linear16_sample s ++ linear16 rest).
  rewrite <- IH, <- (int16_bytes s Hs). reflexivity.
Qed.

Lemma Buffer_JSON_roundtrip (b : Buffer) :
  Buffer_from_array (Buffer_toJSON_data b) = b.
Proof.
  unfold Buffer_from_array, Buffer_toJSON_data. rewrite map_map.
  induction b as [|x b IH]; [reflexivity |]. simpl. rewrite IH. f_equal.
  rewrite land_255.
  pose proof (byte.unsigned_range x) as Hr.
  rewrite Z.mod_small by lia. apply byte.of_Z_unsigned.
Qed.
End audio_properties.

(** ** Transcription sessions *)

Section session_properties.
Import Audio SpeechToText.

Lemma deref_in_range r sv s : stream (deref r sv) = Some s → r < length (infos sv).
Proof.
  unfold deref. intros Hs.
  destruct (infos sv !! r) as [i|] eqn:Hi; [| simpl in Hs; discriminate].
  by apply lookup_lt_Some in Hi.
Qed.

Lemma stream_alter_info (f : StreamInfo → StreamInfo) (l : list StreamInfo) (i r : nat) :
  (∀ x, stream (f x) = stream x) →
  stream (default blank (alter f i l !! r)) = stream (default blank (l !! r)).
Proof.
  intros Hf. destruct (decide (i = r)) as [-> | Hne].
  - rewrite list_lookup_alter_eq. destruct (l !! r); simpl; [apply Hf | done].
  - by rewrite list_lookup_alter_ne.
Qed.

Lemma tracked_streams_alter (f : RecognizeStream → RecognizeStream) s sv :
  (∀ rs, rs_socketId (f rs) = rs_socketId rs) →
  (∀ rs, destroyed (f rs) = false → destroyed rs = false) →
  tracked sv → tracked (with_streams (alter f s) sv).
Proof.
  intros Hid Hd Htr s' rs' Hlook Hlive. simpl in Hlook.
  destruct (decide (s = s')) as [-> | Hne].
  - rewrite list_lookup_alter_eq in Hlook.
    destruct (streams sv !! s') as [rs|] eqn:Hold; simplify_eq/=.
    rewrite Hid. apply (Htr s' rs Hold). by apply Hd.
  - rewrite list_lookup_alter_ne in Hlook by done. by apply Htr.
Qed.

Lemma tracked_infos_alter (f : StreamInfo → StreamInfo) r sv :
  (∀ x, stream (f x) = stream x) →
  tracked sv → tracked (with_infos (alter f r) sv).
Proof.
  intros Hf Htr s rs Hlook Hlive.
  destruct (Htr s rs Hlook Hlive) as (r' & Hmap & Hs).
  exists r'. split; [exact Hmap |].
  unfold deref in *. simpl. by rewrite stream_alter_info.
Qed.

Lemma tracked_timers f sv : tracked sv → tracked (with_timers f sv).
Proof. intros Htr s rs Hlook Hlive. apply (Htr s rs Hlook Hlive). Qed.

Lemma tracked_transcripts f sv : tracked sv → tracked (with_transcripts f sv).
Proof. intros Htr s rs Hlook Hlive. apply (Htr s rs Hlook Hlive). Qed.

Lemma cleanup_tracked socketId sv :
  tracked sv →
  tracked (cleanup socketId sv) ∧ recognizeStreams (cleanup socketId sv) !! socketId = None.
Proof.
  intros Htr. unfold cleanup.
  destruct (recognizeStreams sv !! socketId) as [r|] eqn:Hmap; [| by split].
  set (sv1 := match restartTimer (deref r sv) with
              | Some t => clearTimeout t sv
              | None => sv
              end).
  assert (Hsv1 : streams sv1 = streams sv ∧ infos sv1 = infos sv ∧
                 recognizeStreams sv1 = recognizeStreams sv).
  { subst sv1. by destruct (restartTimer (deref r sv)). }
  destruct Hsv1 as (Hst1 & Hin1 & Hmap1).
  set (sv2 := match stream (deref r sv) with
              | Some s =>
                  match streams sv1 !! s with
                  | Some rs => if destroyed rs then sv1 else with_streams (alter destroy s) sv1
                  | None => sv1
                  end
              | None => sv1
              end).
  assert (Hsv2 : infos sv2 = infos sv ∧ recognizeStreams sv2 = recognizeStreams sv).
  { subst sv2. destruct (stream (deref r sv)) as [s|]; [| done].
    destruct (streams sv1 !! s) as [rs|]; [| done]. by destruct (destroyed rs). }
  destruct Hsv2 as (Hin2 & Hmap2).
  assert (Hlive2 : ∀ s rs, streams sv2 !! s = Some rs → destroyed rs = false →
                           streams sv !! s = Some rs ∧ stream (deref r sv) ≠ Some s).
  { intros s rs Hlook Hlive. subst sv2.
    destruct (stream (deref r sv)) as [s0|] eqn:Hs0;
      [| rewrite Hst1 in Hlook; done].
    destruct (streams sv1 !! s0) as [rs0|] eqn:Hrs0.
    - destruct (destroyed rs0) eqn:Hd0.
      + rewrite Hst1 in Hlook. split; [done |].
        intros Heq. inversion Heq; subst s0. rewrite Hst1 in Hrs0. congruence.
      + simpl in Hlook. destruct (decide (s0 = s)) as [-> | Hne].
        * rewrite list_lookup_alter_eq, Hrs0 in Hlook. simpl in Hlook.
          inversion Hlook; subst rs. discriminate.
        * rewrite list_lookup_alter_ne, Hst1 in Hlook by done. split; congruence.
    - rewrite Hst1 in Hlook. split; [done |].
      intros Heq. inversion Heq; subst s0. rewrite Hst1 in Hrs0. congruence. }
  split; [| simpl; apply lookup_delete_eq].
  intros s rs Hlook Hlive. simpl in Hlook.
  destruct (Hlive2 s rs Hlook Hlive) as [Hold Hnot].
  destruct (Htr s rs Hold Hlive) as (r' & Hmap' & Hs').
  exists r'. simpl. rewrite Hmap2. split.
  - rewrite lookup_delete_ne; [done |].
    intros Heq. rewrite <- Heq, Hmap in Hmap'. congruence.
  - unfold deref in *. simpl. by rewrite Hin2.
Qed.

Lemma createRecognizeStream_tracked socketId languageCode sv :
  tracked sv → tracked (createRecognizeStream socketId languageCode sv).1.
Proof.
  intros Htr. destruct (cleanup_tracked socketId sv Htr) as [Htr0 Hnone].
  unfold createRecognizeStream.
  set (sv0 := cleanup socketId sv) in *.
  intros s rs Hlook Hlive. simpl in Hlook. simpl.
  rewrite length_alter, length_app. simpl.
  apply lookup_snoc_Some in Hlook as [[Hlt Hold] | [Hs Hrs]].
  - destruct (Htr0 s rs Hold Hlive) as (r & Hmap & Hstream).
    assert (rs_socketId rs ≠ socketId) as Hne by congruence.
    exists r. rewrite !lookup_insert_ne by done. split; [done |].
    pose proof (deref_in_range r sv0 s Hstream) as Hr.
    unfold deref in *. simpl.
    rewrite lookup_app_l by (rewrite length_alter, length_app; simpl; lia).
    rewrite list_lookup_alter_ne by lia.
    by rewrite lookup_app_l by lia.
  - subst s rs. simpl. exists (length (infos sv0) + 1).
    rewrite lookup_insert_eq. split; [done |].
    unfold deref. simpl.
    rewrite lookup_app_r by (rewrite length_alter, length_app; simpl; lia).
    rewrite length_alter, length_app. simpl.
    by rewrite Nat.sub_diag.
Qed.

Lemma setupRestartTimer_tracked r socketId languageCode sv :
  tracked sv → tracked (setupRestartTimer r socketId languageCode sv).
Proof.
  intros Htr. unfold setupRestartTimer.
  apply tracked_infos_alter; [done |]. apply tracked_timers.
  destruct (restartTimer (deref r sv)); [by apply tracked_timers | done].
Qed.

Lemma step_tracked ev sv : tracked sv → tracked (step ev sv).
Proof.
  intros Htr. destruct ev as [k l | k sock | k data | k | s data | s | t]; simpl.
  - by apply createRecognizeStream_tracked.
  - unfold bindSocketToStream.
    destruct (recognizeStreams sv !! k) as [r|].
    + by apply tracked_infos_alter.
    + pose proof (createRecognizeStream_tracked k "en-US" sv Htr) as Htr'.
      destruct (recognizeStreams (createRecognizeStream k "en-US" sv).1 !! k);
        [by apply tracked_infos_alter | done].
  - unfold processAudio.
    destruct (recognizeStreams sv !! k) as [r|]; [| done].
    destruct (stream (deref r sv)) as [s|]; [| done].
    destruct (streams sv !! s) as [rs|]; [| done].
    destruct (negb (writable rs)); [done |].
    destruct (normalize (buffer data)) as [audioBuffer| |]; [| done | done].
    assert (tracked (if decide (0 < length audioBuffer)
                     then with_streams (alter (write audioBuffer) s) sv else sv)) as Htr'.
    { case_decide; [| done]. by apply tracked_streams_alter. }
    destruct (isFinal data); [| done]. by apply tracked_streams_alter.
  - by apply cleanup_tracked.
  - destruct (streams sv !! s) as [rs|]; [| done].
    destruct (destroyed rs); [done |].
    unfold on_data.
    pose proof (setupRestartTimer_tracked (rs_streamInfo rs) (rs_socketId rs)
                  (rs_languageCode rs) sv Htr) as Htr'.
    destruct data as [result|]; [| done].
    destruct (recognizeStreams _ !! rs_socketId rs) as [r|]; [| done].
    destruct (socket _); [by apply tracked_transcripts | done].
  - destruct (streams sv !! s) as [rs|]; [| done].
    destruct (destroyed rs); [done |].
    by apply createRecognizeStream_tracked.
  - destruct (timers sv !! t) as [tm|]; [| done].
    destruct (tm_state tm); [| done | done].
    apply createRecognizeStream_tracked. by apply tracked_timers.
Qed.

Lemma run_tracked evs sv : tracked sv → tracked (run evs sv).
Proof.
  revert sv. induction evs as [|ev evs IH]; intros sv Htr; [done |].
  simpl. apply IH. by apply step_tracked.
Qed.

Lemma initial_tracked : tracked initial.
Proof. intros s rs Hlook. simpl in Hlook. by rewrite lookup_nil in Hlook. Qed.

Lemma short_list (l : list nat) :
  NoDup l → (∀ x y, x ∈ l → y ∈ l → x = y) → length l ≤ 1.
Proof.
  intros Hnd Heq. destruct l as [|x [|y l]]; simpl; [lia | lia |].
  exfalso. apply NoDup_cons in Hnd as [Hnotin _].
  apply Hnotin. rewrite (Heq x y); set_solver.
Qed.

Lemma is_live_spec sv socketId s :
  is_live sv socketId s = true ↔
  ∃ rs, streams sv !! s = Some rs ∧ rs_socketId rs = socketId ∧ destroyed rs = false.
Proof.
  unfold is_live. destruct (streams sv !! s) as [rs|]; split.
  - intros Hb. apply andb_true_iff in Hb as [Hk Hd].
    apply bool_decide_eq_true in Hk. apply negb_true_iff in Hd. eauto.
  - intros (rs' & Heq & Hk & Hd). inversion Heq; subst rs'.
    apply andb_true_iff. split; [by apply bool_decide_eq_true | by apply negb_true_iff].
  - discriminate.
  - intros (rs' & Heq & _). discriminate.
Qed.

(** At most one stream of a socket is live, in every state the service
    can reach: whatever calls and callbacks have been interleaved. *)
Lemma at_most_one_live_handle (evs : list Event) (socketId : string) :
  length (live_handles (run evs initial) socketId) ≤ 1.
Proof.
  pose proof (run_tracked evs initial initial_tracked) as Htr.
  apply short_list.
  - apply NoDup_filter, NoDup_seq.
  - intros x y Hx Hy. unfold live_handles in *.
    apply list_elem_of_filter in Hx as [Hx _], Hy as [Hy _].
    apply is_live_spec in Hx as (rx & Hlx & Hkx & Hdx).
    apply is_live_spec in Hy as (ry & Hly & Hky & Hdy).
    destruct (Htr x rx Hlx Hdx) as (r1 & Hm1 & Hs1).
    destruct (Htr y ry Hly Hdy) as (r2 & Hm2 & Hs2).
    rewrite Hkx in Hm1. rewrite Hky in Hm2. congruence.
Qed.
Lemma cleanup_shape socketId sv :
  infos (cleanup socketId sv) = infos sv ∧
  recognizeStreams (cleanup socketId sv) = delete socketId (recognizeStreams sv) ∧
  (∀ s rs', streams (cleanup socketId sv) !! s = Some rs' →
            ∃ rs, streams sv !! s = Some rs ∧ rs_streamInfo rs' = rs_streamInfo rs).
Proof.
  unfold cleanup.
  destruct (recognizeStreams sv !! socketId) as [r|] eqn:Hmap.
  - set (sv1 := match restartTimer (deref r sv) with
                | Some t => clearTimeout t sv
                | None => sv
                end).
    assert (Hsv1 : streams sv1 = streams sv ∧ infos sv1 = infos sv ∧
                   recognizeStreams sv1 = recognizeStreams sv).
    { subst sv1. by destruct (restartTimer (deref r sv)). }
    destruct Hsv1 as (Hst1 & Hin1 & Hmap1).
    destruct (stream (deref r sv)) as [s0|]; simpl; [| by rewrite Hst1, Hin1, Hmap1; eauto].
    destruct (streams sv1 !! s0) as [rs0|] eqn:Hrs0; [| by rewrite Hst1, Hin1, Hmap1; eauto].
    destruct (destroyed rs0); [by rewrite Hst1, Hin1, Hmap1; eauto |].
    simpl. rewrite Hin1, Hmap1. repeat split.
    intros s rs' Hlook. destruct (decide (s0 = s)) as [-> | Hne].
    + rewrite list_lookup_alter_eq, Hrs0 in Hlook. simplify_eq/=.
      rewrite Hst1 in Hrs0. eauto.
    + rewrite list_lookup_alter_ne, Hst1 in Hlook by done. eauto.
  - repeat split; [| by eauto].
    symmetry. by apply delete_id.
Qed.

Lemma cleanup_keeps_timers socketId sv :
  registry_bare sv → timers (cleanup socketId sv) = timers sv.
Proof.
  intros [Hentries _]. unfold cleanup.
  destruct (recognizeStreams sv !! socketId) as [r|] eqn:Hmap; [| done].
  destruct (Hentries socketId r Hmap) as [_ ->].
  destruct (stream (deref r sv)) as [s|]; [| done].
  destruct (streams sv !! s) as [rs|]; [| done].
  by destruct (destroyed rs).
Qed.

Lemma cleanup_bare socketId sv : registry_bare sv → registry_bare (cleanup socketId sv).
Proof.
  intros [Hentries Hstreams].
  destruct (cleanup_shape socketId sv) as (Hin & Hmap & Hst).
  split.
  - intros k r Hk. rewrite Hmap in Hk.
    apply lookup_delete_Some in Hk as [_ Hk].
    unfold deref. rewrite Hin. by apply (Hentries k).
  - intros s rs' Hlook. destruct (Hst s rs' Hlook) as (rs & Hold & ->).
    destruct (Hstreams s rs Hold) as [Hlt Hfree].
    rewrite Hin. split; [done |].
    intros k Hk. rewrite Hmap in Hk.
    apply lookup_delete_Some in Hk as [_ Hk]. by apply (Hfree k).
Qed.

Lemma createRecognizeStream_keeps_timers socketId languageCode sv :
  registry_bare sv →
  timers (createRecognizeStream socketId languageCode sv).1 = timers sv.
Proof. intros Hbare. simpl. by apply cleanup_keeps_timers. Qed.

Lemma createRecognizeStream_bare socketId languageCode sv :
  registry_bare sv → registry_bare (createRecognizeStream socketId languageCode sv).1.
Proof.
  intros Hbare. apply (cleanup_bare socketId) in Hbare as [Hentries Hstreams].
  unfold createRecognizeStream.
  set (sv0 := cleanup socketId sv) in *. simpl.
  split; simpl; rewrite ?length_app, ?length_alter, ?length_app; simpl.
  - intros k r Hk. unfold deref. simpl.
    destruct (decide (k = socketId)) as [-> | Hne].
    + rewrite lookup_insert_eq in Hk. simplify_eq.
      split; [lia |].
      rewrite lookup_app_r by (rewrite length_alter, length_app; simpl; lia).
      rewrite length_alter, length_app. simpl. by rewrite Nat.sub_diag.
    + rewrite !lookup_insert_ne in Hk by done.
      destruct (Hentries k r Hk) as [Hlt Hnone]. split; [lia |].
      rewrite lookup_app_l by (rewrite length_alter, length_app; simpl; lia).
      rewrite list_lookup_alter_ne by lia.
      by rewrite lookup_app_l by lia.
  - intros s rs Hlook.
    apply lookup_snoc_Some in Hlook as [[Hlt Hold] | [Hs Hrs]].
    + destruct (Hstreams s rs Hold) as [Hr Hfree]. split; [lia |].
      intros k Hk. destruct (decide (k = socketId)) as [-> | Hne].
      * rewrite lookup_insert_eq in Hk. inversion Hk as [Heq]. lia.
      * rewrite !lookup_insert_ne in Hk by done. by apply (Hfree k).
    + subst rs. simpl. split; [lia |].
      intros k Hk. destruct (decide (k = socketId)) as [-> | Hne].
      * rewrite lookup_insert_eq in Hk. inversion Hk as [Heq]. lia.
      * rewrite !lookup_insert_ne in Hk by done.
        destruct (Hentries k _ Hk) as [Hlt _]. lia.
Qed.

Lemma bare_streams_alter (f : RecognizeStream → RecognizeStream) s sv :
  (∀ rs, rs_streamInfo (f rs) = rs_streamInfo rs) →
  registry_bare sv → registry_bare (with_streams (alter f s) sv).
Proof.
  intros Hf [Hentries Hstreams]. split; [exact Hentries |].
  intros s' rs' Hlook. simpl in Hlook. simpl.
  destruct (decide (s = s')) as [-> | Hne].
  - rewrite list_lookup_alter_eq in Hlook.
    destruct (streams sv !! s') as [rs|] eqn:Hold; simplify_eq/=.
    rewrite Hf. by apply (Hstreams s' rs).
  - rewrite list_lookup_alter_ne in Hlook by done. by apply (Hstreams s' rs').
Qed.

Lemma bare_infos_alter (f : StreamInfo → StreamInfo) r sv :
  (∀ x, restartTimer (f x) = restartTimer x) →
  registry_bare sv → registry_bare (with_infos (alter f r) sv).
Proof.
  intros Hf [Hentries Hstreams]. split; simpl; rewrite length_alter.
  - intros k r' Hk. destruct (Hentries k r' Hk) as [Hlt Hnone]. split; [done |].
    unfold deref in *. simpl. destruct (decide (r = r')) as [-> | Hne].
    + rewrite list_lookup_alter_eq. destruct (infos sv !! r'); simpl in *; [| done].
      by rewrite Hf.
    + by rewrite list_lookup_alter_ne.
  - exact Hstreams.
Qed.

Lemma bare_timers f sv : registry_bare sv → registry_bare (with_timers f sv).
Proof. intros [Hentries Hstreams]. by split. Qed.

Lemma bare_transcripts f sv : registry_bare sv → registry_bare (with_transcripts f sv).
Proof. intros [Hentries Hstreams]. by split. Qed.

Lemma setupRestartTimer_bare r socketId languageCode sv :
  (∀ k, recognizeStreams sv !! k ≠ Some r) →
  registry_bare sv → registry_bare (setupRestartTimer r socketId languageCode sv).
Proof.
  intros Hfree Hbare. unfold setupRestartTimer.
  set (sv1 := match restartTimer (deref r sv) with
              | Some t => clearTimeout t sv
              | None => sv
              end).
  assert (registry_bare sv1 ∧ recognizeStreams sv1 = recognizeStreams sv) as [[Hentries Hstreams] Hmap].
  { subst sv1. destruct (restartTimer (deref r sv)); [| done].
    split; [by apply bare_timers | done]. }
  split; simpl; rewrite length_alter.
  - intros k r' Hk. destruct (Hentries k r' Hk) as [Hlt Hnone]. split; [done |].
    unfold deref in *. simpl.
    rewrite list_lookup_alter_ne; [done |].
    intros ->. apply (Hfree k). by rewrite <- Hmap.
  - exact Hstreams.
Qed.

Lemma step_bare ev sv : registry_bare sv → registry_bare (step ev sv).
Proof.
  intros Hbare. destruct ev as [k l | k sock | k data | k | s data | s | t]; simpl.
  - by apply createRecognizeStream_bare.
  - unfold bindSocketToStream.
    destruct (recognizeStreams sv !! k) as [r|].
    + by apply bare_infos_alter.
    + pose proof (createRecognizeStream_bare k "en-US" sv Hbare) as Hbare'.
      destruct (recognizeStreams (createRecognizeStream k "en-US" sv).1 !! k);
        [by apply bare_infos_alter | done].
  - unfold processAudio.
    destruct (recognizeStreams sv !! k) as [r|]; [| done].
    destruct (stream (deref r sv)) as [s|]; [| done].
    destruct (streams sv !! s) as [rs|]; [| done].
    destruct (negb (writable rs)); [done |].
    destruct (normalize (buffer data)) as [audioBuffer| |]; [| done | done].
    assert (registry_bare (if decide (0 < length audioBuffer)
                           then with_streams (alter (write audioBuffer) s) sv else sv)) as Hbare'.
    { case_decide; [| done]. by apply bare_streams_alter. }
    destruct (isFinal data); [| done]. by apply bare_streams_alter.
  - by apply cleanup_bare.
  - destruct (streams sv !! s) as [rs|] eqn:Hrs; [| done].
    destruct (destroyed rs); [done |].
    unfold on_data.
    assert (registry_bare (setupRestartTimer (rs_streamInfo rs) (rs_socketId rs)
                             (rs_languageCode rs) sv)) as Hbare'.
    { apply setupRestartTimer_bare; [| done]. by apply (proj2 Hbare s rs). }
    destruct data as [result|]; [| done].
    destruct (recognizeStreams _ !! rs_socketId rs) as [r|]; [| done].
    destruct (socket _); [by apply bare_transcripts | done].
  - destruct (streams sv !! s) as [rs|]; [| done].
    destruct (destroyed rs); [done |].
    by apply createRecognizeStream_bare.
  - destruct (timers sv !! t) as [tm|]; [| done].
    destruct (tm_state tm); [| done | done].
    apply createRecognizeStream_bare. by apply bare_timers.
Qed.

Lemma run_bare evs sv : registry_bare sv → registry_bare (run evs sv).
Proof.
  revert sv. induction evs as [|ev evs IH]; intros sv Hbare; [done |].
  simpl. apply IH. by apply step_bare.
Qed.

Lemma initial_bare : registry_bare initial.
Proof.
  split.
  - intros k r Hk. simpl in Hk. by rewrite lookup_empty in Hk.
  - intros s rs Hs. simpl in Hs. by rewrite lookup_nil in Hs.
Qed.

(** In no state the service can reach does teardown cancel a timer. *)
Lemma teardown_cancels_no_timer (evs : list Event) (socketId : string) :
  timers (cleanup socketId (run evs initial)) = timers (run evs initial).
Proof. apply cleanup_keeps_timers, run_bare, initial_bare. Qed.
Lemma no_entry_no_live_handle sv socketId :
  tracked sv → recognizeStreams sv !! socketId = None → live_handles sv socketId = [].
Proof.
  intros Htr Hnone. unfold live_handles.
  destruct (filter _ _) as [|x l] eqn:Hf; [done |].
  assert (x ∈ filter (λ s, is_live sv socketId s = true) (seq 0 (length (streams sv))))
    as Hx by (rewrite Hf; set_solver).
  apply list_elem_of_filter in Hx as [Hx _].
  apply is_live_spec in Hx as (rs & Hlook & Hk & Hd).
  destruct (Htr x rs Hlook Hd) as (r & Hmap & _). congruence.
Qed.

(** Teardown does destroy the stream of the socket and remove its entry. *)
Lemma teardown_releases_stream (evs : list Event) (socketId : string) :
  recognizeStreams (cleanup socketId (run evs initial)) !! socketId = None ∧
  live_handles (cleanup socketId (run evs initial)) socketId = [].
Proof.
  destruct (cleanup_tracked socketId (run evs initial)
              (run_tracked evs initial initial_tracked)) as [Htr Hnone].
  split; [exact Hnone |]. by apply no_entry_no_live_handle.
Qed.
End session_properties.

Section session_claims.
Import Audio SpeechToText.

(** C9. For int16 samples, the three encodings of one chunk (the array
    of sample values, the JSON form of the buffer, the buffer itself)
    are normalised to the same bytes, the LINEAR16 encoding of the
    samples, and those bytes are what [processAudio] writes: for a socket
    whose entry points to a writable stream, each of the three encodings
    appends exactly that one buffer to what the stream was given before
    (nothing when there are no samples), ends the stream when the chunk
    is final, and leaves every other stream alone.  So [processAudio]
    leaves the service in the same state for all three. *)
Theorem audio_encodings_normalize_alike (samples : list Z) :
  Forall int16 samples →
  let pcm := linear16 samples in
  normalize (NumericArray samples) = Converted pcm ∧
  normalize (BufferJSON (Buffer_toJSON_data pcm)) = Converted pcm ∧
  normalize (RawBuffer pcm) = Converted pcm ∧
  (∀ (socketId : string) (fin : bool) (sv : Service),
    processAudio socketId (mkAudioData (NumericArray samples) fin) sv
      = processAudio socketId (mkAudioData (RawBuffer pcm) fin) sv ∧
    processAudio socketId (mkAudioData (BufferJSON (Buffer_toJSON_data pcm)) fin) sv
      = processAudio socketId (mkAudioData (RawBuffer pcm) fin) sv) ∧
  (∀ (w : WireBuffer) (socketId : string) (fin : bool) (sv : Service)
     (r s : nat) (rs : RecognizeStream),
    w ∈ [NumericArray samples; BufferJSON (Buffer_toJSON_data pcm); RawBuffer pcm] →
    recognizeStreams sv !! socketId = Some r →
    stream (deref r sv) = Some s →
    streams sv !! s = Some rs →
    writable rs = true →
    let sv' := processAudio socketId (mkAudioData w fin) sv in
    streams sv' !! s =
      Some (mkStream (rs_socketId rs) (rs_languageCode rs) (rs_streamInfo rs)
              (destroyed rs) (negb fin)
              (written rs ++ match samples with [] => [] | _ :: _ => [pcm] end)) ∧
    (∀ s', s' ≠ s → streams sv' !! s' = streams sv !! s')).
Proof.
  intros Hrange pcm.
  assert (normalize (NumericArray samples) = Converted pcm) as Hnum.
  { simpl. f_equal. by apply numeric_array_is_linear16. }
  assert (normalize (BufferJSON (Buffer_toJSON_data pcm)) = Converted pcm) as Hjson.
  { simpl. f_equal. apply Buffer_JSON_roundtrip. }
  split; [exact Hnum |]. split; [exact Hjson |]. split; [reflexivity |]. split.
  - intros socketId fin sv.
    split; unfold processAudio; cbn [buffer isFinal]; [rewrite Hnum | rewrite Hjson];
      reflexivity.
  - intros w socketId fin sv r s rs Hw Hmap Hstream Hrs Hwritable.
    assert (normalize w = Converted pcm) as Hnorm.
    { apply elem_of_cons in Hw as [-> | Hw]; [exact Hnum |].
      apply elem_of_cons in Hw as [-> | Hw]; [exact Hjson |].
      apply list_elem_of_singleton in Hw as ->. reflexivity. }
    assert (s < length (streams sv)) as Hlt by (by apply lookup_lt_Some in Hrs).
    cbv zeta. unfold processAudio. cbn [buffer isFinal].
    rewrite Hmap, Hstream, Hrs, Hwritable, Hnorm. cbn [negb].
    destruct rs as [k l info d wr wn]. cbn [writable] in Hwritable. subst wr.
    cbn [rs_socketId rs_languageCode rs_streamInfo destroyed written].
    assert (match samples with [] => pcm = [] | _ :: _ => 0 < length pcm end) as Hlen.
    { subst pcm. destruct samples as [|x xs]; [done |].
      unfold linear16. cbn [flat_map linear16_sample]. rewrite !length_app. simpl. lia. }
    destruct samples as [|x xs].
    + rewrite Hlen. cbn [length]. rewrite app_nil_r.
      case_decide as Hpos; [lia |].
      destruct fin; cbn [negb].
      * split.
        -- unfold with_streams. cbn [streams]. rewrite list_lookup_alter_eq, Hrs. done.
        -- intros s' Hne. unfold with_streams. cbn [streams].
           by rewrite list_lookup_alter_ne.
      * by split.
    + case_decide as Hpos; [| lia].
      destruct fin; cbn [negb].
      * split.
        -- unfold with_streams. cbn [streams].
           rewrite !list_lookup_alter_eq, Hrs. done.
        -- intros s' Hne. unfold with_streams. cbn [streams].
           by rewrite !list_lookup_alter_ne.
      * split.
        -- unfold with_streams. cbn [streams]. rewrite list_lookup_alter_eq, Hrs. done.
        -- intros s' Hne. unfold with_streams. cbn [streams].
           by rewrite list_lookup_alter_ne.
Qed.

Lemma audio_encodings_normalize_alike_witness :
  let sv := run [Create "p" "en-US"; Create "q" "en-US"] initial in
  let samples := [1; -2; 32767; -32768]%Z in
  let pcm := [Byte.x01; Byte.x00; Byte.xfe; Byte.xff; Byte.xff; Byte.x7f; Byte.x00; Byte.x80] in
  Forall int16 samples ∧
  normalize (NumericArray samples) = Converted pcm ∧
  processAudio "p" (mkAudioData (NumericArray samples) false) sv
    = processAudio "p" (mkAudioData (RawBuffer pcm) false) sv ∧
  streams (processAudio "p" (mkAudioData (NumericArray samples) false) sv) !! 0
    = Some (mkStream "p" "en-US" 0 false true [pcm]) ∧
  streams (processAudio "p" (mkAudioData (BufferJSON (Buffer_toJSON_data pcm)) true) sv) !! 0
    = Some (mkStream "p" "en-US" 0 false false [pcm]) ∧
  streams (processAudio "p" (mkAudioData (RawBuffer pcm) false) sv) !! 1
    = Some (mkStream "q" "en-US" 2 false true []).
Proof.
  cbv zeta.
  assert (Forall int16 [1; -2; 32767; -32768]%Z) as Hrange
    by (repeat constructor; unfold int16; lia).
  pose proof (audio_encodings_normalize_alike [1; -2; 32767; -32768]%Z Hrange) as Hthm.
  cbv zeta in Hthm. destruct Hthm as (Hnum & _ & _ & Hproc & Hwrite).
  split; [exact Hrange |]. split; [exact Hnum |].
  split; [exact (proj1 (Hproc "p" false _)) |].
  split; [| split].
  - refine (proj1 (Hwrite (NumericArray [1; -2; 32767; -32768]%Z) "p" false
                     (run [Create "p" "en-US"; Create "q" "en-US"] initial) 1 0
                     (mkStream "p" "en-US" 0 false true []) _ eq_refl eq_refl eq_refl eq_refl)).
    by left.
  - refine (proj1 (Hwrite (BufferJSON (Buffer_toJSON_data
                       (linear16 [1; -2; 32767; -32768]%Z))) "p" true
                     (run [Create "p" "en-US"; Create "q" "en-US"] initial) 1 0
                     (mkStream "p" "en-US" 0 false true []) _ eq_refl eq_refl eq_refl eq_refl)).
    right. by left.
  - refine (proj2 (Hwrite (RawBuffer (linear16 [1; -2; 32767; -32768]%Z)) "p" false
                     (run [Create "p" "en-US"; Create "q" "en-US"] initial) 1 0
                     (mkStream "p" "en-US" 0 false true []) _ eq_refl eq_refl eq_refl eq_refl)
                  1 _).
    + right. right. by left.
    + done.
Defined.

(** C2 does not hold of the code.  What holds: in every reachable state a
    socket has at most one live stream.  What fails: creating a stream
    for a socket that has one never cancels a timer, so the restart timer
    of the retired session stays armed.  The run: a stream is created, a
    result arrives on it (which arms the restart timer), the stream fails
    and the error handler creates the replacement; one stream is live and
    the timer of the first one is still pending. *)
Theorem recreation_leaves_old_timer_armed :
  (∀ (evs : list Event) (socketId : string),
      length (live_handles (run evs initial) socketId) ≤ 1) ∧
  (∀ (evs : list Event) (socketId languageCode : string),
      timers (createRecognizeStream socketId languageCode (run evs initial)).1
        = timers (run evs initial)) ∧
  (let sv := run [Create "p" "en-US"; StreamData 0 None; StreamError 0] initial in
   live_handles sv "p" = [1] ∧
   pending_timers sv "p" = [0] ∧
   timers sv !! 0 = Some (mkTimer "p" "en-US" pending)).
Proof.
  split; [| split].
  - apply at_most_one_live_handle.
  - intros evs socketId languageCode.
    apply createRecognizeStream_keeps_timers, run_bare, initial_bare.
  - cbv zeta. repeat split; reflexivity.
Qed.

(** C3 does not hold of the code.  Teardown destroys the stream and
    removes the entry, but in no reachable state does it cancel a timer.
    The run: a stream is created and bound for a socket and a result
    arrives on it; the socket disconnects and [cleanup] runs; the restart
    timer is still pending, and when it fires the socket that has left has
    an entry and a live stream again. *)
Theorem cleanup_leaves_restart_timer_armed :
  (∀ (evs : list Event) (socketId : string),
      timers (cleanup socketId (run evs initial)) = timers (run evs initial)) ∧
  (let sv := run [Create "p" "en-US"; Bind "p" "p"; StreamData 0 None; Cleanup "p"] initial in
   let sv' := step (TimerFires 0) sv in
   recognizeStreams sv !! "p" = None ∧
   live_handles sv "p" = [] ∧
   pending_timers sv "p" = [0] ∧
   recognizeStreams sv' !! "p" = Some 3 ∧
   live_handles sv' "p" = [1]).
Proof.
  split.
  - apply teardown_cancels_no_timer.
  - cbv zeta. repeat split; reflexivity.
Qed.
End session_claims.

(** ** Further properties of the session manager *)

Section service_extras.
Import Audio SpeechToText SpeechToTextInv.

Lemma cleanup_noop_without_entry socketId sv :
  recognizeStreams sv !! socketId = None → cleanup socketId sv = sv.
Proof. intros Hnone. unfold cleanup. by rewrite Hnone. Qed.

(** Teardown is idempotent, in any state: a second [cleanup] of the same
    socket changes nothing, and [cleanup] of a socket that has no entry is
    a no-op. *)
Theorem cleanup_idempotent (socketId : string) (sv : Service) :
  cleanup socketId (cleanup socketId sv) = cleanup socketId sv ∧
  (recognizeStreams sv !! socketId = None → cleanup socketId sv = sv).
Proof.
  split; [| apply cleanup_noop_without_entry].
  apply cleanup_noop_without_entry.
  destruct (cleanup_shape socketId sv) as (_ & -> & _). apply lookup_delete_eq.
Qed.

Lemma cleanup_idempotent_witness :
  cleanup "ghost" (run [Create "p" "en-US"] initial) = run [Create "p" "en-US"] initial.
Proof.
  apply (proj2 (cleanup_idempotent "ghost" (run [Create "p" "en-US"] initial))).
  reflexivity.
Defined.

Lemma own_infos_alter (f : StreamInfo → StreamInfo) r sv :
  (∀ x, stream (f x) = stream x) →
  entries_own sv → entries_own (with_infos (alter f r) sv).
Proof.
  intros Hf Hown k r' s Hk Hs. simpl in *.
  unfold deref in Hs. simpl in Hs. rewrite stream_alter_info in Hs by done.
  by apply (Hown k r' s).
Qed.

Lemma own_streams_alter (f : RecognizeStream → RecognizeStream) s sv :
  (∀ rs, rs_socketId (f rs) = rs_socketId rs) →
  entries_own sv → entries_own (with_streams (alter f s) sv).
Proof.
  intros Hf Hown k r s' Hk Hs.
  destruct (Hown k r s' Hk Hs) as (rs & Hrs & Hkey). simpl.
  destruct (decide (s = s')) as [-> | Hne].
  - exists (f rs). rewrite list_lookup_alter_eq, Hrs. split; [done |]. by rewrite Hf.
  - exists rs. by rewrite list_lookup_alter_ne.
Qed.

Lemma own_timers f sv : entries_own sv → entries_own (with_timers f sv).
Proof. intros Hown k r s Hk Hs. by apply (Hown k r s). Qed.

Lemma own_transcripts f sv : entries_own sv → entries_own (with_transcripts f sv).
Proof. intros Hown k r s Hk Hs. by apply (Hown k r s). Qed.

Lemma evolves_refl rs : evolves rs rs.
Proof. by repeat split. Qed.

Lemma evolves_trans rs1 rs2 rs3 : evolves rs1 rs2 → evolves rs2 rs3 → evolves rs1 rs3.
Proof.
  intros (Hk1 & Hl1 & Hi1 & Hp1 & Hd1 & Hw1) (Hk2 & Hl2 & Hi2 & Hp2 & Hd2 & Hw2).
  split; [congruence |]. split; [congruence |]. split; [congruence |].
  split; [by etrans |]. split; [auto |].
  intros Hw. destruct (Hw1 Hw) as [Hw' Heq]. destruct (Hw2 Hw') as [Hw'' Heq'].
  split; congruence.
Qed.

Lemma evolves_destroy rs : evolves rs (destroy rs).
Proof. by repeat split. Qed.

Lemma evolves_end rs : evolves rs (end_ rs).
Proof. by repeat split. Qed.

Lemma evolves_write chunk rs : writable rs = true → evolves rs (write chunk rs).
Proof.
  intros Hw. split; [done |]. split; [done |]. split; [done |].
  split; [by apply prefix_app_r |]. split; [done |]. simpl. congruence.
Qed.

(** Streams kept by an update that changes one stream object along
    [evolves]. *)
Lemma alter_stream_evolves (f : RecognizeStream → RecognizeStream) s sv rs0 :
  streams sv !! s = Some rs0 → evolves rs0 (f rs0) →
  ∀ s' rs, streams sv !! s' = Some rs →
    ∃ rs', streams (with_streams (alter f s) sv) !! s' = Some rs' ∧ evolves rs rs'.
Proof.
  intros Hrs0 Hev s' rs Hrs. simpl.
  destruct (decide (s = s')) as [-> | Hne].
  - exists (f rs0). rewrite list_lookup_alter_eq, Hrs0. split; [done |]. congruence.
  - exists rs. rewrite list_lookup_alter_ne by done. split; [done | apply evolves_refl].
Qed.

Lemma cleanup_evolves socketId sv s rs :
  streams sv !! s = Some rs →
  ∃ rs', streams (cleanup socketId sv) !! s = Some rs' ∧ evolves rs rs'.
Proof.
  intros Hrs. unfold cleanup.
  destruct (recognizeStreams sv !! socketId) as [r|]; [| eauto using evolves_refl].
  set (sv1 := match restartTimer (deref r sv) with
              | Some t => clearTimeout t sv
              | None => sv
              end).
  assert (streams sv1 = streams sv) as Hst1
    by (subst sv1; by destruct (restartTimer (deref r sv))).
  destruct (stream (deref r sv)) as [s0|]; simpl;
    [| rewrite Hst1; eauto using evolves_refl].
  destruct (streams sv1 !! s0) as [rs0|] eqn:Hrs0;
    [| simpl; rewrite Hst1; eauto using evolves_refl].
  destruct (destroyed rs0); [simpl; rewrite Hst1; eauto using evolves_refl |].
  apply (alter_stream_evolves destroy s0 sv1 rs0 Hrs0 (evolves_destroy rs0)).
  by rewrite Hst1.
Qed.

Lemma createRecognizeStream_evolves socketId languageCode sv s rs :
  streams sv !! s = Some rs →
  ∃ rs', streams (createRecognizeStream socketId languageCode sv).1 !! s = Some rs' ∧
         evolves rs rs'.
Proof.
  intros Hrs. destruct (cleanup_evolves socketId sv s rs Hrs) as (rs' & Hrs' & Hev).
  exists rs'. split; [| done]. simpl.
  rewrite lookup_app_l; [done |]. by apply lookup_lt_Some in Hrs'.
Qed.

Lemma processAudio_evolves socketId data sv s rs :
  streams sv !! s = Some rs →
  ∃ rs', streams (processAudio socketId data sv) !! s = Some rs' ∧ evolves rs rs'.
Proof.
  intros Hrs. unfold processAudio.
  destruct (recognizeStreams sv !! socketId) as [r|]; [| eauto using evolves_refl].
  destruct (stream (deref r sv)) as [s0|]; [| eauto using evolves_refl].
  destruct (streams sv !! s0) as [rs0|] eqn:Hrs0; [| eauto using evolves_refl].
  destruct (writable rs0) eqn:Hw; simpl; [| eauto using evolves_refl].
  destruct (normalize (buffer data)) as [audioBuffer| |]; [| eauto using evolves_refl ..].
  set (sv1 := if decide (0 < length audioBuffer)
              then with_streams (alter (write audioBuffer) s0) sv else sv).
  assert (∀ s' rs1, streams sv !! s' = Some rs1 →
            ∃ rs', streams sv1 !! s' = Some rs' ∧ evolves rs1 rs') as Hstep1.
  { intros s' rs1 Hrs1. subst sv1. case_decide; [| eauto using evolves_refl].
    by apply (alter_stream_evolves (write audioBuffer) s0 sv rs0 Hrs0
                (evolves_write audioBuffer rs0 Hw)). }
  destruct (isFinal data); [| by apply Hstep1].
  destruct (Hstep1 s rs Hrs) as (rs1 & Hrs1 & Hev1).
  destruct (Hstep1 s0 rs0 Hrs0) as (rs01 & Hrs01 & _).
  destruct (alter_stream_evolves end_ s0 sv1 rs01 Hrs01 (evolves_end rs01) s rs1 Hrs1)
    as (rs2 & Hrs2 & Hev2).
  exists rs2. split; [done |]. by apply (evolves_trans rs rs1 rs2).
Qed.

Lemma step_evolves ev sv s rs :
  streams sv !! s = Some rs →
  ∃ rs', streams (step ev sv) !! s = Some rs' ∧ evolves rs rs'.
Proof.
  intros Hrs. destruct ev as [k l | k sock | k data | k | s0 data | s0 | t]; simpl.
  - by apply createRecognizeStream_evolves.
  - unfold bindSocketToStream.
    destruct (recognizeStreams sv !! k) as [r|]; [simpl; eauto using evolves_refl |].
    destruct (createRecognizeStream_evolves k "en-US" sv s rs Hrs) as (rs' & Hrs' & Hev).
    destruct (recognizeStreams (createRecognizeStream k "en-US" sv).1 !! k); eauto.
  - by apply processAudio_evolves.
  - by apply cleanup_evolves.
  - destruct (streams sv !! s0) as [rs0|]; [| eauto using evolves_refl].
    destruct (destroyed rs0); [eauto using evolves_refl |].
    exists rs. split; [| apply evolves_refl].
    unfold on_data, setupRestartTimer.
    destruct data as [result|];
      [destruct (recognizeStreams _ !! rs_socketId rs0) as [r|];
       [destruct (socket _) |] |];
      simpl; by destruct (restartTimer (deref (rs_streamInfo rs0) sv)).
  - destruct (streams sv !! s0) as [rs0|]; [| eauto using evolves_refl].
    destruct (destroyed rs0); [eauto using evolves_refl |].
    by apply createRecognizeStream_evolves.
  - destruct (timers sv !! t) as [tm|]; [| eauto using evolves_refl].
    destruct (tm_state tm); [| eauto using evolves_refl ..].
    by apply createRecognizeStream_evolves.
Qed.

(** Stream objects only move forward.  Over any run, a stream that exists
    is still there under the same index, for the same socket; what was
    written to it is a prefix of what it holds later; a destroyed stream
    stays destroyed; and once a stream is not writable (ended or
    destroyed) it never becomes writable again and nothing more is written
    to it. *)
Theorem streams_only_move_forward (evs : list Event) (sv : Service)
    (s : nat) (rs : RecognizeStream) :
  streams sv !! s = Some rs →
  ∃ rs', streams (run evs sv) !! s = Some rs' ∧ evolves rs rs'.
Proof.
  revert sv rs. induction evs as [|ev evs IH]; intros sv rs Hrs; simpl.
  - eauto using evolves_refl.
  - destruct (step_evolves ev sv s rs Hrs) as (rs1 & Hrs1 & Hev1).
    destruct (IH (step ev sv) rs1 Hrs1) as (rs2 & Hrs2 & Hev2).
    exists rs2. split; [done |]. by apply (evolves_trans rs rs1 rs2).
Qed.

Lemma streams_only_move_forward_witness :
  let sv := run [Create "p" "en-US"; AudioIn "p" (mkAudioData (NumericArray [7%Z]) true)] initial in
  ∃ rs', streams (run [AudioIn "p" (mkAudioData (NumericArray [9%Z]) false);
                       TimerFires 0; Cleanup "p"] sv) !! 0 = Some rs' ∧
         evolves (mkStream "p" "en-US" 0 false false [[Byte.x07; Byte.x00]]) rs'.
Proof.
  cbv zeta.
  apply (streams_only_move_forward
           [AudioIn "p" (mkAudioData (NumericArray [9%Z]) false); TimerFires 0; Cleanup "p"]
           (run [Create "p" "en-US"; AudioIn "p" (mkAudioData (NumericArray [7%Z]) true)] initial)
           0).
  reflexivity.
Defined.

Lemma cleanup_own socketId sv : entries_own sv → entries_own (cleanup socketId sv).
Proof.
  intros Hown k r s Hk Hs.
  destruct (cleanup_shape socketId sv) as (Hin & Hmap & _).
  rewrite Hmap in Hk. apply lookup_delete_Some in Hk as [_ Hk].
  unfold deref in Hs. rewrite Hin in Hs.
  destruct (Hown k r s Hk Hs) as (rs & Hrs & Hkey).
  destruct (cleanup_evolves socketId sv s rs Hrs) as (rs' & Hrs' & Hev).
  exists rs'. split; [done |]. destruct Hev as (-> & _). done.
Qed.

Lemma createRecognizeStream_own socketId languageCode sv :
  registry_bare sv → entries_own sv →
  entries_own (createRecognizeStream socketId languageCode sv).1.
Proof.
  intros Hbare Hown.
  apply (cleanup_bare socketId) in Hbare as [Hentries _].
  apply (cleanup_own socketId) in Hown.
  unfold createRecognizeStream. set (sv0 := cleanup socketId sv) in *.
  intros k r s Hk Hs. simpl in *. unfold deref in Hs. simpl in Hs.
  rewrite length_alter, length_app in Hk. simpl in Hk.
  destruct (decide (k = socketId)) as [-> | Hne].
  - rewrite lookup_insert_eq in Hk. simplify_eq.
    rewrite lookup_app_r in Hs by (rewrite length_alter, length_app; simpl; lia).
    rewrite length_alter, length_app in Hs. simpl in Hs.
    rewrite Nat.sub_diag in Hs. simpl in Hs. simplify_eq.
    eexists. split; [apply list_lookup_middle; done | done].
  - rewrite !lookup_insert_ne in Hk by done.
    destruct (Hentries k r Hk) as [Hlt _].
    rewrite lookup_app_l in Hs by (rewrite length_alter, length_app; simpl; lia).
    rewrite list_lookup_alter_ne in Hs by lia.
    rewrite lookup_app_l in Hs by lia.
    destruct (Hown k r s Hk Hs) as (rs & Hrs & Hkey).
    exists rs. split; [| done].
    rewrite lookup_app_l; [done |]. by apply lookup_lt_Some in Hrs.
Qed.

Lemma step_own ev sv : registry_bare sv → entries_own sv → entries_own (step ev sv).
Proof.
  intros Hbare Hown.
  destruct ev as [k l | k sock | k data | k | s data | s | t]; simpl.
  - by apply createRecognizeStream_own.
  - unfold bindSocketToStream.
    destruct (recognizeStreams sv !! k) as [r|].
    + by apply own_infos_alter.
    + pose proof (createRecognizeStream_own k "en-US" sv Hbare Hown) as Hown'.
      destruct (recognizeStreams (createRecognizeStream k "en-US" sv).1 !! k);
        [by apply own_infos_alter | done].
  - unfold processAudio.
    destruct (recognizeStreams sv !! k) as [r|]; [| done].
    destruct (stream (deref r sv)) as [s|]; [| done].
    destruct (streams sv !! s) as [rs|]; [| done].
    destruct (negb (writable rs)); [done |].
    destruct (normalize (buffer data)) as [audioBuffer| |]; [| done | done].
    assert (entries_own (if decide (0 < length audioBuffer)
                         then with_streams (alter (write audioBuffer) s) sv else sv)) as Hown'.
    { case_decide; [| done]. by apply own_streams_alter. }
    destruct (isFinal data); [| done]. by apply own_streams_alter.
  - by apply cleanup_own.
  - destruct (streams sv !! s) as [rs|]; [| done].
    destruct (destroyed rs); [done |].
    unfold on_data.
    assert (entries_own (setupRestartTimer (rs_streamInfo rs) (rs_socketId rs)
                           (rs_languageCode rs) sv)) as Hown'.
    { unfold setupRestartTimer. apply own_infos_alter; [done |]. apply own_timers.
      destruct (restartTimer (deref (rs_streamInfo rs) sv)); [by apply own_timers | done]. }
    destruct data as [result|]; [| done].
    destruct (recognizeStreams _ !! rs_socketId rs) as [r|]; [| done].
    destruct (socket _); [by apply own_transcripts | done].
  - destruct (streams sv !! s) as [rs|]; [| done].
    destruct (destroyed rs); [done |].
    by apply createRecognizeStream_own.
  - destruct (timers sv !! t) as [tm|]; [| done].
    destruct (tm_state tm); [| done | done].
    apply createRecognizeStream_own; [by apply bare_timers | by apply own_timers].
Qed.

Lemma step_consistent ev sv : consistent sv → consistent (step ev sv).
Proof.
  intros (Htr & Hbare & Hown).
  split; [by apply step_tracked |]. split; [by apply step_bare | by apply step_own].
Qed.

Lemma run_consistent evs sv : consistent sv → consistent (run evs sv).
Proof.
  revert sv. induction evs as [|ev evs IH]; intros sv Hc; [done |].
  simpl. apply IH. by apply step_consistent.
Qed.

Lemma initial_consistent : consistent initial.
Proof.
  split; [apply initial_tracked |]. split; [apply initial_bare |].
  intros k r s Hk. simpl in Hk. by rewrite lookup_empty in Hk.
Qed.

Lemma live_handles_ext sv sv' socketId :
  length (streams sv') = length (streams sv) →
  (∀ s, is_live sv' socketId s = is_live sv socketId s) →
  live_handles sv' socketId = live_handles sv socketId.
Proof.
  intros Hlen Hlive. unfold live_handles. rewrite Hlen.
  apply list_filter_iff. intros s. by rewrite Hlive.
Qed.

Lemma cleanup_length socketId sv :
  length (streams (cleanup socketId sv)) = length (streams sv).
Proof.
  unfold cleanup.
  destruct (recognizeStreams sv !! socketId) as [r|]; [| done].
  set (sv1 := match restartTimer (deref r sv) with
              | Some t => clearTimeout t sv
              | None => sv
              end).
  assert (streams sv1 = streams sv) as Hst1
    by (subst sv1; by destruct (restartTimer (deref r sv))).
  destruct (stream (deref r sv)) as [s0|]; simpl; [| by rewrite Hst1].
  destruct (streams sv1 !! s0) as [rs0|]; [| simpl; by rewrite Hst1].
  destruct (destroyed rs0); simpl; [by rewrite Hst1 |].
  by rewrite length_alter, Hst1.
Qed.

Lemma cleanup_other_live socketId other sv :
  entries_own sv → other ≠ socketId →
  ∀ s, is_live (cleanup socketId sv) other s = is_live sv other s.
Proof.
  intros Hown Hne s. unfold cleanup.
  destruct (recognizeStreams sv !! socketId) as [r|] eqn:Hmap; [| done].
  set (sv1 := match restartTimer (deref r sv) with
              | Some t => clearTimeout t sv
              | None => sv
              end).
  assert (streams sv1 = streams sv) as Hst1
    by (subst sv1; by destruct (restartTimer (deref r sv))).
  unfold is_live.
  destruct (stream (deref r sv)) as [s0|] eqn:Hs0; simpl; [| by rewrite Hst1].
  destruct (streams sv1 !! s0) as [rs0|] eqn:Hrs0; [| simpl; by rewrite Hst1].
  destruct (destroyed rs0); simpl; [by rewrite Hst1 |].
  destruct (decide (s0 = s)) as [-> | Hs].
  - rewrite list_lookup_alter_eq, <- Hst1, Hrs0. simpl.
    destruct (Hown socketId r s Hmap Hs0) as (rs & Hrs & Hkey).
    rewrite Hst1 in Hrs0. assert (rs0 = rs) as -> by congruence.
    rewrite Hkey. rewrite !bool_decide_eq_false_2 by done. done.
  - rewrite list_lookup_alter_ne by done. by rewrite Hst1.
Qed.

Lemma run_snoc evs ev sv : run (evs ++ [ev]) sv = step ev (run evs sv).
Proof. unfold run. by rewrite fold_left_app. Qed.

Lemma singleton_of_short (l : list nat) (x : nat) :
  x ∈ l → length l ≤ 1 → l = [x].
Proof.
  destruct l as [|y [|z l]]; simpl; intros Hin Hlen; [| | lia].
  - by apply not_elem_of_nil in Hin.
  - apply list_elem_of_singleton in Hin. by subst.
Qed.

Lemma createRecognizeStream_result socketId languageCode sv :
  let sv0 := cleanup socketId sv in
  let '(sv', s) := createRecognizeStream socketId languageCode sv in
  s = length (streams sv0) ∧
  streams sv' = streams sv0 ++
                  [mkStream socketId languageCode (length (infos sv0)) false true []] ∧
  recognizeStreams sv' = <[socketId := S (length (infos sv0))]> (recognizeStreams sv0) ∧
  deref (S (length (infos sv0))) sv' = mkInfo (Some s) None None None ∧
  timers sv' = timers sv0 ∧ transcripts sv' = transcripts sv0 ∧
  (∀ r, r < length (infos sv0) → deref r sv' = deref r sv0).
Proof.
  cbv zeta. unfold createRecognizeStream. set (sv0 := cleanup socketId sv).
  simpl. rewrite length_alter, length_app. simpl.
  replace (length (infos sv0) + 1) with (S (length (infos sv0))) by lia.
  repeat split.
  - by rewrite insert_insert_eq.
  - unfold deref. simpl.
    rewrite lookup_app_r by (rewrite length_alter, length_app; simpl; lia).
    rewrite length_alter, length_app. simpl.
    replace (S (length (infos sv0)) - (length (infos sv0) + 1)) with 0 by lia. done.
  - intros r Hr. unfold deref. simpl.
    rewrite lookup_app_l by (rewrite length_alter, length_app; simpl; lia).
    rewrite list_lookup_alter_ne by lia.
    by rewrite lookup_app_l by lia.
Qed.

Lemma cleanup_transcripts socketId sv : transcripts (cleanup socketId sv) = transcripts sv.
Proof.
  unfold cleanup.
  destruct (recognizeStreams sv !! socketId) as [r|]; [| done].
  destruct (restartTimer (deref r sv)); simpl;
    (destruct (stream (deref r sv)) as [s0|]; [| done]);
    (destruct (streams _ !! s0) as [rs0|]; [| done]);
    by destruct (destroyed rs0).
Qed.

(** What [createRecognizeStream] establishes, in every reachable state:
    the socket has exactly one live stream, the one returned; that stream
    is fresh (writable, nothing written); and the registry entry of the
    socket points to it, with no socket bound and no timer. *)
Theorem create_leaves_one_fresh_stream (evs : list Event) (socketId languageCode : string) :
  let '(sv', s) := createRecognizeStream socketId languageCode (run evs initial) in
  live_handles sv' socketId = [s] ∧
  (∃ info, streams sv' !! s = Some (mkStream socketId languageCode info false true [])) ∧
  (∃ r, recognizeStreams sv' !! socketId = Some r ∧
        deref r sv' = mkInfo (Some s) None None None).
Proof.
  pose proof (createRecognizeStream_result socketId languageCode (run evs initial)) as Hres.
  pose proof (at_most_one_live_handle (evs ++ [Create socketId languageCode]) socketId) as Hone.
  rewrite run_snoc in Hone.
  change (step (Create socketId languageCode) (run evs initial))
    with (createRecognizeStream socketId languageCode (run evs initial)).1 in Hone.
  cbv zeta in Hres.
  destruct (createRecognizeStream socketId languageCode (run evs initial)) as [sv' s].
  simpl in Hone.
  destruct Hres as (Hs & Hstreams & Hmap & Hentry & _).
  assert (streams sv' !! s =
            Some (mkStream socketId languageCode
                    (length (infos (cleanup socketId (run evs initial)))) false true []))
    as Hlook by (rewrite Hstreams, Hs; by apply list_lookup_middle).
  split; [| split].
  - apply singleton_of_short; [| exact Hone].
    unfold live_handles. apply list_elem_of_filter. split.
    + unfold is_live. rewrite Hlook. simpl. by rewrite bool_decide_eq_true_2.
    + apply elem_of_seq. apply lookup_lt_Some in Hlook. lia.
  - eauto.
  - eexists. split; [| exact Hentry]. rewrite Hmap. apply lookup_insert_eq.
Qed.

Lemma create_other_live socketId languageCode other sv :
  entries_own sv → other ≠ socketId →
  live_handles (createRecognizeStream socketId languageCode sv).1 other
    = live_handles sv other.
Proof.
  intros Hown Hne.
  pose proof (createRecognizeStream_result socketId languageCode sv) as Hres.
  cbv zeta in Hres.
  destruct (createRecognizeStream socketId languageCode sv) as [sv' s]. simpl.
  destruct Hres as (Hs & Hstreams & _).
  rewrite <- (live_handles_ext sv (cleanup socketId sv) other
                (cleanup_length socketId sv) (cleanup_other_live socketId other sv Hown Hne)).
  unfold live_handles. rewrite Hstreams, length_app. simpl.
  rewrite seq_app, filter_app. simpl.
  rewrite filter_cons_False, filter_nil, app_nil_r.
  - apply list_filter_iff. intros x.
    unfold is_live. rewrite Hstreams.
    destruct (decide (x < length (streams (cleanup socketId sv)))) as [Hlt | Hge].
    + by rewrite lookup_app_l.
    + rewrite (lookup_ge_None_2 (streams (cleanup socketId sv)) x) by lia.
      destruct (decide (x = length (streams (cleanup socketId sv)))) as [-> | Hx].
      * rewrite list_lookup_middle by done. simpl.
        by rewrite bool_decide_eq_false_2.
      * rewrite lookup_ge_None_2; [done |]. rewrite length_app. simpl. lia.
  - unfold is_live. rewrite Hstreams, list_lookup_middle by done. simpl.
    rewrite bool_decide_eq_false_2 by done. done.
Qed.

(** Sessions of different sockets do not interfere.  In every reachable
    state, tearing down or (re)creating the session of one socket leaves
    the registry entry of any other socket, the object it points to and
    its live streams as they were. *)
Theorem sessions_are_isolated (evs : list Event) (socketId other languageCode : string) :
  other ≠ socketId →
  let sv := run evs initial in
  (recognizeStreams (cleanup socketId sv) !! other = recognizeStreams sv !! other ∧
   live_handles (cleanup socketId sv) other = live_handles sv other ∧
   (∀ r, deref r (cleanup socketId sv) = deref r sv)) ∧
  (let sv' := (createRecognizeStream socketId languageCode sv).1 in
   recognizeStreams sv' !! other = recognizeStreams sv !! other ∧
   live_handles sv' other = live_handles sv other ∧
   (∀ r, recognizeStreams sv !! other = Some r → deref r sv' = deref r sv)).
Proof.
  intros Hne sv.
  destruct (run_consistent evs initial initial_consistent) as (_ & Hbare & Hown).
  fold sv in Hbare, Hown.
  destruct (cleanup_shape socketId sv) as (Hin & Hmap & _).
  split.
  - split; [| split].
    + rewrite Hmap. by apply lookup_delete_ne.
    + apply live_handles_ext; [apply cleanup_length |].
      by apply cleanup_other_live.
    + intros r. unfold deref. by rewrite Hin.
  - cbv zeta.
    pose proof (createRecognizeStream_result socketId languageCode sv) as Hres.
    pose proof (create_other_live socketId languageCode other sv Hown Hne) as Hlive.
    cbv zeta in Hres.
    destruct (createRecognizeStream socketId languageCode sv) as [sv' s].
    cbn [fst] in *. destruct Hres as (_ & _ & Hmap' & _ & _ & _ & Hderef).
    split; [| split].
    + rewrite Hmap', lookup_insert_ne by done. rewrite Hmap. by apply lookup_delete_ne.
    + exact Hlive.
    + intros r Hr. destruct (proj1 Hbare other r Hr) as [Hlt _].
      rewrite Hderef by (rewrite Hin; lia).
      unfold deref. by rewrite Hin.
Qed.

Lemma sessions_are_isolated_witness :
  let sv := run [Create "p" "en-US"; Create "q" "en-US"; Bind "q" "q"] initial in
  live_handles (cleanup "p" sv) "q" = live_handles sv "q" ∧
  live_handles (createRecognizeStream "p" "fr-FR" sv).1 "q" = live_handles sv "q".
Proof.
  cbv zeta.
  pose proof (sessions_are_isolated [Create "p" "en-US"; Create "q" "en-US"; Bind "q" "q"]
                "p" "q" "fr-FR") as Hthm.
  destruct Hthm as [(_ & Hclean & _) (_ & Hcreate & _)]; [discriminate |].
  split; [exact Hclean | exact Hcreate].
Defined.



(** Audio reaches only the stream of the socket it came from: in every
    reachable state, [processAudio] for one socket leaves every stream
    that was created for another socket exactly as it was, and it never
    touches registry, timers or transcripts. *)
Theorem audio_stays_on_its_own_stream (evs : list Event) (socketId : string)
    (data : AudioData) :
  let sv := run evs initial in
  let sv' := processAudio socketId data sv in
  recognizeStreams sv' = recognizeStreams sv ∧ infos sv' = infos sv ∧
  timers sv' = timers sv ∧ transcripts sv' = transcripts sv ∧
  ∀ (s : nat) (rs : RecognizeStream),
    streams sv !! s = Some rs → rs_socketId rs ≠ socketId → streams sv' !! s = Some rs.
Proof.
  intros sv sv'.
  destruct (run_consistent evs initial initial_consistent) as (_ & _ & Hown).
  fold sv in Hown. subst sv'. unfold processAudio.
  destruct (recognizeStreams sv !! socketId) as [r|] eqn:Hmap; [| done].
  destruct (stream (deref r sv)) as [s0|] eqn:Hs0; [| done].
  destruct (streams sv !! s0) as [rs0|] eqn:Hrs0; [| done].
  destruct (negb (writable rs0)); [done |].
  destruct (normalize (buffer data)) as [audioBuffer| |]; [| done | done].
  destruct (Hown socketId r s0 Hmap Hs0) as (rs0' & Hrs0' & Hkey).
  assert (rs0' = rs0) as -> by congruence.
  assert (∀ s rs, streams sv !! s = Some rs → rs_socketId rs ≠ socketId → s ≠ s0) as Hother.
  { intros s rs Hrs Hne ->. congruence. }
  destruct (isFinal data); case_decide; simpl; repeat split; try done;
    intros s rs Hrs Hne; pose proof (Hother s rs Hrs Hne);
    rewrite ?list_lookup_alter_ne by done; done.
Qed.

Lemma audio_stays_on_its_own_stream_witness :
  let sv := run [Create "p" "en-US"; Create "q" "en-US"] initial in
  streams (processAudio "p" (mkAudioData (NumericArray [5%Z]) true) sv) !! 1
    = Some (mkStream "q" "en-US" 2 false true []).
Proof.
  cbv zeta.
  apply (proj2 (proj2 (proj2 (proj2
           (audio_stays_on_its_own_stream [Create "p" "en-US"; Create "q" "en-US"] "p"
              (mkAudioData (NumericArray [5%Z]) true)))))).
  - reflexivity.
  - simpl. discriminate.
Defined.

Lemma socket_alter_info (f : StreamInfo → StreamInfo) (l : list StreamInfo) (i r : nat) :
  (∀ x, socket (f x) = socket x) →
  socket (default blank (alter f i l !! r)) = socket (default blank (l !! r)).
Proof.
  intros Hf. destruct (decide (i = r)) as [-> | Hne].
  - rewrite list_lookup_alter_eq. destruct (l !! r); simpl; [apply Hf | done].
  - by rewrite list_lookup_alter_ne.
Qed.

Lemma setupRestartTimer_frame r socketId languageCode sv :
  let sv' := setupRestartTimer r socketId languageCode sv in
  recognizeStreams sv' = recognizeStreams sv ∧ streams sv' = streams sv ∧
  transcripts sv' = transcripts sv ∧
  ∀ r', socket (deref r' sv') = socket (deref r' sv).
Proof.
  cbv zeta. unfold setupRestartTimer, deref. simpl.
  destruct (restartTimer (default blank (infos sv !! r))); simpl;
    repeat split; intros r'; by rewrite socket_alter_info.
Qed.

Lemma on_data_transcripts rs data sv :
  transcripts (on_data rs data sv) =
    match data, recognizeStreams sv !! rs_socketId rs with
    | Some result, Some r =>
        match socket (deref r sv) with
        | Some sock => transcripts sv ++ [(sock, result)]
        | None => transcripts sv
        end
    | _, _ => transcripts sv
    end.
Proof.
  unfold on_data.
  destruct (setupRestartTimer_frame (rs_streamInfo rs) (rs_socketId rs) (rs_languageCode rs) sv)
    as (Hmap & _ & Htr & Hsock).
  destruct data as [result|]; [| exact Htr].
  rewrite Hmap. destruct (recognizeStreams sv !! rs_socketId rs) as [r|]; [| exact Htr].
  rewrite Hsock. destruct (socket (deref r sv)); [| exact Htr].
  unfold with_transcripts. cbn [transcripts]. by rewrite Htr.
Qed.

Lemma createRecognizeStream_transcripts socketId languageCode sv :
  transcripts (createRecognizeStream socketId languageCode sv).1 = transcripts sv.
Proof. simpl. apply cleanup_transcripts. Qed.

Lemma processAudio_transcripts socketId data sv :
  transcripts (processAudio socketId data sv) = transcripts sv.
Proof.
  unfold processAudio.
  destruct (recognizeStreams sv !! socketId) as [r|]; [| done].
  destruct (stream (deref r sv)) as [s0|]; [| done].
  destruct (streams sv !! s0) as [rs0|]; [| done].
  destruct (negb (writable rs0)); [done |].
  destruct (normalize (buffer data)) as [audioBuffer| |]; [| done | done].
  by destruct (isFinal data); case_decide.
Qed.

Lemma step_transcripts (ev : Event) (sv : Service) :
  transcripts (step ev sv) = transcripts sv ∨
  ∃ (s : nat) (rs : RecognizeStream) (result : Result) (r : nat) (sock : string),
    ev = StreamData s (Some result) ∧
    streams sv !! s = Some rs ∧ destroyed rs = false ∧
    recognizeStreams sv !! rs_socketId rs = Some r ∧
    socket (deref r sv) = Some sock ∧
    transcripts (step ev sv) = transcripts sv ++ [(sock, result)].
Proof.
  destruct ev as [k l | k sock | k data | k | s data | s | t]; cbn [step].
  - left. apply createRecognizeStream_transcripts.
  - left. unfold bindSocketToStream.
    destruct (recognizeStreams sv !! k) as [r|]; [done |].
    destruct (recognizeStreams (createRecognizeStream k "en-US" sv).1 !! k);
      [unfold with_infos; cbn [transcripts] |]; apply createRecognizeStream_transcripts.
  - left. apply processAudio_transcripts.
  - left. apply cleanup_transcripts.
  - destruct (streams sv !! s) as [rs|] eqn:Hrs; [| by left].
    destruct (destroyed rs) eqn:Hd; [by left |].
    rewrite on_data_transcripts.
    destruct data as [result|]; [| by left].
    destruct (recognizeStreams sv !! rs_socketId rs) as [r|] eqn:Hmap; [| by left].
    destruct (socket (deref r sv)) as [sock|] eqn:Hsock; [| by left].
    right. by exists s, rs, result, r, sock.
  - left. destruct (streams sv !! s) as [rs|]; [| done].
    destruct (destroyed rs); [done |]. apply createRecognizeStream_transcripts.
  - left. destruct (timers sv !! t) as [tm|]; [| done].
    destruct (tm_state tm); [| done | done].
    unfold on_timeout. by rewrite createRecognizeStream_transcripts.
Qed.

(** Transcripts follow provider results.  Over any run, from any state,
    the transcripts sent are those sent before followed by new ones, and
    the results the new ones carry are a subsequence, in arrival order, of
    the results the provider delivered in ['data'] events: nothing is
    sent that the provider did not deliver, nothing is sent twice, and
    nothing overtakes an earlier result. *)
Theorem transcripts_follow_results (evs : list Event) (sv : Service) :
  ∃ new : list (string * Result),
    transcripts (run evs sv) = transcripts sv ++ new ∧
    map snd new `sublist_of` results_of evs.
Proof.
  revert sv. induction evs as [|ev evs IH]; intros sv.
  - exists []. by rewrite app_nil_r.
  - destruct (IH (step ev sv)) as (new & Hnew & Hsub).
    change (run (ev :: evs) sv) with (run evs (step ev sv)).
    destruct (step_transcripts ev sv)
      as [Heq | (s & rs & result & r & sock & -> & _ & _ & _ & _ & Heq)].
    + exists new. rewrite Hnew, Heq. split; [done |].
      unfold results_of in *. cbn [flat_map]. by apply sublist_inserts_l.
    + exists ((sock, result) :: new). rewrite Hnew, Heq, <- app_assoc. split; [done |].
      unfold results_of in *. cbn [flat_map app map snd]. by apply sublist_skip.
Qed.

(** A restart drops the socket binding.  [createRecognizeStream] files a
    new entry with no socket, and nothing but [bindSocketToStream] sets
    one; so after the restart timer has fired, or after a stream error
    has been recovered, results that arrive for that socket emit no
    transcript. *)
Theorem restart_loses_socket_binding (sv : Service) :
  (∀ (t : nat) (tm : Timer) (s : nat) (rs : RecognizeStream) (data : option Result),
      timers sv !! t = Some tm → tm_state tm = pending →
      let sv' := step (TimerFires t) sv in
      streams sv' !! s = Some rs → rs_socketId rs = tm_socketId tm →
      transcripts (step (StreamData s data) sv') = transcripts sv') ∧
  (∀ (s0 : nat) (rs0 : RecognizeStream) (s : nat) (rs : RecognizeStream) (data : option Result),
      streams sv !! s0 = Some rs0 → destroyed rs0 = false →
      let sv' := step (StreamError s0) sv in
      streams sv' !! s = Some rs → rs_socketId rs = rs_socketId rs0 →
      transcripts (step (StreamData s data) sv') = transcripts sv').
Proof.
  assert (∀ k l sv0 s rs data,
            let sv' := (createRecognizeStream k l sv0).1 in
            streams sv' !! s = Some rs → rs_socketId rs = k →
            transcripts (step (StreamData s data) sv') = transcripts sv') as Hcreate.
  { intros k l sv0 s rs data sv' Hrs Hkey.
    cbn [step]. rewrite Hrs.
    destruct (destroyed rs); [done |]. rewrite on_data_transcripts.
    destruct data as [result|]; [| done].
    pose proof (createRecognizeStream_result k l sv0) as Hres. cbv zeta in Hres.
    subst sv'. destruct (createRecognizeStream k l sv0) as [sv1 s1].
    cbn [fst] in *. destruct Hres as (_ & _ & Hmap & Hentry & _).
    rewrite Hkey, Hmap, lookup_insert_eq, Hentry. done. }
  split.
  - intros t tm s rs data Htm Hpending sv' Hrs Hkey. subst sv'.
    cbn [step] in *. rewrite Htm, Hpending in *. unfold on_timeout in *.
    by apply (Hcreate (tm_socketId tm) (tm_languageCode tm) _ s rs data).
  - intros s0 rs0 s rs data Hrs0 Hd sv' Hrs Hkey. subst sv'.
    cbn [step] in *. rewrite Hrs0, Hd in *. unfold on_error in *.
    by apply (Hcreate (rs_socketId rs0) (rs_languageCode rs0) _ s rs data).
Qed.

Lemma restart_loses_socket_binding_witness :
  let result := mkResult false "hello" 0 0 in
  let sv := run [Create "p" "en-US"; Bind "p" "p"; StreamData 0 (Some result)] initial in
  let sv' := step (TimerFires 0) sv in
  transcripts sv = [("p", result)] ∧
  transcripts (step (StreamData 1 (Some result)) sv') = transcripts sv'.
Proof.
  cbv zeta. split; [reflexivity |].
  apply (proj1 (restart_loses_socket_binding
                  (run [Create "p" "en-US"; Bind "p" "p";
                        StreamData 0 (Some (mkResult false "hello" 0 0))] initial))
           0 (mkTimer "p" "en-US" pending) 1 (mkStream "p" "en-US" 2 false true []));
    reflexivity.
Defined.
End service_extras.

(** ** Further properties of the session registry *)

Section server_extras.
Import Server ServerInv.

Lemma set_add_NoDup id room : NoDup room → NoDup (set_add id room).
Proof.
  intros Hnd. unfold set_add. case_decide as Hin; [done |].
  apply NoDup_app. repeat split; [done | | apply NoDup_singleton].
  intros x Hx Hx'. apply list_elem_of_singleton in Hx'. by subst.
Qed.

Lemma set_add_not_nil id room : set_add id room ≠ [].
Proof.
  unfold set_add. case_decide as Hin.
  - intros ->. by apply not_elem_of_nil in Hin.
  - by destruct room.
Qed.

Lemma members_wf rooms : room_wf rooms → NoDup (members rooms DEFAULT_ROOM).
Proof.
  intros Hwf. unfold members.
  destruct (rooms !! DEFAULT_ROOM) as [room|] eqn:Hroom; [| apply NoDup_nil_2].
  by apply Hwf.
Qed.

Lemma handle_wf id req rooms : room_wf rooms → room_wf (handle id req rooms).1.
Proof.
  intros Hwf. destruct req as [|k p|]; simpl; [| done |].
  - unfold on_join. case_decide; [done |].
    assert (room_wf (socket_join id DEFAULT_ROOM rooms)) as Hwf'.
    { intros room Hroom. unfold socket_join in Hroom.
      rewrite lookup_insert_eq in Hroom. simplify_eq.
      split; [apply set_add_NoDup, members_wf, Hwf | apply set_add_not_nil]. }
    by case_decide.
  - intros room Hroom. unfold socket_leave in Hroom.
    destruct (rooms !! DEFAULT_ROOM) as [old|] eqn:Hold; [| by rewrite Hold in Hroom].
    destruct (filter (λ x, x ≠ id) old) as [|y rest] eqn:Hf.
    + by rewrite lookup_delete_eq in Hroom.
    + rewrite lookup_insert_eq in Hroom. simplify_eq.
      split; [| done]. rewrite <- Hf. apply NoDup_filter. by apply (Hwf old).
Qed.

Lemma run_wf reqs rooms : room_wf rooms → room_wf (run reqs rooms).1.
Proof.
  revert rooms. induction reqs as [|[id req] rest IH]; intros rooms Hwf; [done |].
  simpl. pose proof (handle_wf id req rooms Hwf) as Hstep.
  destruct (handle id req rooms) as [rooms' out]. simpl in Hstep.
  specialize (IH rooms' Hstep). by destruct (run rest rooms') as [rooms'' out'].
Qed.

(** The room stays a set.  Whatever requests have been handled, the
    default room lists no socket twice, so its size counts distinct
    sockets, and it is never kept empty. *)
Theorem room_stays_a_set (reqs : list (SocketId * Request)) :
  room_wf (run reqs ∅).1 ∧ NoDup (members (run reqs ∅).1 DEFAULT_ROOM).
Proof.
  assert (room_wf (run reqs ∅).1) as Hwf.
  { apply run_wf. intros room Hroom. by rewrite lookup_empty in Hroom. }
  split; [done | by apply members_wf].
Qed.

Lemma members_leave id rooms :
  members (socket_leave id DEFAULT_ROOM rooms) DEFAULT_ROOM
    = filter (λ x, x ≠ id) (members rooms DEFAULT_ROOM).
Proof.
  unfold socket_leave, members.
  destruct (rooms !! DEFAULT_ROOM) as [room|] eqn:Hroom; simpl; [| by rewrite Hroom].
  destruct (filter (λ x, x ≠ id) room) as [|y rest] eqn:Hf.
  - by rewrite lookup_delete_eq.
  - by rewrite lookup_insert_eq.
Qed.

Lemma filter_ne_id (id : SocketId) (l : list SocketId) :
  id ∉ l → filter (λ x, x ≠ id) l = l.
Proof.
  induction l as [|y l IH]; intros Hnotin; [done |].
  apply not_elem_of_cons in Hnotin as [Hne Hnotin].
  rewrite filter_cons_True by done. by rewrite IH.
Qed.

(** A disconnect, of a member or of a socket that was never admitted:
    the socket is not in the room afterwards, every other member stays,
    in the same order, and each remaining member is sent exactly one
    [peer_disconnected]; nothing else is sent. *)
Theorem disconnect_notifies_the_room (rooms : Rooms) (id : SocketId) :
  let '(rooms', out) := handle id disconnect rooms in
  members rooms' DEFAULT_ROOM = filter (λ x, x ≠ id) (members rooms DEFAULT_ROOM) ∧
  (id ∉ members rooms' DEFAULT_ROOM) ∧
  out = map (λ r, (r, peer_disconnected)) (members rooms' DEFAULT_ROOM).
Proof.
  simpl. unfold socket_to_emit. rewrite members_leave.
  assert (id ∉ filter (λ x, x ≠ id) (members rooms DEFAULT_ROOM)) as Hnotin.
  { intros Hin. apply list_elem_of_filter in Hin as [Hne _]. done. }
  repeat split; [done |]. by rewrite filter_ne_id.
Qed.

Lemma members_handle_other id id' req rooms :
  id' ≠ id ∨ req ≠ disconnect →
  id ∈ members rooms DEFAULT_ROOM → id ∈ members (handle id' req rooms).1 DEFAULT_ROOM.
Proof.
  intros Hok Hin. destruct req as [|k p|]; simpl; [| done |].
  - unfold on_join. case_decide; [done |].
    assert (id ∈ members (socket_join id' DEFAULT_ROOM rooms) DEFAULT_ROOM) as Hin'.
    { unfold socket_join. rewrite members_insert. unfold set_add.
      case_decide; [done |]. apply elem_of_app. by left. }
    by case_decide.
  - destruct Hok as [Hne | Hne]; [| done].
    rewrite members_leave. apply list_elem_of_filter. split; [| done]. congruence.
Qed.

(** Nobody can remove somebody else from the room.  A member stays a
    member through any sequence of requests, from any sockets, that does
    not contain its own disconnect. *)
Theorem member_stays_until_it_disconnects (reqs : list (SocketId * Request))
    (rooms : Rooms) (id : SocketId) :
  stays id reqs →
  id ∈ members rooms DEFAULT_ROOM → id ∈ members (run reqs rooms).1 DEFAULT_ROOM.
Proof.
  revert rooms. induction reqs as [|[id' req] rest IH]; intros rooms Hstays Hin; [done |].
  simpl.
  assert (id ∈ members (handle id' req rooms).1 DEFAULT_ROOM) as Hstep.
  { apply members_handle_other; [| done].
    destruct (decide (id' = id)) as [-> | Hne]; [right | by left].
    apply Hstays. by left. }
  destruct (handle id' req rooms) as [rooms' out]. simpl in Hstep.
  assert (stays id rest) as Hrest.
  { intros r Hr. apply Hstays. by right. }
  specialize (IH rooms' Hrest Hstep). by destruct (run rest rooms') as [rooms'' out'].
Qed.

Lemma member_stays_until_it_disconnects_witness :
  "a" ∈ members
    (run [("b", join); ("c", join); ("b", disconnect); ("a", join); ("c", disconnect)]
       (<[DEFAULT_ROOM := ["a"]]> ∅)).1 DEFAULT_ROOM.
Proof.
  apply member_stays_until_it_disconnects.
  - intros req Hin. repeat (apply elem_of_cons in Hin as [Heq | Hin]; [by simplify_eq |]).
    by apply not_elem_of_nil in Hin.
  - vm_compute. by left.
Defined.

(** Joining and leaving cancel out.  For a socket that is not in the room
    and a room that is not full, a join followed by the disconnect of the
    same socket gives back the rooms as they were. *)
Theorem join_then_disconnect_restores_the_room (rooms : Rooms) (id : SocketId) :
  room_wf rooms →
  id ∉ members rooms DEFAULT_ROOM →
  getRoomSize rooms DEFAULT_ROOM < 2 →
  (handle id disconnect (handle id join rooms).1).1 = rooms.
Proof.
  intros Hwf Hnotin Hsize.
  assert ((handle id join rooms).1 = socket_join id DEFAULT_ROOM rooms) as ->.
  { simpl. unfold on_join. case_decide; [lia |]. by case_decide. }
  simpl. unfold socket_leave, socket_join. rewrite lookup_insert_eq.
  unfold set_add. rewrite decide_False by done.
  rewrite filter_app, filter_ne_id by done.
  rewrite filter_cons_False, filter_nil, app_nil_r by (intros Hne; by apply Hne).
  unfold members in *.
  destruct (rooms !! DEFAULT_ROOM) as [room|] eqn:Hroom; simpl.
  - destruct (Hwf room Hroom) as [_ Hne].
    destruct room as [|y room]; [done |].
    rewrite insert_insert_eq. by apply insert_id.
  - by apply delete_insert_id.
Qed.

Lemma join_then_disconnect_restores_the_room_witness :
  (handle "b" disconnect (handle "b" join (<[DEFAULT_ROOM := ["a"]]> ∅)).1).1
    = <[DEFAULT_ROOM := ["a"]]> ∅.
Proof.
  apply join_then_disconnect_restores_the_room.
  - intros room Hroom. rewrite lookup_insert_eq in Hroom. simplify_eq.
    split; [apply NoDup_singleton | done].
  - vm_compute. intros Hin. apply list_elem_of_singleton in Hin. discriminate.
  - vm_compute. lia.
Defined.
End server_extras.

(** ** Further properties of the browser client *)

Section client_extras.
Import RTCPeerConnection Client.
Context `{UserAgent}.

Lemma console_write_ok l msg st : (console_write l msg st).2 = inr ().
Proof. reflexivity. Qed.

Lemma try_catch_log_ok (body : Js unit) msg st :
  (try_catch body (λ _, console_write error msg) st).2 = inr ().
Proof.
  unfold try_catch. destruct (body st) as [st' [e | []]]; reflexivity.
Qed.

(** The bodies of the handlers, entered with an object as payload,
    complete normally. *)
Lemma handlers_complete (payload : Payload) (st : State) :
  (on_signal_offer payload st).2 = inr () ∧
  (on_signal_answer payload st).2 = inr () ∧
  (on_signal_ice_candidate payload st).2 = inr () ∧
  (on_initiate st).2 = inr ().
Proof.
  repeat split.
  - unfold on_signal_offer. unfold mbind at 1, Js_bind. simpl.
    destruct (sdp payload); [apply try_catch_log_ok | reflexivity].
  - unfold on_signal_answer. unfold mbind at 1, Js_bind. simpl.
    destruct (sdp payload); [| reflexivity].
    unfold try_finally.
    match goal with |- context [try_catch ?b ?h ?s] =>
      pose proof (try_catch_log_ok b "Error applying remote answer" s) as Hok;
      destruct (try_catch b h s) as [st' r] end.
    simpl in *. by subst.
  - unfold on_signal_ice_candidate. unfold mbind at 1, Js_bind. simpl.
    apply try_catch_log_ok.
  - unfold on_initiate. unfold mbind at 1, Js_bind. simpl.
    apply try_catch_log_ok.
Qed.

(** Which listener can let an exception escape.  For every state of the
    page and every argument, [null] and [undefined] included, the
    [initiate], [signal:offer] and [signal:answer] listeners complete
    normally: whatever goes wrong inside is caught and logged.  The
    [signal:ice-candidate] listener completes normally on every argument
    that is not [null] or [undefined], with or without a candidate; on
    [null] or [undefined] it rejects with a [TypeError], before it has
    logged or changed anything, because its parameter is destructured
    outside its [try]. *)
Theorem only_a_nullish_candidate_argument_rejects (arg : Listener.Arg) (st : State) :
  (on_initiate st).2 = inr () ∧
  (Listener.signal_offer arg st).2 = inr () ∧
  (Listener.signal_answer arg st).2 = inr () ∧
  (∀ payload, arg = Listener.object payload →
              (Listener.signal_ice_candidate arg st).2 = inr ()) ∧
  (arg = Listener.nullish → Listener.signal_ice_candidate arg st = (st, inl TypeError)) ∧
  ((Listener.signal_ice_candidate arg st).2 = inl TypeError ↔ arg = Listener.nullish).
Proof.
  destruct (handlers_complete (Listener.optional arg) st) as (Hoffer & Hanswer & _ & Hinit).
  split; [exact Hinit |]. split; [exact Hoffer |]. split; [exact Hanswer |].
  destruct arg as [|payload]; cbn [Listener.signal_ice_candidate].
  - split; [intros payload [=] |]. split; [done |]. done.
  - destruct (handlers_complete payload st) as (_ & _ & Hice & _).
    split; [intros _ _; exact Hice |]. split; [intros [=] |].
    rewrite Hice. split; intros [=].
Qed.

(** [makeOffer].  The [makingOffer] flag is down again when it returns,
    whether it succeeded or threw.  From a connection that is not handling
    a remote offer it sets a new local offer, moves to [have_local_offer]
    and sends exactly that offer; with no connection, or in
    [have_remote_offer], it throws and neither the connection nor the
    outgoing events change. *)
Theorem makeOffer_outcome (st : State) :
  makingOffer (makeOffer st).1 = false ∧
  (∀ p, pc st = Some p → signalingState p ≠ have_remote_offer →
        let d := mkDesc offer (generate_sdp offer) in
        (makeOffer st).2 = inr () ∧
        pc (makeOffer st).1
          = Some (mk have_local_offer (Some d) (remoteDescription p) (remoteCandidates p)) ∧
        emitted (makeOffer st).1 = emitted st ++ [(Offer, mkPayload (Some d) None)]) ∧
  ((pc st = None ∨ ∃ p, pc st = Some p ∧ signalingState p = have_remote_offer) →
   (∃ e, (makeOffer st).2 = inl e) ∧
   pc (makeOffer st).1 = pc st ∧ emitted (makeOffer st).1 = emitted st).
Proof.
  split; [| split].
  - unfold makeOffer, try_finally, mbind, Js_bind, set_makingOffer, console_write,
      pc_query, pc_update, the_pc, socket_emit, createOffer, setLocalDescription.
    cbn. destruct (pc st) as [p|]; cbn; [destruct (signalingState p) |]; reflexivity.
  - intros p Hpc Hne d.
    unfold makeOffer, try_finally, mbind, Js_bind, set_makingOffer, console_write,
      pc_query, pc_update, the_pc, socket_emit, createOffer, setLocalDescription.
    cbn. rewrite Hpc. cbn.
    destruct (signalingState p); [| | contradiction]; cbn; by repeat split.
  - intros Hbad.
    unfold makeOffer, try_finally, mbind, Js_bind, set_makingOffer, console_write,
      pc_query, pc_update, the_pc, socket_emit, createOffer, setLocalDescription.
    cbn. destruct Hbad as [Hnone | (p & Hpc & Hs)].
    + rewrite Hnone. cbn. eauto.
    + rewrite Hpc. cbn. rewrite Hs. cbn. eauto.
Qed.


(** The answer to an outstanding offer is applied: in [have_local_offer]
    an answer the browser accepts becomes the remote description, the
    connection is [stable] again, the local offer and the candidates are
    kept, and nothing is sent. *)
Theorem solicited_answer_is_applied (st : State) (p : RTCPeerConnection.t)
    (d : SessionDescription) (cand : option string) :
  pc st = Some p → signalingState p = have_local_offer →
  sd_type d = answer → sdp_parses d = true →
  settle (on_signal_answer (mkPayload (Some d) cand)) st =
    mkState (Some (mk stable (localDescription p) (Some d) (remoteCandidates p)))
      (makingOffer st) (ignoreOffer st) false
      (console st ++ [(log, "[client] received answer");
                      (log, "[client] applied remote answer")])
      (emitted st).
Proof.
  intros Hpc Hstate Hty Hok.
  unfold settle, on_signal_answer. cbn.
  unfold try_finally, try_catch, mbind, Js_bind, console_write, pc_update,
    set_isSettingRemoteAnswerPending. cbn.
  rewrite Hpc. cbn. unfold setRemoteDescription. rewrite Hty, Hstate, Hok. cbn.
  by rewrite <- app_assoc.
Qed.


Lemma ice_candidate_step st p c :
  pc st = Some p → is_Some (remoteDescription p) →
  ∃ st', deliver IceCandidate (mkPayload None (Some c)) st = st' ∧
         emitted st' = emitted st ∧
         pc st' = Some (mk (signalingState p) (localDescription p) (remoteDescription p)
                          (remoteCandidates p ++ (if candidate_parses c then [c] else []))).
Proof.
  intros Hpc [rd Hrd]. eexists. split; [reflexivity |].
  unfold deliver. rewrite (ice_candidate_result st p c None Hpc).
  unfold addIceCandidate. rewrite Hrd.
  destruct (candidate_parses c); cbn; [done |].
  rewrite app_nil_r, Hpc. split; [done |]. destruct p; simpl in *; by subst.
Qed.

(** Trickled candidates.  Once a remote description is set, the
    candidates the agent has been given are those that were there plus
    exactly the arriving ones that parse, in arrival order; a candidate
    that does not parse is logged and dropped without disturbing the
    others. *)
Theorem candidates_apply_in_arrival_order (cs : list string) (st : State)
    (p : RTCPeerConnection.t) :
  pc st = Some p → is_Some (remoteDescription p) →
  let st' := fold_left (λ st c, deliver IceCandidate (mkPayload None (Some c)) st) cs st in
  pc st' = Some (mk (signalingState p) (localDescription p) (remoteDescription p)
                   (remoteCandidates p ++ List.filter candidate_parses cs)) ∧
  emitted st' = emitted st.
Proof.
  revert st p. induction cs as [|c cs IH]; intros st p Hpc Hrd; cbv zeta;
    cbn [fold_left List.filter].
  - rewrite app_nil_r, Hpc. split; [| done]. by destruct p.
  - destruct (ice_candidate_step st p c Hpc Hrd) as (st1 & Hst1 & Hem & Hpc1).
    rewrite Hst1.
    destruct (IH st1 _ Hpc1 Hrd) as [Hpc' Hem']. cbn [remoteCandidates signalingState
      localDescription remoteDescription] in Hpc'.
    rewrite Hpc', Hem', Hem. split; [| done].
    rewrite <- app_assoc. by destruct (candidate_parses c).
Qed.
End client_extras.

Section client_extras_examples.
Import RTCPeerConnection Client.

Lemma makeOffer_outcome_witness :
  let st := mkState (Some create) false false false [] [] in
  pc (@makeOffer sample_agent st).1
    = Some (mk have_local_offer (Some (mkDesc offer "v=0 o=local offer")) None []).
Proof.
  cbv zeta.
  apply (proj1 (proj2 (proj1 (proj2 (@makeOffer_outcome sample_agent
           (mkState (Some create) false false false [] []))) create eq_refl
           ltac:(discriminate)))).
Defined.

Lemma solicited_answer_is_applied_witness :
  let off := mkDesc offer "v=0 o=local offer" in
  let ans := mkDesc answer "v=0 o=remote answer" in
  let st := mkState (Some (mk have_local_offer (Some off) None [])) false false false [] [] in
  pc (settle (@on_signal_answer sample_agent (mkPayload (Some ans) None)) st)
    = Some (mk stable (Some off) (Some ans) []).
Proof.
  cbv zeta.
  rewrite (@solicited_answer_is_applied sample_agent
             (mkState (Some (mk have_local_offer (Some (mkDesc offer "v=0 o=local offer"))
                               None [])) false false false [] [])
             (mk have_local_offer (Some (mkDesc offer "v=0 o=local offer")) None [])
             (mkDesc answer "v=0 o=remote answer") None eq_refl eq_refl eq_refl eq_refl).
  reflexivity.
Defined.

Lemma candidates_apply_in_arrival_order_witness :
  let rd := mkDesc offer "v=0 o=remote offer" in
  let st := mkState (Some (mk have_remote_offer None (Some rd) [])) false false false [] [] in
  pc (fold_left (λ st c, @deliver sample_agent IceCandidate (mkPayload None (Some c)) st)
        ["c1"; ""; "c2"] st)
    = Some (mk have_remote_offer None (Some rd) ["c1"; "c2"]).
Proof.
  cbv zeta.
  apply (proj1 (@candidates_apply_in_arrival_order sample_agent ["c1"; ""; "c2"]
                  (mkState (Some (mk have_remote_offer None
                                    (Some (mkDesc offer "v=0 o=remote offer")) []))
                     false false false [] [])
                  (mk have_remote_offer None (Some (mkDesc offer "v=0 o=remote offer")) [])
                  eq_refl ltac:(simpl; eauto))).
Defined.
End client_extras_examples.

(** ** The handshake end to end *)

Section session_extras.
Import RTCPeerConnection Session.

Lemma pump_split `{UserAgent} (n m : nat) queue sys :
  pump (n + m) queue sys = let '(sys', queue') := pump n queue sys in pump m queue' sys'.
Proof.
  revert queue sys. induction n as [|n IH]; intros queue sys; [done |].
  destruct queue as [|[id req] rest]; simpl.
  - by destruct m.
  - destruct (Server.handle id req (rooms sys)) as [rooms' out].
    destruct (deliver_all out (mkSystem rooms' (browsers sys))) as [sys' reqs].
    apply IH.
Qed.

(** Two pages load one after the other against an empty server.  When
    the browser accepts the offer and the answer it generates, serving
    the requests in order, with nothing else interleaved, ends with no
    request in flight, both sockets in the room, and both connections
    [stable]: the second page holds its own offer as local description and
    the first page's answer as remote description, the first page the
    converse.  (Each page sends [join] twice on load; the second join of
    the first page is answered [joined] again and that of the second page
    [room_full], neither disturbs the exchange.) *)
Theorem handshake_completes (ua : UserAgent) :
  sdp_parses (mkDesc offer (generate_sdp offer)) = true →
  sdp_parses (mkDesc answer (generate_sdp answer)) = true →
  let sys0 := mkSystem ∅ (<["a" := fresh_page]> (<["b" := fresh_page]> ∅)) in
  let off := mkDesc offer (generate_sdp offer) in
  let ans := mkDesc answer (generate_sdp answer) in
  ∃ sys, pump 8 (page_load "a" ++ page_load "b") sys0 = (sys, []) ∧
         Server.members (rooms sys) Server.DEFAULT_ROOM = ["a"; "b"] ∧
         Client.pc <$> browsers sys !! "a" = Some (Some (mk stable (Some ans) (Some off) [])) ∧
         Client.pc <$> browsers sys !! "b" = Some (Some (mk stable (Some off) (Some ans) [])) ∧
         Client.emitted <$> browsers sys !! "a" = Some [(Answer, mkPayload (Some ans) None)] ∧
         Client.emitted <$> browsers sys !! "b" = Some [(Offer, mkPayload (Some off) None)].
Proof.
  intros Hoff Hans. cbv zeta.
  change 8 with (4 + (1 + (1 + 2))).
  rewrite pump_split.
  destruct ua as [parses cparses gen]. cbn [sdp_parses generate_sdp] in *.
  match goal with |- context [@pump ?u 4 ?q ?s] =>
    eassert (@pump u 4 q s = _) as Hstage;
      [vm_compute; reflexivity | rewrite Hstage; clear Hstage] end.
  rewrite pump_split.
  match goal with |- context [@pump ?u 1 ?q ?s] =>
    eassert (@pump u 1 q s = _) as Hstage;
      [vm_compute; rewrite Hoff; vm_compute; reflexivity | rewrite Hstage; clear Hstage] end.
  rewrite pump_split.
  match goal with |- context [@pump ?u 1 ?q ?s] =>
    eassert (@pump u 1 q s = _) as Hstage;
      [vm_compute; rewrite Hans; vm_compute; reflexivity | rewrite Hstage; clear Hstage] end.
  eexists. split; [reflexivity |].
  vm_compute. repeat split.
Qed.

Lemma handshake_completes_witness :
  ∃ sys, @pump sample_agent 8 (page_load "a" ++ page_load "b")
           (mkSystem ∅ (<["a" := fresh_page]> (<["b" := fresh_page]> ∅))) = (sys, []) ∧
         Server.members (rooms sys) Server.DEFAULT_ROOM = ["a"; "b"] ∧
         Client.pc <$> browsers sys !! "a"
           = Some (Some (mk stable (Some (mkDesc answer "v=0 o=local answer"))
                           (Some (mkDesc offer "v=0 o=local offer")) [])) ∧
         Client.pc <$> browsers sys !! "b"
           = Some (Some (mk stable (Some (mkDesc offer "v=0 o=local offer"))
                           (Some (mkDesc answer "v=0 o=local answer")) [])) ∧
         Client.emitted <$> browsers sys !! "a"
           = Some [(Answer, mkPayload (Some (mkDesc answer "v=0 o=local answer")) None)] ∧
         Client.emitted <$> browsers sys !! "b"
           = Some [(Offer, mkPayload (Some (mkDesc offer "v=0 o=local offer")) None)].
Proof. apply (handshake_completes sample_agent); reflexivity. Defined.

(** A member that stayed can pair again.  From the state the handshake
    leaves, the second page disconnects and a new page loads: the member
    that stayed is told [peer_disconnected], the newcomer is told to
    initiate, and the exchange completes between the two, the member that
    stayed taking the newcomer's offer as its remote description. *)
Theorem replacement_peer_pairs_with_the_member_that_stayed (ua : UserAgent) :
  sdp_parses (mkDesc offer (generate_sdp offer)) = true →
  sdp_parses (mkDesc answer (generate_sdp answer)) = true →
  let off := mkDesc offer (generate_sdp offer) in
  let ans := mkDesc answer (generate_sdp answer) in
  let paired := mkState_of_pair off ans in
  ∃ sys, pump 8 ([("b", Server.disconnect)] ++ page_load "c") paired = (sys, []) ∧
         Server.members (rooms sys) Server.DEFAULT_ROOM = ["a"; "c"] ∧
         Client.pc <$> browsers sys !! "a" = Some (Some (mk stable (Some ans) (Some off) [])) ∧
         Client.pc <$> browsers sys !! "c" = Some (Some (mk stable (Some off) (Some ans) [])) ∧
         (Client.warn, "[client] peer_disconnected")
           ∈ default [] (Client.console <$> browsers sys !! "a").
Proof.
  intros Hoff Hans. cbv zeta. unfold mkState_of_pair.
  change 8 with (3 + (1 + (1 + 3))).
  rewrite pump_split.
  destruct ua as [parses cparses gen]. cbn [sdp_parses generate_sdp] in *.
  match goal with |- context [@pump ?u 3 ?q ?s] =>
    eassert (@pump u 3 q s = _) as Hstage;
      [vm_compute; reflexivity | rewrite Hstage; clear Hstage] end.
  rewrite pump_split.
  match goal with |- context [@pump ?u 1 ?q ?s] =>
    eassert (@pump u 1 q s = _) as Hstage;
      [vm_compute; rewrite Hoff; vm_compute; reflexivity | rewrite Hstage; clear Hstage] end.
  rewrite pump_split.
  match goal with |- context [@pump ?u 1 ?q ?s] =>
    eassert (@pump u 1 q s = _) as Hstage;
      [vm_compute; rewrite Hans; vm_compute; reflexivity | rewrite Hstage; clear Hstage] end.
  eexists. split; [reflexivity |].
  vm_compute. repeat split. set_solver.
Qed.

Lemma replacement_peer_pairs_with_the_member_that_stayed_witness :
  ∃ sys, @pump sample_agent 8 ([("b", Server.disconnect)] ++ page_load "c")
           (mkState_of_pair (mkDesc offer "v=0 o=local offer")
              (mkDesc answer "v=0 o=local answer")) = (sys, []) ∧
         Server.members (rooms sys) Server.DEFAULT_ROOM = ["a"; "c"].
Proof.
  destruct (replacement_peer_pairs_with_the_member_that_stayed sample_agent eq_refl eq_refl)
    as (sys & Hrun & Hmembers & _).
  exists sys. split; [exact Hrun | exact Hmembers].
Defined.
End session_extras.

(** ** Sign predictions *)

Section asl_extras.

Lemma neighbours_snoc {A} (R : A → A → Prop) (l : list A) (x : A) :
  (∀ i a b, l !! i = Some a → l !! S i = Some b → R a b) →
  (∀ a, last l = Some a → R a x) →
  ∀ i a b, (l ++ [x]) !! i = Some a → (l ++ [x]) !! S i = Some b → R a b.
Proof.
  intros Hl Hlast i a b Ha Hb.
  apply lookup_snoc_Some in Hb as [[Hlt Hb] | [Hlen ->]].
  - rewrite lookup_app_l in Ha by lia. by apply (Hl i).
  - rewrite lookup_app_l in Ha by lia. apply Hlast.
    rewrite last_lookup. rewrite <- Hlen. exact Ha.
Qed.

Lemma neighbours_tail {A} (R : A → A → Prop) (l : list A) :
  (∀ i a b, l !! i = Some a → l !! S i = Some b → R a b) →
  ∀ i a b, tail l !! i = Some a → tail l !! S i = Some b → R a b.
Proof.
  intros Hl i a b Ha Hb. destruct l as [|y l]; simpl in *.
  - by rewrite lookup_nil in Ha.
  - by apply (Hl (S i)).
Qed.

Lemma tail_length {A} (l : list A) : length (tail l) = length l - 1.
Proof. destruct l; simpl; lia. Qed.

Lemma elem_of_tail {A} (l : list A) (x : A) : x ∈ tail l → x ∈ l.
Proof. destruct l; [done |]. simpl. by right. Qed.

Lemma slice_last_length {A} (n : nat) (l : list A) :
  length (Hearing.slice_last n l) ≤ n.
Proof. unfold Hearing.slice_last. rewrite length_drop. lia. Qed.

Lemma hearing_step_list p t st :
  Hearing.aslPredictions (Hearing.handleASLPrediction p t st) = Hearing.aslPredictions st ∨
  (p ≠ "" ∧
   (∀ a, last (Hearing.aslPredictions st) = Some a →
         ¬ (Hearing.text a = p ∧ (t - Hearing.time a < 1000)%Z)) ∧
   let pushed := Hearing.aslPredictions st ++ [Hearing.mkPrediction p t] in
   Hearing.aslPredictions (Hearing.handleASLPrediction p t st)
     = if decide (15 < length pushed) then tail pushed else pushed).
Proof.
  unfold Hearing.handleASLPrediction.
  case_decide as Hp; [by left |].
  destruct (last (Hearing.aslPredictions st)) as [lp|] eqn:Hlast.
  - destruct (bool_decide (t - Hearing.time lp < 1000)%Z
              && bool_decide (Hearing.text lp = p)) eqn:Hdup; [by left |].
    right. split; [done |]. split.
    + intros a Ha [Htext Htime]. simplify_eq.
      apply andb_false_iff in Hdup as [Hd | Hd]; apply bool_decide_eq_false in Hd; done.
    + cbv zeta. unfold Hearing.updateASLDisplay. simpl.
      destruct (Hearing.listEl st); simpl; by destruct (Hearing.avatar st).
  - right. split; [done |]. split; [done |].
    cbv zeta. unfold Hearing.updateASLDisplay. simpl.
    destruct (Hearing.listEl st); simpl; by destruct (Hearing.avatar st).
Qed.

(** The list of signs on the hearing page.  Through any sequence of
    predictions, at any times, the list never holds more than fifteen
    entries, never holds an empty prediction, and never holds the same
    sign twice in a row less than a second apart. *)
Theorem hearing_list_stays_bounded_and_spaced (inputs : list (string * Z))
    (st : Hearing.State) :
  length (Hearing.aslPredictions st) ≤ 15 →
  Hearing.spaced (Hearing.aslPredictions st) →
  (∀ a, a ∈ Hearing.aslPredictions st → Hearing.text a ≠ "") →
  let st' := Hearing.run inputs st in
  length (Hearing.aslPredictions st') ≤ 15 ∧
  Hearing.spaced (Hearing.aslPredictions st') ∧
  (∀ a, a ∈ Hearing.aslPredictions st' → Hearing.text a ≠ "").
Proof.
  revert st. induction inputs as [|[p t] inputs IH]; intros st Hlen Hsp Hne; [done |].
  cbv zeta. simpl. apply IH.
  - destruct (hearing_step_list p t st) as [-> | (_ & _ & ->)]; [done |].
    cbv zeta. case_decide as Hbig.
    + rewrite tail_length, length_app. simpl. lia.
    + lia.
  - destruct (hearing_step_list p t st) as [-> | (_ & Hlast & ->)]; [done |].
    cbv zeta.
    assert (Hearing.spaced (Hearing.aslPredictions st ++ [Hearing.mkPrediction p t])) as Hsp'.
    { unfold Hearing.spaced.
      apply (neighbours_snoc
               (λ a b, ¬ (Hearing.text a = Hearing.text b
                          ∧ (Hearing.time b - Hearing.time a < 1000)%Z))); [exact Hsp |].
      intros a Ha. simpl. by apply Hlast. }
    case_decide; [| done]. unfold Hearing.spaced.
    by apply (neighbours_tail
                (λ a b, ¬ (Hearing.text a = Hearing.text b
                           ∧ (Hearing.time b - Hearing.time a < 1000)%Z))).
  - destruct (hearing_step_list p t st) as [-> | (Hp & _ & ->)]; [done |].
    cbv zeta. intros a Ha.
    assert (a ∈ Hearing.aslPredictions st ++ [Hearing.mkPrediction p t]) as Hin
      by (case_decide; [by apply elem_of_tail | done]).
    apply elem_of_app in Hin as [Hin | Hin]; [by apply Hne |].
    apply list_elem_of_singleton in Hin. by subst.
Qed.

Lemma hearing_list_stays_bounded_and_spaced_witness :
  let st' := Hearing.run [("A", 0%Z); ("A", 500%Z); ("B", 600%Z); ("A", 700%Z)]
               (Hearing.mkState [] None None) in
  length (Hearing.aslPredictions st') ≤ 15 ∧ Hearing.spaced (Hearing.aslPredictions st').
Proof.
  cbv zeta.
  destruct (hearing_list_stays_bounded_and_spaced
              [("A", 0%Z); ("A", 500%Z); ("B", 600%Z); ("A", 700%Z)]
              (Hearing.mkState [] None None)) as (Hlen & Hsp & _).
  - simpl. lia.
  - intros i a b Ha. simpl in Ha. by destruct i.
  - intros a Ha. simpl in Ha. by apply not_elem_of_nil in Ha.
  - split; [exact Hlen | exact Hsp].
Defined.

(** What the hearing page shows and signs.  After a prediction that was
    taken, the list element (when the page has one) shows the texts of the
    last eight entries, at most eight paragraphs, and the avatar (when
    there is one) has been handed the texts of the whole list joined by
    spaces; a prediction that was dropped changes nothing at all. *)
Theorem hearing_display_follows_the_list (p : string) (t : Z) (st : Hearing.State) :
  let st' := Hearing.handleASLPrediction p t st in
  st' = st ∨
  (last (Hearing.aslPredictions st') = Some (Hearing.mkPrediction p t) ∧
   (∀ d, Hearing.listEl st = Some d →
         Hearing.listEl st'
           = Some (map Hearing.text (Hearing.slice_last 8 (Hearing.aslPredictions st'))) ∧
         length (default [] (Hearing.listEl st')) ≤ 8) ∧
   (∀ calls, Hearing.avatar st = Some calls →
         Hearing.avatar st'
           = Some (calls ++ [String.concat " " (map Hearing.text (Hearing.aslPredictions st'))]))).
Proof.
  cbv zeta. unfold Hearing.handleASLPrediction.
  case_decide as Hp; [by left |].
  destruct (match last (Hearing.aslPredictions st) with
            | Some lp => bool_decide (t - Hearing.time lp < 1000)%Z
                         && bool_decide (Hearing.text lp = p)
            | None => false
            end); [by left |].
  right.
  set (pushed := Hearing.aslPredictions st ++ [Hearing.mkPrediction p t]).
  set (kept := if decide (15 < length pushed) then tail pushed else pushed).
  assert (last kept = Some (Hearing.mkPrediction p t)) as Hlast.
  { subst kept. case_decide as Hbig; [| subst pushed; by rewrite last_snoc].
    subst pushed. destruct (Hearing.aslPredictions st) as [|y l]; simpl in *; [lia |].
    by rewrite last_snoc. }
  unfold Hearing.updateASLDisplay. simpl.
  destruct (Hearing.listEl st) as [d|]; simpl;
    destruct (Hearing.avatar st) as [calls|]; simpl;
    (split; [exact Hlast |]); split; intros; simplify_eq; try done;
    (split; [done |]); rewrite length_map; apply slice_last_length.
Qed.

Lemma deaf_step (p : string) (t : Z) (connected : bool) (st : Deaf.State) :
  Deaf.handleASLPrediction p t connected st = st ∨
  (p ≠ "" ∧ p ≠ Deaf.lastASLPrediction st ∧
   (∀ e, last (Deaf.aslHistory st) = Some e → (Deaf.ASL_DEBOUNCE ≤ t - Deaf.time e)%Z) ∧
   let st' := Deaf.handleASLPrediction p t connected st in
   let pushed := Deaf.aslHistory st ++ [Deaf.mkEntry p t] in
   Deaf.lastASLPrediction st' = p ∧
   Deaf.aslHistory st' = (if decide (20 < length pushed) then tail pushed else pushed) ∧
   Deaf.emitted st' = Deaf.emitted st ++ (if connected then [p] else [])).
Proof.
  unfold Deaf.handleASLPrediction.
  case_decide as Hp; [by left |].
  assert (p ≠ "" ∧ p ≠ Deaf.lastASLPrediction st) as [Hne Hlast] by (split; intros ?; apply Hp; auto).
  destruct (match last (Deaf.aslHistory st) with
            | Some e => bool_decide (t - Deaf.time e < Deaf.ASL_DEBOUNCE)%Z
            | None => false
            end) eqn:Hsoon; [by left |].
  right. split; [done |]. split; [done |]. split.
  - intros e He. rewrite He in Hsoon. apply bool_decide_eq_false in Hsoon. lia.
  - cbv zeta. unfold Deaf.updateASLHistory. simpl.
    destruct (Deaf.historyEl st); destruct connected; simpl;
      rewrite ?app_nil_r; done.
Qed.

(** The history of signs on the deaf page.  Through any sequence of
    predictions, at any times and whatever the state of the socket, the
    history never holds more than twenty entries, never holds the same
    sign twice in a row, any two neighbours are at least 800 ms apart, and
    its last entry is the sign the page remembers as the last one. *)
Theorem deaf_history_stays_tidy (inputs : list (string * Z * bool)) (st : Deaf.State) :
  length (Deaf.aslHistory st) ≤ 20 → Deaf.tidy st →
  length (Deaf.aslHistory (Deaf.run inputs st)) ≤ 20 ∧ Deaf.tidy (Deaf.run inputs st).
Proof.
  revert st. induction inputs as [|[[p t] connected] inputs IH]; intros st Hlen Htidy;
    [done |].
  simpl. destruct (deaf_step p t connected st) as [-> | (Hp & Hnew & Hgap & Hstep)];
    [by apply IH |].
  cbv zeta in Hstep. destruct Hstep as (Hlast' & Hhist & _).
  destruct Htidy as (Hnb & Hlast & Hne).
  set (pushed := Deaf.aslHistory st ++ [Deaf.mkEntry p t]) in *.
  assert (∀ i a b, pushed !! i = Some a → pushed !! S i = Some b →
            Deaf.prediction a ≠ Deaf.prediction b
            ∧ (Deaf.ASL_DEBOUNCE ≤ Deaf.time b - Deaf.time a)%Z) as Hnb'.
  { apply (neighbours_snoc
             (λ a b, Deaf.prediction a ≠ Deaf.prediction b
                     ∧ (Deaf.ASL_DEBOUNCE ≤ Deaf.time b - Deaf.time a)%Z)); [exact Hnb |].
    intros a Ha. simpl. split; [rewrite (Hlast a Ha); congruence | by apply Hgap]. }
  apply IH.
  - rewrite Hhist. case_decide.
    + rewrite tail_length. subst pushed. rewrite length_app. simpl. lia.
    + lia.
  - split; [| split].
    + rewrite Hhist. case_decide; [| done].
      by apply (neighbours_tail
                  (λ a b, Deaf.prediction a ≠ Deaf.prediction b
                          ∧ (Deaf.ASL_DEBOUNCE ≤ Deaf.time b - Deaf.time a)%Z)).
    + intros e He. rewrite Hhist in He. rewrite Hlast'.
      assert (last pushed = Some e) as Hpushed.
      { case_decide as Hbig; [| done].
        subst pushed. destruct (Deaf.aslHistory st) as [|y l]; [simpl in Hbig; lia |].
        change (last (l ++ [Deaf.mkEntry p t]) = Some e) in He.
        change (last (y :: (l ++ [Deaf.mkEntry p t])) = Some e).
        by rewrite last_cons, He. }
      subst pushed. rewrite last_snoc in Hpushed. by simplify_eq.
    + intros e He. rewrite Hhist in He.
      assert (e ∈ pushed) as Hin by (case_decide; [by apply elem_of_tail | done]).
      subst pushed. apply elem_of_app in Hin as [Hin | Hin]; [by apply Hne |].
      apply list_elem_of_singleton in Hin. by subst.
Qed.

Lemma deaf_history_stays_tidy_witness :
  let st := Deaf.run [("A", 0%Z, true); ("A", 900%Z, true); ("B", 1000%Z, false);
                      ("B", 1200%Z, true)] Deaf.initial in
  length (Deaf.aslHistory st) ≤ 20 ∧ Deaf.tidy st.
Proof.
  cbv zeta. apply deaf_history_stays_tidy.
  - simpl. lia.
  - split; [| split].
    + intros i a b Ha. simpl in Ha. by rewrite lookup_nil in Ha.
    + intros e He. discriminate.
    + intros e He. simpl in He. by apply not_elem_of_nil in He.
Defined.

(** The rule table of the classifier.  Whatever the landmark values, and
    whatever the number comparison and the spread tests answer, the
    classifier returns nothing or one of ten letters; in particular it
    never returns [L], whose rule comes after the rule for [I] with the
    same condition, nor any of the word signs of [ASL_LABELS]. *)
Theorem classifier_returns_ten_letters_at_most {num : Type} (lt : num → num → bool)
    (spread_below_tenth spread_above_three_tenths : list num → bool) (features : list num) :
  let answer := Deaf.getHeuristicPrediction lt spread_below_tenth
                  spread_above_three_tenths features in
  answer ∈ [None; Some "A"; Some "V"; Some "I"; Some "Y"; Some "O"; Some "B"; Some "E";
            Some "3"; Some "F"; Some "K"] ∧
  answer ≠ Some "L".
Proof.
  cbv zeta. unfold Deaf.getHeuristicPrediction.
  destruct (Deaf.finger lt features 0), (Deaf.finger lt features 1),
    (Deaf.finger lt features 2), (Deaf.finger lt features 3), (Deaf.finger lt features 4);
    cbn [negb andb];
    destruct (spread_below_tenth (take 42 features)),
      (spread_above_three_tenths (take 42 features));
    cbn [negb andb]; (split; [set_solver | discriminate]).
Qed.
End asl_extras.

(** ** The server with transcription *)

Section app_extras.
Import Server Audio SpeechToText SpeechToTextInv.

Lemma app_step_stt ev st :
  App.stt (App.step ev st).1 = run (App.service_events ev) (App.stt st).
Proof.
  destruct ev as [id | id [| k p |] | id chunk | [s result | s | t]]; simpl; try done.
  by destruct (on_join id (App.rooms st)).
Qed.

Lemma service_run_app evs evs' sv : run (evs ++ evs') sv = run evs' (run evs sv).
Proof. apply fold_left_app. Qed.

Lemma app_run_stt (evs : list App.Event) (st : App.State) :
  App.stt (App.run evs st).1 = run (flat_map App.service_events evs) (App.stt st).
Proof.
  revert st. induction evs as [|ev evs IH]; intros st; [done |].
  pose proof (app_step_stt ev st) as Hstt.
  cbn [App.run flat_map].
  destruct (App.step ev st) as [st1 out1]. cbn [fst] in Hstt.
  specialize (IH st1). destruct (App.run evs st1) as [st2 out2]. cbn [fst] in *.
  rewrite service_run_app, <- Hstt. exact IH.
Qed.

Lemma deref_alter_socket k r r' sv :
  socket (deref r' (with_infos (alter (set_socket (Some k)) r) sv)) =
    if decide (r' = r ∧ r < length (infos sv)) then Some k else socket (deref r' sv).
Proof.
  unfold deref, with_infos. cbn [infos].
  case_decide as Hcase.
  - destruct Hcase as [-> Hlt].
    rewrite list_lookup_alter_eq.
    destruct (lookup_lt_is_Some_2 (infos sv) r Hlt) as [x ->]. done.
  - destruct (decide (r' = r)) as [-> | Hne].
    + rewrite list_lookup_alter_eq.
      rewrite (lookup_ge_None_2 (infos sv) r); [done |].
      destruct (decide (r < length (infos sv))); [tauto | lia].
    + by rewrite list_lookup_alter_ne.
Qed.

Lemma bindings_transfer sv sv' :
  recognizeStreams sv' = recognizeStreams sv →
  (∀ r, socket (deref r sv') = socket (deref r sv)) →
  (App.wired sv → App.wired sv') ∧ (∀ id, App.unbound id sv → App.unbound id sv').
Proof.
  intros Hmap Hsock. split.
  - intros [Hinj Hself]. split.
    + intros k1 k2 r. rewrite Hmap. apply Hinj.
    + intros k r sock. rewrite Hmap, Hsock. apply Hself.
  - intros id Hun r. rewrite Hmap, Hsock. apply Hun.
Qed.

Lemma cleanup_bindings socketId sv :
  (App.wired sv → App.wired (cleanup socketId sv)) ∧
  (∀ id, App.unbound id sv → App.unbound id (cleanup socketId sv)) ∧
  App.unbound socketId (cleanup socketId sv).
Proof.
  destruct (cleanup_shape socketId sv) as (Hinfos & Hmap & _).
  assert (∀ r, deref r (cleanup socketId sv) = deref r sv) as Hderef
    by (intros r; unfold deref; by rewrite Hinfos).
  split; [| split].
  - intros [Hinj Hself]. split.
    + intros k1 k2 r. rewrite Hmap.
      intros [_ H1]%lookup_delete_Some [_ H2]%lookup_delete_Some. by apply (Hinj k1 k2 r).
    + intros k r sock. rewrite Hmap, Hderef.
      intros [_ H1]%lookup_delete_Some. by apply Hself.
  - intros id Hun r. rewrite Hmap, Hderef. intros [_ H1]%lookup_delete_Some. by apply Hun.
  - intros r. rewrite Hmap. by rewrite lookup_delete_eq.
Qed.

Lemma create_bindings socketId languageCode sv :
  registry_bare sv →
  (App.wired sv → App.wired (createRecognizeStream socketId languageCode sv).1) ∧
  (∀ id, App.unbound id sv →
         App.unbound id (createRecognizeStream socketId languageCode sv).1) ∧
  App.unbound socketId (createRecognizeStream socketId languageCode sv).1.
Proof.
  intros Hbare.
  pose proof (createRecognizeStream_result socketId languageCode sv) as Hres.
  pose proof (cleanup_bare socketId sv Hbare) as [Hrange _].
  destruct (cleanup_bindings socketId sv) as (Hwired0 & Hun0 & _).
  cbv zeta in Hres.
  destruct (createRecognizeStream socketId languageCode sv) as [sv' s]. cbn [fst].
  destruct Hres as (_ & _ & Hmap & Hentry & _ & _ & Hold).
  set (sv0 := cleanup socketId sv) in *.
  assert (∀ k r, k ≠ socketId → recognizeStreams sv' !! k = Some r →
            recognizeStreams sv0 !! k = Some r ∧ deref r sv' = deref r sv0) as Hother.
  { intros k r Hne. rewrite Hmap, lookup_insert_ne by done. intros Hk.
    split; [done |]. apply Hold. by apply (Hrange k r). }
  assert (∀ k, recognizeStreams sv0 !! k ≠ Some (S (length (infos sv0)))) as Hfresh.
  { intros k Hk. apply Hrange in Hk as [Hlt _]. lia. }
  assert (∀ r, recognizeStreams sv' !! socketId = Some r → r = S (length (infos sv0)))
    as Hnew.
  { intros r. rewrite Hmap, lookup_insert_eq. congruence. }
  split; [| split].
  - intros Hw. destruct (Hwired0 Hw) as [Hinj Hself]. split.
    + intros k1 k2 r H1 H2.
      destruct (decide (k1 = socketId)) as [-> | Hne1];
        destruct (decide (k2 = socketId)) as [-> | Hne2]; [done | | |].
      * apply Hnew in H1 as ->. apply (Hother k2 _ Hne2) in H2 as [H2 _].
        by apply Hfresh in H2.
      * apply Hnew in H2 as ->. apply (Hother k1 _ Hne1) in H1 as [H1 _].
        by apply Hfresh in H1.
      * apply (Hother k1 _ Hne1) in H1 as [H1 _]. apply (Hother k2 _ Hne2) in H2 as [H2 _].
        by apply (Hinj k1 k2 r).
    + intros k r sock Hk.
      destruct (decide (k = socketId)) as [-> | Hne].
      * apply Hnew in Hk as ->. by rewrite Hentry.
      * apply (Hother k _ Hne) in Hk as [Hk ->]. by apply Hself.
  - intros id Hun r Hk.
    destruct (decide (id = socketId)) as [-> | Hne].
    + apply Hnew in Hk as ->. by rewrite Hentry.
    + apply (Hother id _ Hne) in Hk as [Hk ->]. by apply (Hun0 id Hun).
  - intros r Hk. apply Hnew in Hk as ->. by rewrite Hentry.
Qed.

Lemma bind_existing k r sv :
  recognizeStreams sv !! k = Some r → App.wired sv →
  let sv' := with_infos (alter (set_socket (Some k)) r) sv in
  App.wired sv' ∧ ∀ id, id ≠ k → App.unbound id sv → App.unbound id sv'.
Proof.
  intros Hk [Hinj Hself]. cbv zeta. split; [split |].
  - exact Hinj.
  - intros k' r' sock Hk'. rewrite deref_alter_socket.
    case_decide as Hcase.
    + destruct Hcase as [-> _]. intros [= <-]. by apply (Hinj k k' r).
    + by apply Hself.
  - intros id Hne Hun r' Hid. rewrite deref_alter_socket.
    case_decide as Hcase.
    + destruct Hcase as [-> _]. destruct Hne. by apply (Hinj id k r).
    + by apply Hun.
Qed.

Lemma bind_bindings k sv :
  registry_bare sv → App.wired sv →
  App.wired (bindSocketToStream k k sv) ∧
  ∀ id, id ≠ k → App.unbound id sv → App.unbound id (bindSocketToStream k k sv).
Proof.
  intros Hbare Hw. unfold bindSocketToStream.
  destruct (recognizeStreams sv !! k) as [r|] eqn:Hk; [by apply bind_existing |].
  destruct (create_bindings k "en-US" sv Hbare) as (Hw1 & Hun1 & _).
  destruct (recognizeStreams (createRecognizeStream k "en-US" sv).1 !! k) as [r|] eqn:Hk1.
  - destruct (bind_existing k r _ Hk1 (Hw1 Hw)) as [Hw2 Hun2].
    split; [exact Hw2 |]. intros id Hne Hun. apply Hun2; [done |]. by apply Hun1.
  - split; [by apply Hw1 |]. intros id _ Hun. by apply Hun1.
Qed.

Lemma processAudio_frame socketId data sv :
  recognizeStreams (processAudio socketId data sv) = recognizeStreams sv ∧
  infos (processAudio socketId data sv) = infos sv.
Proof.
  unfold processAudio.
  destruct (recognizeStreams sv !! socketId) as [r|]; [| done].
  destruct (stream (deref r sv)) as [s0|]; [| done].
  destruct (streams sv !! s0) as [rs0|]; [| done].
  destruct (negb (writable rs0)); [done |].
  destruct (normalize (buffer data)) as [audioBuffer| |]; [| done | done].
  by destruct (isFinal data); case_decide.
Qed.

Lemma on_data_frame rs data sv :
  recognizeStreams (on_data rs data sv) = recognizeStreams sv ∧
  ∀ r, socket (deref r (on_data rs data sv)) = socket (deref r sv).
Proof.
  destruct (setupRestartTimer_frame (rs_streamInfo rs) (rs_socketId rs)
              (rs_languageCode rs) sv) as (Hmap & _ & _ & Hsock).
  unfold on_data. destruct data as [result|]; [| done].
  destruct (recognizeStreams _ !! rs_socketId rs) as [r0|]; [| done].
  by destruct (socket (deref r0 _)).
Qed.

Lemma step_bindings ev sv :
  App.self_bound ev → registry_bare sv → App.wired sv →
  App.wired (step ev sv) ∧
  ∀ id, (∀ sock, ev ≠ Bind id sock) → App.unbound id sv → App.unbound id (step ev sv).
Proof.
  intros Hself Hbare Hw.
  destruct ev as [k l | k sock | k data | k | s data | s | t]; cbn [step].
  - destruct (create_bindings k l sv Hbare) as (Hw1 & Hun1 & _).
    split; [by apply Hw1 |]. intros id _. apply Hun1.
  - simpl in Hself. subst sock.
    destruct (bind_bindings k sv Hbare Hw) as [Hw1 Hun1].
    split; [done |]. intros id Hne. apply Hun1. intros ->. by apply (Hne k).
  - destruct (processAudio_frame k data sv) as [Hmap Hinfos].
    destruct (bindings_transfer sv (processAudio k data sv) Hmap) as [Hw1 Hun1].
    { intros r. unfold deref. by rewrite Hinfos. }
    split; [by apply Hw1 |]. intros id _. apply Hun1.
  - destruct (cleanup_bindings k sv) as (Hw1 & Hun1 & _).
    split; [by apply Hw1 |]. intros id _. apply Hun1.
  - destruct (streams sv !! s) as [rs|]; [| by split].
    destruct (destroyed rs); [by split |].
    destruct (on_data_frame rs data sv) as [Hmap Hsock].
    destruct (bindings_transfer sv (on_data rs data sv) Hmap Hsock) as [Hw1 Hun1].
    split; [by apply Hw1 |]. intros id _. apply Hun1.
  - destruct (streams sv !! s) as [rs|]; [| by split].
    destruct (destroyed rs); [by split |].
    destruct (create_bindings (rs_socketId rs) (rs_languageCode rs) sv Hbare)
      as (Hw1 & Hun1 & _).
    split; [by apply Hw1 |]. intros id _. apply Hun1.
  - destruct (timers sv !! t) as [tm|]; [| by split].
    destruct (tm_state tm); [| by split | by split].
    set (sv1 := with_timers _ sv).
    destruct (create_bindings (tm_socketId tm) (tm_languageCode tm) sv1) as (Hw1 & Hun1 & _).
    { by apply bare_timers. }
    split; [by apply Hw1 |]. intros id _. apply Hun1.
Qed.

Lemma run_bindings evs sv :
  Forall App.self_bound evs → registry_bare sv → App.wired sv →
  App.wired (run evs sv) ∧
  ∀ id, Forall (λ ev, ∀ sock, ev ≠ Bind id sock) evs →
        App.unbound id sv → App.unbound id (run evs sv).
Proof.
  revert sv. induction evs as [|ev evs IH]; intros sv Hself Hbare Hw; [by split |].
  apply Forall_cons in Hself as [Hself1 Hself].
  destruct (step_bindings ev sv Hself1 Hbare Hw) as [Hw1 Hun1].
  destruct (IH (step ev sv) Hself (step_bare ev sv Hbare) Hw1) as [Hw2 Hun2].
  split; [exact Hw2 |].
  intros id Hno Hun. apply Forall_cons in Hno as [Hno1 Hno].
  apply Hun2; [done |]. by apply Hun1.
Qed.

Lemma service_events_self_bound evs : Forall App.self_bound (flat_map App.service_events evs).
Proof.
  induction evs as [|ev evs IH]; [constructor |].
  simpl. apply Forall_app. split; [| exact IH].
  destruct ev as [id | id [| k p |] | id chunk | [s result | s | t]]; simpl;
    repeat constructor.
Qed.

Lemma service_events_no_bind id evs :
  Forall (λ ev, ev ≠ App.connection id) evs →
  Forall (λ ev, ∀ sock, ev ≠ Bind id sock) (flat_map App.service_events evs).
Proof.
  induction 1 as [|ev evs Hev _ IH]; [constructor |].
  simpl. apply Forall_app. split; [| exact IH].
  destruct ev as [id' | id' [| k p |] | id' chunk | [s result | s | t]]; simpl;
    repeat constructor; try done.
  intros sock [= -> _]. done.
Qed.

Lemma initial_wired : App.wired initial.
Proof.
  split; [intros k1 k2 r Hk | intros k r sock Hk];
    (change (recognizeStreams initial) with (∅ : gmap string nat) in Hk;
     by rewrite lookup_empty in Hk).
Qed.

Lemma app_reachable evs :
  let sv := App.stt (App.run evs App.initial).1 in
  sv = run (flat_map App.service_events evs) initial ∧ consistent sv ∧ App.wired sv.
Proof.
  cbv zeta.
  pose proof (app_run_stt evs App.initial) as Hstt.
  rewrite Hstt. split; [done |]. split.
  - apply run_consistent, initial_consistent.
  - apply run_bindings; [apply service_events_self_bound | apply initial_bare
                        | apply initial_wired].
Qed.

Lemma app_run_snoc evs ev st :
  (App.run (evs ++ [ev]) st).1 = (App.step ev (App.run evs st).1).1.
Proof.
  revert st. induction evs as [|ev' evs IH]; intros st; simpl.
  - by destruct (App.step ev st).
  - destruct (App.step ev' st) as [st1 out1]. specialize (IH st1).
    destruct (App.run (evs ++ [ev]) st1) as [st2 out2].
    by destruct (App.run evs st1).
Qed.


Lemma app_after_disconnect evs id :
  let st0 := (App.run evs App.initial).1 in
  let st := (App.run (evs ++ [App.request id disconnect]) App.initial).1 in
  App.stt st = cleanup id (cleanup id (App.stt st0)) ∧
  App.rooms st = socket_leave id DEFAULT_ROOM (App.rooms st0).
Proof. cbv zeta. by rewrite app_run_snoc. Qed.

(** A transcript goes to the socket it was recognized for.  In every
    state the server can reach, an event sends at most one transcript, and
    only when it is a result arriving on a stream that has not been
    destroyed; the transcript then goes to the socket that stream was
    opened for (the one whose audio is written to it) and to no other. *)
Theorem transcript_goes_to_the_socket_it_was_recognized_for
    (evs : list App.Event) (ev : App.Event) :
  let st := (App.run evs App.initial).1 in
  let st' := (App.step ev st).1 in
  transcripts (App.stt st') = transcripts (App.stt st) ∨
  ∃ (s : nat) (rs : RecognizeStream) (result : Result),
    ev = App.callback (App.data s (Some result)) ∧
    streams (App.stt st) !! s = Some rs ∧ destroyed rs = false ∧
    transcripts (App.stt st') = transcripts (App.stt st) ++ [(rs_socketId rs, result)].
Proof.
  cbv zeta. destruct (app_reachable evs) as (_ & _ & _ & Hself).
  rewrite app_step_stt.
  set (sv := App.stt (App.run evs App.initial).1) in *.
  assert (∀ ev' sv', (∀ s result, ev' ≠ StreamData s (Some result)) →
            transcripts (step ev' sv') = transcripts sv') as Hquiet.
  { intros ev' sv' Hne.
    destruct (step_transcripts ev' sv') as [Heq | (s & _ & result & _ & _ & Heq & _)];
      [done | by destruct (Hne s result)]. }
  destruct ev as [id | id [| k p |] | id chunk | [s result | s | t]];
    cbn [App.service_events run fold_left];
    try (left; rewrite ?Hquiet; done).
  destruct (step_transcripts (StreamData s result) sv)
    as [Heq | (s0 & rs & result0 & r & sock & Heq & Hrs & Hd & Hmap & Hsock & Htr)];
    [by left |].
  right. injection Heq as <- ->.
  exists s, rs, result0.
  rewrite (Hself _ _ _ Hmap Hsock) in Htr. done.
Qed.

Lemma step_transcripts_unbound id ev sv :
  App.wired sv → App.unbound id sv →
  App.transcripts_for id (step ev sv) = App.transcripts_for id sv.
Proof.
  intros [_ Hself] Hun. unfold App.transcripts_for.
  destruct (step_transcripts ev sv)
    as [-> | (s & rs & result & r & sock & _ & _ & _ & Hmap & Hsock & ->)]; [done |].
  rewrite filter_app, filter_cons_False, filter_nil, app_nil_r; [done |].
  simpl. intros ->.
  pose proof (Hself _ _ _ Hmap Hsock) as Hk. rewrite <- Hk in Hmap.
  apply Hun in Hmap. congruence.
Qed.

Lemma run_transcripts_unbound id evs sv :
  Forall App.self_bound evs → Forall (λ ev, ∀ sock, ev ≠ Bind id sock) evs →
  registry_bare sv → App.wired sv → App.unbound id sv →
  App.transcripts_for id (run evs sv) = App.transcripts_for id sv.
Proof.
  revert sv. induction evs as [|ev evs IH]; intros sv Hself Hno Hbare Hw Hun; [done |].
  apply Forall_cons in Hself as [Hself1 Hself].
  apply Forall_cons in Hno as [Hno1 Hno].
  destruct (step_bindings ev sv Hself1 Hbare Hw) as [Hw1 Hun1].
  change (run (ev :: evs) sv) with (run evs (step ev sv)).
  rewrite IH; [by apply step_transcripts_unbound | done | done | by apply step_bare | done |].
  by apply Hun1.
Qed.

(** Nothing is sent to a socket that has gone.  Once a socket has
    disconnected, and for as long as no connection with its id is made
    again, no transcript is addressed to it: not when audio still in
    flight arrives, not when results arrive on its old stream, and not
    when the restart timer that teardown left armed opens a stream for it
    again. *)
Theorem no_transcript_after_disconnect (evs evs' : list App.Event) (id : SocketId) :
  Forall (λ ev, ev ≠ App.connection id) evs' →
  let st := (App.run (evs ++ [App.request id disconnect]) App.initial).1 in
  App.transcripts_for id (App.stt (App.run evs' st).1) = App.transcripts_for id (App.stt st).
Proof.
  intros Hno. cbv zeta.
  destruct (app_reachable (evs ++ [App.request id disconnect])) as (_ & (_ & Hbare & _) & Hw).
  destruct (app_after_disconnect evs id) as [Hstt _]. cbv zeta in Hstt.
  rewrite (app_run_stt evs' (App.run (evs ++ [App.request id disconnect]) App.initial).1).
  apply run_transcripts_unbound;
    [apply service_events_self_bound | by apply service_events_no_bind | done | done |].
  rewrite Hstt. apply cleanup_bindings.
Qed.

Lemma no_transcript_after_disconnect_witness :
  let result := mkResult true "hello" 0 1 in
  let st := (App.run [App.connection "p"; App.callback (App.data 0 (Some result));
                      App.request "p" disconnect] App.initial).1 in
  let later := [App.callback (App.timeout 0); App.callback (App.data 1 (Some result));
                App.audioData "p" (mkAudioData (NumericArray [1%Z]) false)] in
  App.transcripts_for "p" (App.stt st) = [result] ∧
  App.transcripts_for "p" (App.stt (App.run later st).1) = [result].
Proof.
  cbv zeta. split; [reflexivity |].
  etrans; [| reflexivity].
  apply (no_transcript_after_disconnect
           [App.connection "p";
            App.callback (App.data 0 (Some (mkResult true "hello" 0 1)))]
           [App.callback (App.timeout 0);
            App.callback (App.data 1 (Some (mkResult true "hello" 0 1)));
            App.audioData "p" (mkAudioData (NumericArray [1%Z]) false)] "p").
  repeat constructor; discriminate.
Defined.

(** A disconnect releases everything the server holds for the socket.
    Whatever happened before, right after a socket's disconnect the
    registry has no session for it, none of its streams is left open, it
    is not a member of the room, and audio that still arrives under its
    id changes nothing and sends nothing. *)
Theorem disconnect_releases_the_session (evs : list App.Event) (id : string) :
  let st := (App.run (evs ++ [App.request id disconnect]) App.initial).1 in
  recognizeStreams (App.stt st) !! id = None ∧
  live_handles (App.stt st) id = [] ∧
  (id ∉ members (App.rooms st) DEFAULT_ROOM) ∧
  ∀ chunk, App.step (App.audioData id chunk) st = (st, []).
Proof.
  cbv zeta.
  destruct (app_reachable (evs ++ [App.request id disconnect])) as (_ & (Htr & _ & _) & _).
  destruct (app_after_disconnect evs id) as [Hstt Hrooms]. cbv zeta in Hstt, Hrooms.
  set (st := (App.run (evs ++ [App.request id disconnect]) App.initial).1) in *.
  assert (recognizeStreams (App.stt st) !! id = None) as Hnone.
  { rewrite Hstt. destruct (cleanup_shape id (cleanup id (App.stt (App.run evs App.initial).1)))
      as (_ & -> & _). apply lookup_delete_eq. }
  split; [done |]. split; [by apply no_entry_no_live_handle |]. split.
  - rewrite Hrooms, members_leave. intros [Hne _]%list_elem_of_filter. done.
  - intros chunk. cbn [App.step]. unfold processAudio. rewrite Hnone. by destruct st.
Qed.

(** A connected socket gets its transcripts.  Right after a connection,
    whatever happened before, the socket has exactly one open stream, its
    registry entry points to that stream and is bound to the socket, and
    a result arriving on that stream is sent to the socket as one
    transcript. *)
Theorem connected_socket_receives_its_transcripts (evs : list App.Event) (id : string) :
  let st := (App.run (evs ++ [App.connection id]) App.initial).1 in
  ∃ s : nat,
    live_handles (App.stt st) id = [s] ∧
    (∃ r, recognizeStreams (App.stt st) !! id = Some r ∧
          deref r (App.stt st) = mkInfo (Some s) (Some id) None None) ∧
    ∀ result : Result,
      transcripts (App.stt (App.step (App.callback (App.data s (Some result))) st).1)
        = transcripts (App.stt st) ++ [(id, result)].
Proof.
  cbv zeta.
  destruct (app_reachable (evs ++ [App.connection id])) as (Hrun & _ & _).
  pose proof (at_most_one_live_handle
                (flat_map App.service_events (evs ++ [App.connection id])) id) as Hone.
  cbv zeta in Hrun. rewrite <- Hrun in Hone. clear Hrun.
  rewrite app_run_snoc in *.
  assert (∀ st s result,
            transcripts (App.stt (App.step (App.callback (App.data s (Some result))) st).1)
              = transcripts (step (StreamData s (Some result)) (App.stt st))) as Hcb by done.
  setoid_rewrite Hcb. clear Hcb.
  set (sv := App.stt (App.run evs App.initial).1) in *.
  change (App.stt (App.step (App.connection id) (App.run evs App.initial).1).1)
    with (bindSocketToStream id id (createRecognizeStream id "en-US" sv).1) in *.
  pose proof (createRecognizeStream_result id "en-US" sv) as Hres. cbv zeta in Hres.
  destruct (createRecognizeStream id "en-US" sv) as [sv1 s]. cbn [fst] in *.
  destruct Hres as (Hs & Hstreams & Hmap & Hentry & _).
  set (n := length (infos (cleanup id sv))) in *.
  assert (recognizeStreams sv1 !! id = Some (S n)) as Hk
    by (rewrite Hmap; apply lookup_insert_eq).
  assert (S n < length (infos sv1)) as Hlt
    by (apply (deref_in_range (S n) sv1 s); by rewrite Hentry).
  unfold bindSocketToStream in *. rewrite Hk in *.
  set (sv2 := with_infos (alter (set_socket (Some id)) (S n)) sv1) in *.
  assert (streams sv2 !! s = Some (mkStream id "en-US" n false true [])) as Hlook.
  { change (streams sv2) with (streams sv1). rewrite Hstreams, Hs.
    by apply list_lookup_middle. }
  assert (deref (S n) sv2 = mkInfo (Some s) (Some id) None None) as Hentry2.
  { unfold deref, sv2, with_infos. cbn [infos]. rewrite list_lookup_alter_eq.
    unfold deref in Hentry.
    destruct (lookup_lt_is_Some_2 (infos sv1) (S n) Hlt) as [x Hx].
    rewrite Hx in *. simpl in *. by rewrite Hentry. }
  exists s. split; [| split].
  - apply singleton_of_short; [| exact Hone].
    unfold live_handles. apply list_elem_of_filter. split.
    + unfold is_live. rewrite Hlook. simpl. by rewrite bool_decide_eq_true_2.
    + apply elem_of_seq. apply lookup_lt_Some in Hlook. lia.
  - by exists (S n).
  - intros result. cbn [step]. rewrite Hlook. cbn [destroyed].
    rewrite on_data_transcripts. cbn [rs_socketId].
    change (recognizeStreams sv2) with (recognizeStreams sv1). rewrite Hk.
    by rewrite Hentry2.
Qed.

End app_extras.

(** ** ICE configuration *)

Section ice_extras.
Import Stdlib.Strings.Ascii IceConfig.

Lemma split_comma_not_nil s : split_comma s ≠ [].
Proof.
  destruct s as [|c rest]; simpl; [done |].
  destruct (Ascii.eqb c ","%char); [done |]. by destruct (split_comma rest).
Qed.

(** Joining the pieces with commas gives the string back. *)
Lemma split_comma_join s : String.concat "," (split_comma s) = s.
Proof.
  induction s as [|c rest IH]; [done |].
  pose proof (split_comma_not_nil rest) as Hne.
  simpl. destruct (Ascii.eqb c ","%char) eqn:Hc.
  - apply Ascii.eqb_eq in Hc as ->.
    destruct (split_comma rest) as [|w ws]; [done |].
    by rewrite <- IH.
  - destruct (split_comma rest) as [|w ws]; [done |].
    destruct ws as [|w' ws]; simpl in *; by rewrite <- IH.
Qed.

(** The ICE configuration never carries half a TURN entry.  The list
    always starts with the public STUN server, without credentials.  Every
    entry after it has a url that is not empty and is a trimmed piece of
    [TURN_URLS], and carries both the user name and the credential of the
    environment, neither of them empty.  When one of the three variables
    is unset or empty there is no such entry at all; and there are never
    more entries than pieces of [TURN_URLS] between commas. *)
Theorem turn_entries_are_complete_or_absent (trim : string → string)
    (TURN_URLS TURN_USERNAME TURN_CREDENTIAL : option string) :
  ∃ turn : list IceServer,
    buildIceServers trim TURN_URLS TURN_USERNAME TURN_CREDENTIAL
      = mkIceServer "stun:stun.l.google.com:19302" None None :: turn ∧
    (∀ e, e ∈ turn →
       urls e ≠ "" ∧
       (∃ piece, piece ∈ split_comma (default "" TURN_URLS) ∧ urls e = trim piece) ∧
       (∃ u, TURN_USERNAME = Some u ∧ u ≠ "" ∧ username e = Some u) ∧
       (∃ c, TURN_CREDENTIAL = Some c ∧ c ≠ "" ∧ credential e = Some c)) ∧
    (default "" TURN_URLS = "" ∨ default "" TURN_USERNAME = ""
       ∨ default "" TURN_CREDENTIAL = "" → turn = []) ∧
    length turn ≤ length (split_comma (default "" TURN_URLS)).
Proof.
  unfold buildIceServers.
  destruct (bool_decide (default "" TURN_URLS ≠ "") && bool_decide (default "" TURN_USERNAME ≠ "")
            && bool_decide (default "" TURN_CREDENTIAL ≠ "")) eqn:Hall.
  - apply andb_true_iff in Hall as [Hall Hc]. apply andb_true_iff in Hall as [Hu Hn].
    apply bool_decide_eq_true in Hu, Hn, Hc.
    eexists. split; [reflexivity |]. split; [| split].
    + intros e (u & -> & Hin)%list_elem_of_fmap.
      apply list_elem_of_filter in Hin as [Hne (piece & -> & Hpiece)%list_elem_of_fmap].
      split; [done |]. split; [by exists piece |]. split.
      * destruct TURN_USERNAME as [n|]; [| done]. by exists n.
      * destruct TURN_CREDENTIAL as [c|]; [| done]. by exists c.
    + intros [? | [? | ?]]; done.
    + rewrite length_map. etrans; [apply length_filter |]. by rewrite length_map.
  - exists []. split; [done |]. split; [| split].
    + intros e He. by apply not_elem_of_nil in He.
    + done.
    + simpl. lia.
Qed.

End ice_extras.

(** ** Captions *)

Section caption_extras.
Import Captions.

Lemma caption_step_other_side (b : bool) (ev : Event) (st : State) :
  (transcriptTimeout st = None ∨ transcriptTimeout st = Some b) →
  (∀ transcript isFinal now channelOpen,
      ev ≠ Update transcript isFinal (negb b) now channelOpen) →
  captionsEl (negb b) (step ev st) = captionsEl (negb b) st ∧
  (transcriptTimeout (step ev st) = None ∨ transcriptTimeout (step ev st) = Some b).
Proof.
  intros Htimer Hev. destruct ev as [transcript isFinal isLocal now channelOpen | now].
  - assert (isLocal = b) as ->.
    { destruct isLocal, b; try done; by destruct (Hev transcript isFinal now channelOpen). }
    cbn [step]. unfold updateTranscript.
    destruct (captionsEl b st) as [el|]; [| done].
    split; [| by right]. by destruct b.
  - cbn [step]. unfold on_timeout.
    destruct (transcriptTimeout st) as [b'|] eqn:Ht.
    2: { split; [done | left; done]. }
    assert (b' = b) as -> by (destruct Htimer; congruence).
    case_bool_decide; [| by split; [destruct b | left]].
    destruct b; simpl; [destruct (localCaptions st) | destruct (remoteCaptions st)];
      (split; [done | by left]).
Qed.

Lemma caption_run_other_side (b : bool) (evs : list Event) (st : State) :
  (transcriptTimeout st = None ∨ transcriptTimeout st = Some b) →
  no_update_of (negb b) evs →
  captionsEl (negb b) (run evs st) = captionsEl (negb b) st.
Proof.
  revert st. induction evs as [|ev evs IH]; intros st Htimer Hno; [done |].
  destruct (caption_step_other_side b ev st Htimer) as [Hsame Htimer'].
  { intros transcript isFinal now channelOpen ->.
    apply (Hno transcript isFinal now channelOpen). by left. }
  change (run (ev :: evs) st) with (run evs (step ev st)).
  rewrite IH, Hsame; [done | done |].
  intros transcript isFinal now channelOpen Hin.
  apply (Hno transcript isFinal now channelOpen). by right.
Qed.

(** The caption timer serves only the side that was updated last.  After
    a caption has been shown on one side, the timer clears that side once
    three seconds have passed; but the caption of the other side is never
    cleared, however long ago it was shown and whatever follows, until
    that other side gets a caption of its own again: the one timer of the
    page was re-armed for the side updated last. *)
Theorem caption_timer_serves_only_the_latest_side (st : State) (transcript : string)
    (isFinal isLocal : bool) (now : Z) (channelOpen : bool) (el : Element)
    (later : list Event) :
  captionsEl isLocal st = Some el →
  no_update_of (negb isLocal) later →
  let st1 := updateTranscript transcript isFinal isLocal now channelOpen st in
  captionsEl isLocal st1 = Some (show transcript el) ∧
  (∀ t, (TRANSCRIPT_TIMEOUT ≤ t - now)%Z →
        captionsEl isLocal (on_timeout t st1) = Some (hide (show transcript el))) ∧
  captionsEl (negb isLocal) (run later st1) = captionsEl (negb isLocal) st.
Proof.
  intros Hel Hno. cbv zeta.
  assert (captionsEl (negb isLocal) (updateTranscript transcript isFinal isLocal now
                                        channelOpen st) = captionsEl (negb isLocal) st
          ∧ transcriptTimeout (updateTranscript transcript isFinal isLocal now
                                 channelOpen st) = Some isLocal) as [Hother Htimer].
  { unfold updateTranscript. rewrite Hel. by destruct isLocal. }
  split; [| split].
  - unfold updateTranscript. rewrite Hel. by destruct isLocal.
  - intros t Ht. unfold on_timeout, updateTranscript. rewrite Hel.
    cbn [transcriptTimeout lastTranscriptUpdate].
    rewrite bool_decide_eq_true_2 by done. by destruct isLocal.
  - rewrite caption_run_other_side; [done | by right | done].
Qed.

Lemma caption_timer_serves_only_the_latest_side_witness :
  let st := mkState (Some (mkElement "" (Some "none"))) (Some (mkElement "" (Some "none")))
              0 None [] in
  let st1 := updateTranscript "good morning" true false 1000 true
               (updateTranscript "hello" true true 0 true st) in
  localCaptions (run [Timeout 4000; Timeout 9000] st1) = Some (mkElement "hello" (Some "block")).
Proof.
  cbv zeta.
  pose proof (caption_timer_serves_only_the_latest_side
                (updateTranscript "hello" true true 0 true
                   (mkState (Some (mkElement "" (Some "none")))
                      (Some (mkElement "" (Some "none"))) 0 None []))
                "good morning" true false 1000 true (mkElement "" (Some "none"))
                [Timeout 4000; Timeout 9000] eq_refl) as Hthm.
  cbv zeta in Hthm.
  destruct Hthm as (_ & _ & Hkept).
  - intros transcript isFinal now channelOpen Hin.
    repeat (apply elem_of_cons in Hin as [Hin | Hin]; [discriminate |]).
    by apply not_elem_of_nil in Hin.
  - exact Hkept.
Defined.

End caption_extras.
